(** * advanced-node-concepts: lag monitor and worker-pool scheduler

    A shallow embedding of the event-loop monitor
    ([core/event-loop-monitor.js]), the worker-thread manager
    ([core/worker-thread-manager.js]), the two worker scripts
    ([workers/pool-worker.js], [workers/cpu-worker.js]) and the usage
    monitor of the memory profiler ([core/memory-profiler.js]), with the
    properties the specification states about them (C1 to C10) and further
    properties of the same code (X1 to X22).

    Conventions.
    - Loop counters, indices and sizes are [N] or [nat]; Int32Array cells
      are [Z] with the 32-bit wrap-around written out.
    - JavaScript numbers that only flow through the program (results of the
      CPU-bound loops) stay behind the [JSNumber] interface, so no theorem
      depends on the algebra of IEEE doubles.
    - Time stamps ([performance.now()], [Date.now()]) are exact rationals.
    - [Math.random()] is a stream of values handed to the code that draws
      from it.
    - A callback that the event loop runs later is an event of a step
      function; a run is a list of events. Code of a worker thread runs in
      a state-and-exception monad that logs its accesses to the shared
      buffer.

    The definitions come first, module by module as the source files;
    the properties follow. *)

From Stdlib Require Import String Ascii.
From Stdlib Require Import List Arith NArith ZArith QArith Qminmax Qround.
From Stdlib Require Import Lia Lqa Bool Permutation.
From Equations Require Import Equations.
Import ListNotations.

Set Implicit Arguments.
Unset Strict Implicit.

(** ** JavaScript preliminaries *)

Module JS.

(** The arithmetic the source performs on doubles. *)
Class JSNumber (number : Type) := {
  of_N : N -> number;
  add : number -> number -> number;
  sqrt : number -> number;
  sin : number -> number;
  cos : number -> number
}.

(** A model of the interface for examples: natural numbers, with the
    integer square root and constant stand-ins for [sin] and [cos]. *)
#[export] Instance integer_model : JSNumber N := {
  of_N := fun n => n;
  add := N.add;
  sqrt := N.sqrt;
  sin := fun _ => 0%N;
  cos := fun _ => 1%N
}.

(** [for (let j = lo; j < hi; j++) acc = body j acc]. *)
Equations? for_range {A : Type} (body : N -> A -> A) (j hi : N) (acc : A) : A
  by wf (N.to_nat (hi - j)) lt :=
  for_range body j hi acc with sumbool_of_bool (N.ltb j hi) => {
    | left Hlt := for_range body (j + 1) hi (body j acc);
    | right Hge := acc }.
Proof. apply N.ltb_lt in Hlt. lia. Qed.

(** The last [n] elements of a list. *)
Definition window {A} (n : nat) (xs : list A) : list A :=
  skipn (length xs - n) xs.

(** Outcome of evaluating code that may [throw]. *)
Inductive Completion (A : Type) : Type :=
| Return (a : A)
| Throw (message : string).
Arguments Return {A} a.
Arguments Throw {A} message.

(** What crosses from a worker to its parent: a result, or the object
    [{ error: message }]. *)
Inductive Message (number : Type) : Type :=
| Value (x : number)
| ErrorObject (message : string).
Arguments Value {number} x.
Arguments ErrorObject {number} message.

(** What the parent sees of a worker that has run: a ['message'] event
    carrying what was posted, or an ['error'] event for an exception that
    escaped the worker. *)
Inductive Posted (number : Type) : Type :=
| PostMessage (m : Message number)
| ErrorEvent (message : string).
Arguments PostMessage {number} m.
Arguments ErrorEvent {number} message.

End JS.

Import JS.

(** ** Shared memory: an Int32Array over a SharedArrayBuffer *)

Module SharedMemory.

Definition Int32Array := list Z.

(** The conversion a value undergoes when it is stored into a cell. *)
Definition ToInt32 (z : Z) : Z := ((z + 2 ^ 31) mod 2 ^ 32 - 2 ^ 31)%Z.

(** The double nearest to an integer (ties to even): what [x * y] yields
    for the integers that exceed 53 bits. *)
Definition round_double (n : Z) : Z :=
  let a := Z.abs n in
  if (a <? 2 ^ 53)%Z then n
  else
    let e := (Z.log2 a - 52)%Z in
    let q := (a / 2 ^ e)%Z in
    let r := (a mod 2 ^ e)%Z in
    let h := (2 ^ (e - 1))%Z in
    let q' := if (r <? h)%Z then q
              else if (h <? r)%Z then (q + 1)%Z
              else if Z.even q then q else (q + 1)%Z in
    (Z.sgn n * (q' * 2 ^ e))%Z.

(** How code touches a cell. *)
Inductive Access :=
| PlainLoad (index : nat)                (* sharedArray[i]                   *)
| PlainStore (index : nat) (value : Z)   (* sharedArray[i] = value           *)
| AtomicStore (index : nat) (value : Z). (* Atomics.store(sharedArray, i, v) *)

Definition is_write (a : Access) : bool :=
  match a with
  | PlainLoad _ => false
  | PlainStore _ _ | AtomicStore _ _ => true
  end.

Definition is_atomic (a : Access) : bool :=
  match a with
  | AtomicStore _ _ => true
  | PlainLoad _ | PlainStore _ _ => false
  end.

Fixpoint write (i : nat) (v : Z) (cells : Int32Array) : Int32Array :=
  match i, cells with
  | _, [] => []
  | O, _ :: r => v :: r
  | S i, x :: r => x :: write i v r
  end.

(** The effect of one access on the buffer. *)
Definition perform (a : Access) (cells : Int32Array) : Int32Array :=
  match a with
  | PlainLoad _ => cells
  | PlainStore i v | AtomicStore i v => write i v cells
  end.

(** The buffer once the accesses of [trace] have happened, in order. *)
Definition after (trace : list Access) (cells : Int32Array) : Int32Array :=
  fold_left (fun m a => perform a m) trace cells.

(** Whether an access stores to the cell [i]. *)
Definition writes_to (i : nat) (a : Access) : bool :=
  match a with
  | PlainLoad _ => false
  | PlainStore k _ | AtomicStore k _ => (k =? i)%nat
  end.

(** The cell an access touches. *)
Definition cell_of (a : Access) : nat :=
  match a with
  | PlainLoad k | PlainStore k _ | AtomicStore k _ => k
  end.

(** The ways several threads' accesses can fall into one order. *)
Inductive Interleaving : list (list Access) -> list Access -> Prop :=
| Interleaving_done threads :
    Forall (fun t => t = []) threads -> Interleaving threads []
| Interleaving_next before a rest after trace :
    Interleaving (before ++ rest :: after) trace ->
    Interleaving (before ++ (a :: rest) :: after) (a :: trace).

End SharedMemory.

(** ** workers/cpu-worker.js *)

Module CpuWorker.
Import SharedMemory.

(** What a worker thread holds and leaves behind: the shared buffer, the
    accesses it has made to it, and its source of [Math.random()] values
    with the number of values drawn. *)
Record Thread := {
  memory : Int32Array;
  accesses : list Access;
  entropy : nat -> Q;
  draws : nat
}.

(** Code of the worker: it may throw, and it changes the thread either way. *)
Definition Run (A : Type) : Type := Thread -> Completion A * Thread.

Definition ret {A} (a : A) : Run A := fun th => (Return a, th).

Definition throw {A} (message : string) : Run A := fun th => (Throw message, th).

Definition seq_run {A B} (c : Run A) (k : A -> Run B) : Run B :=
  fun th =>
    match c th with
    | (Return a, th') => k a th'
    | (Throw m, th') => (Throw m, th')
    end.

Declare Scope run_scope.
Delimit Scope run_scope with run.
Notation "x <- c ;; k" := (seq_run c (fun x => k))
  (at level 100, c at next level, right associativity) : run_scope.
Notation "c ;; k" := (seq_run c (fun _ => k))
  (at level 100, right associativity) : run_scope.
Open Scope run_scope.

Definition log (a : Access) (th : Thread) : Thread :=
  {| memory := perform a (memory th); accesses := accesses th ++ [a];
     entropy := entropy th; draws := draws th |}.

(** [sharedArray[i] = f(sharedArray[i])], reading the cell [reads] times.
    Outside the array the read is [undefined] and the write is dropped:
    no cell is touched. *)
Definition update (reads : nat) (f : Z -> Z) (i : nat) : Run unit :=
  fun th =>
    match nth_error (memory th) i with
    | Some x =>
        (Return tt,
         log (PlainStore i (f x)) (fold_left (fun t _ => log (PlainLoad i) t) (seq 0 reads) th))
    | None => (Return tt, th)
    end.

(** The accesses [update reads f i] makes on a buffer that holds [cells]. *)
Definition update_accesses (reads : nat) (f : Z -> Z) (cells : Int32Array) (i : nat)
  : list Access :=
  match nth_error cells i with
  | Some x => repeat (PlainLoad i) reads ++ [PlainStore i (f x)]
  | None => []
  end.

(** [Atomics.store(sharedArray, index, value)]; throws a RangeError when
    the index is not one of the array. *)
Definition Atomics_store (index value : Z) : Run unit :=
  fun th =>
    if ((0 <=? index)%Z && (index <? Z.of_nat (length (memory th)))%Z)%bool then
      (Return tt, log (AtomicStore (Z.to_nat index) (ToInt32 value)) th)
    else (Throw "Invalid atomic access index", th).

(** [Math.random()]. *)
Definition Math_random : Run Q :=
  fun th =>
    (Return (entropy th (draws th)),
     {| memory := memory th; accesses := accesses th; entropy := entropy th;
        draws := S (draws th) |}).

(** [sharedArray.length]. *)
Definition array_length : Run nat := fun th => (Return (length (memory th)), th).

(** [for (let i = lo; i < lo + n; i++) { body(i); count++ }], giving the
    new count. *)
Fixpoint counting_loop (body : nat -> Run unit) (lo n count : nat) : Run nat :=
  match n with
  | O => ret count
  | S n' => body lo ;; counting_loop body (S lo) n' (S count)
  end.

Section WithNumbers.
Context {number : Type} `{JSNumber number}.

(** [performCPUIntensiveWork(iterations)]. *)
Definition performCPUIntensiveWork (iterations : N) : number :=
  for_range (fun i result =>
               add result (add (add (sqrt (of_N i)) (sin (of_N i))) (cos (of_N i))))
            0 iterations (of_N 0).

(** [processSharedMemory(sharedArray, startIndex, endIndex, operation)]. *)
Definition processSharedMemory (startIndex endIndex : nat) (operation : string)
  : Run nat :=
  let span := (endIndex - startIndex)%nat in
  if String.eqb operation "square" then
    counting_loop (update 2 (fun x => ToInt32 (round_double (x * x)))) startIndex span 0
  else if String.eqb operation "sqrt" then
    counting_loop (update 1 (fun x => if (x <? 0)%Z then 0%Z else Z.sqrt x)) startIndex span 0
  else if String.eqb operation "increment" then
    counting_loop (update 1 (fun x => ToInt32 (x + 1))) startIndex span 0
  else throw ("Unknown operation: " ++ operation).

(** [updateSharedMemory(sharedArray, updateCount, workerId)]. *)
Definition updateSharedMemory (updateCount workerId : nat) : Run nat :=
  counting_loop
    (fun _ =>
       r1 <- Math_random ;;
       len <- array_length ;;
       let randomIndex := Qfloor (r1 * inject_Z (Z.of_nat len)) in
       r2 <- Math_random ;;
       let randomValue := Qfloor (r2 * 1000) in
       Atomics_store randomIndex randomValue)
    0 updateCount 0.

(** [workerData]; a field the parent leaves out is not read by the branch
    the parent selects. *)
Record WorkerData := {
  type : string;
  iterations : N;
  workerId : nat;
  startIndex : nat;
  endIndex : nat;
  operation : string;
  updateCount : nat
}.

(** The [switch (type)] of the worker's entry. *)
Definition dispatch (data : WorkerData) : Run number :=
  if String.eqb (type data) "cpu-intensive" then
    ret (performCPUIntensiveWork (iterations data))
  else if String.eqb (type data) "shared-memory-process" then
    n <- processSharedMemory (startIndex data) (endIndex data) (operation data) ;;
    ret (of_N (N.of_nat n))
  else if String.eqb (type data) "shared-memory-update" then
    n <- updateSharedMemory (updateCount data) (workerId data) ;;
    ret (of_N (N.of_nat n))
  else throw ("Unknown task type: " ++ type data).

(** The worker's entry: [try { ...; parentPort.postMessage(result) }
    catch (error) { parentPort.postMessage({ error: error.message }) }]. *)
Definition main (data : WorkerData) (th : Thread) : Posted number * Thread :=
  match dispatch data th with
  | (Return result, th') => (PostMessage (Value result), th')
  | (Throw message, th') => (PostMessage (ErrorObject message), th')
  end.

End WithNumbers.

(** Code that touches the shared buffer through [Atomics.store] only. *)
Definition atomic_only {A} (c : Run A) : Prop :=
  forall th, exists new,
    accesses (snd (c th)) = accesses th ++ new /\
    Forall (fun a => is_atomic a = true) new.

(** Two threads that differ at most in the contents of the buffer and in
    what they have done so far. *)
Definition alike (th1 th2 : Thread) : Prop :=
  length (memory th1) = length (memory th2) /\
  entropy th1 = entropy th2 /\
  draws th1 = draws th2.

(** Code whose outcome and accesses do not depend on the contents of the
    buffer. *)
Definition oblivious {A} (c : Run A) : Prop :=
  forall th1 th2, alike th1 th2 ->
    fst (c th1) = fst (c th2) /\
    alike (snd (c th1)) (snd (c th2)) /\
    exists new,
      accesses (snd (c th1)) = accesses th1 ++ new /\
      accesses (snd (c th2)) = accesses th2 ++ new.

Close Scope run_scope.

End CpuWorker.

(** ** workers/pool-worker.js *)

Module PoolWorker.

(** A task as [workerPoolTask] builds it. *)
Record Task := {
  id : nat;
  complexity : N;
  type : string
}.

(** What the parent posts to a pool worker: [{ type, task }]. *)
Record ParentMessage := {
  message_type : string;
  task : Task
}.

Section WithNumbers.
Context {number : Type} `{JSNumber number}.

(** [performCPUIntensiveWork(complexity)]; [random k] is the value of the
    [k]-th call of [Math.random()] during this run. *)
Definition performCPUIntensiveWork (random : nat -> number) (complexity : N) : number :=
  fst (for_range
         (fun i s =>
            let result :=
              add (fst s) (add (add (sqrt (of_N i)) (sin (of_N i))) (cos (of_N i))) in
            if (i mod 100000 =? 0)%N
            then (add result (random (snd s)), S (snd s))
            else (result, snd s))
         0 complexity (of_N 0, 0%nat)).

(** [processTask(task)]. *)
Definition processTask (random : nat -> number) (t : Task) : Completion number :=
  if String.eqb (type t) "cpu-intensive" then
    Return (performCPUIntensiveWork random (complexity t))
  else Throw ("Unknown task type: " ++ type t).

(** The listener [parentPort.on('message', async message => ...)]:
    [None] when the message is not a task and nothing is posted. *)
Definition onMessage (random : nat -> number) (message : ParentMessage)
  : option (Posted number) :=
  if String.eqb (message_type message) "task" then
    match processTask random (task message) with
    | Return result => Some (PostMessage (Value result))
    | Throw error => Some (PostMessage (ErrorObject error))
    end
  else None.

End WithNumbers.

End PoolWorker.

(** ** core/worker-thread-manager.js *)

Module WorkerThreadManager.
Import SharedMemory.

(** *** parallelProcessing *)

(** [Math.floor(bufferSize / workerCount)]. *)
Definition chunkSize (bufferSize workerCount : nat) : nat :=
  (bufferSize / workerCount)%nat.

Definition startIndex (bufferSize workerCount i : nat) : nat :=
  (i * chunkSize bufferSize workerCount)%nat.

Definition endIndex (bufferSize workerCount i : nat) : nat :=
  if (i =? workerCount - 1)%nat then bufferSize
  else ((i + 1) * chunkSize bufferSize workerCount)%nat.

(** The [workerData] the loop [for (let i = 0; i < workerCount; i++)]
    hands to [runInWorker], in order. *)
Definition assignments (bufferSize workerCount : nat) : list CpuWorker.WorkerData :=
  map (fun i =>
         {| CpuWorker.type := "shared-memory-process";
            CpuWorker.iterations := 0;
            CpuWorker.workerId := 0;
            CpuWorker.startIndex := startIndex bufferSize workerCount i;
            CpuWorker.endIndex := endIndex bufferSize workerCount i;
            CpuWorker.operation := "square";
            CpuWorker.updateCount := 0 |})
      (seq 0 workerCount).

(** [const workerCount = 4] in [parallelProcessing]. *)
Definition workerCount : nat := 4.

Definition parallelProcessing (bufferSize : nat) : list CpuWorker.WorkerData :=
  assignments bufferSize workerCount.

(** The index range of an assignment, and whether it holds [k]. *)
Definition range (data : CpuWorker.WorkerData) : nat * nat :=
  (CpuWorker.startIndex data, CpuWorker.endIndex data).

Definition covers (k : nat) (r : nat * nat) : bool :=
  ((fst r <=? k) && (k <? snd r))%nat.

(** How many of the assigned ranges hold the index [k]. *)
Definition coverage (bufferSize workerCount k : nat) : nat :=
  length (filter (covers k) (map range (assignments bufferSize workerCount))).

(** The buffer as [sharedMemoryDemo] fills it before it calls
    [parallelProcessing]: [sharedArray[i] = i] for [i < bufferSize]. *)
Definition sharedMemoryDemo (bufferSize : nat) : Int32Array :=
  map (fun i => ToInt32 (Z.of_nat i)) (seq 0 bufferSize).

(** The check that closes [parallelProcessing]:
    [for (let i = 0; i < Math.min(100, bufferSize); i++) sum += sharedArray[i]].
    [None] is the NaN a read outside the array leads to. *)
Definition verification_sum (bufferSize : nat) (cells : Int32Array) : option Z :=
  fold_left (fun sum i =>
               match sum, nth_error cells i with
               | Some s, Some x => Some (s + x)%Z
               | _, _ => None
               end)
            (seq 0 (Nat.min 100 bufferSize)) (Some 0%Z).

(** [Array.from({ length: 100 }, (_, i) => i * i).reduce((a, b) => a + b, 0)]. *)
Definition expectedSum : Z :=
  fold_left Z.add (map (fun i => (Z.of_nat i * Z.of_nat i)%Z) (seq 0 100)) 0%Z.

(** [sum === expectedSum]: whether "Processing successful" is printed. *)
Definition verified (bufferSize : nat) (cells : Int32Array) : bool :=
  match verification_sum bufferSize cells with
  | Some sum => (sum =? expectedSum)%Z
  | None => false
  end.

(** *** concurrentUpdates *)

(** The [workerData] of the four workers of [concurrentUpdates]. *)
Definition concurrentUpdates : list CpuWorker.WorkerData :=
  map (fun i =>
         {| CpuWorker.type := "shared-memory-update";
            CpuWorker.iterations := 0;
            CpuWorker.workerId := i;
            CpuWorker.startIndex := 0;
            CpuWorker.endIndex := 0;
            CpuWorker.operation := EmptyString;
            CpuWorker.updateCount := N.to_nat (100000 / 4) |})
      (seq 0 4).

(** The sample the parent prints once all workers have answered:
    [sharedArray[i]] for [i < 10]. *)
Definition sample_loads : list Access := map PlainLoad (seq 0 10).

(** The accesses a worker makes when it starts on the buffer [cells] with
    the random source [entropy]. *)
Definition worker_accesses {number : Type} `{JSNumber number}
    (cells : Int32Array) (entropy : nat -> Q) (data : CpuWorker.WorkerData)
  : list Access :=
  CpuWorker.accesses
    (snd (CpuWorker.main (number:=number) data
            {| CpuWorker.memory := cells; CpuWorker.accesses := [];
               CpuWorker.entropy := entropy; CpuWorker.draws := 0 |})).

(** *** The worker pool *)

Import PoolWorker.

(** A worker as its parent knows it: the task messages posted to it and
    not answered yet, oldest first, and the one-shot ['message'] listeners
    installed on it, each with the task it closes over. *)
Record Worker := {
  inbox : list ParentMessage;
  listeners : list Task
}.

(** An entry of [this.workerPool]. *)
Record PoolEntry := {
  worker : Worker;
  busy : bool;
  worker_id : nat
}.

(** A pool entry as [initializeWorkerPool] pushes it. *)
Definition idle (i : nat) : PoolEntry :=
  {| worker := {| inbox := []; listeners := [] |}; busy := false; worker_id := i |}.

(** [initializeWorkerPool(size)] on an empty pool. *)
Definition initializeWorkerPool (size : nat) : list PoolEntry :=
  map idle (seq 0 size).

(** The first pool entry while it works on [t]. *)
Definition engaged (t : Task) : PoolEntry :=
  {| worker := {| inbox := [{| message_type := "task"; task := t |}];
                  listeners := [t] |};
     busy := true; worker_id := 0 |}.

Inductive Promise := Pending | Resolved | Rejected.

Section WithNumbers.
Context {number : Type} `{JSNumber number}.

(** The state [processTasksWithPool] works on: the pool, the two arrays
    of its closure, the [setTimeout(processNextTask, 10)] calls that have
    not run yet, and the promise it returned. A resolved promise holds the
    array [results] itself. *)
Record Scheduler := {
  workerPool : list PoolEntry;
  results : list (option (Message number));
  pendingTasks : list Task;
  timers : nat;
  promise : Promise
}.

(** The array indices of JavaScript: the integers from 0 to 2^32 - 2.
    With any other key [array[key] = v] sets an ordinary property and
    leaves the elements and [length] as they are. *)
Definition array_index (i : nat) : Prop := (Z.of_nat i < 2 ^ 32 - 1)%Z.

(** [array[i] = v] for an array index [i], on an array with holes
    ([None]): writing past the end extends it. *)
Fixpoint array_set {A} (i : nat) (v : A) (array : list (option A)) : list (option A) :=
  match i, array with
  | O, [] => [Some v]
  | O, _ :: r => Some v :: r
  | S i, [] => None :: array_set i v []
  | S i, x :: r => x :: array_set i v r
  end.

(** [array[i]]: [None] is [undefined], read from a hole as from an index
    past the end. *)
Definition array_get {A} (i : nat) (array : list (option A)) : option A :=
  match nth_error array i with
  | Some (Some v) => Some v
  | _ => None
  end.

(** [this.workerPool.find(w => !w.busy)], as the position found. *)
Fixpoint find_idle (pool : list PoolEntry) : option nat :=
  match pool with
  | [] => None
  | e :: r => if busy e then option_map S (find_idle r) else Some O
  end.

Fixpoint update_nth {A} (k : nat) (f : A -> A) (xs : list A) : list A :=
  match k, xs with
  | _, [] => []
  | O, x :: r => f x :: r
  | S k, x :: r => x :: update_nth k f r
  end.

Definition set_busy (b : bool) (e : PoolEntry) : PoolEntry :=
  {| worker := worker e; busy := b; worker_id := worker_id e |}.

(** [w.worker.postMessage({ type: 'task', task })] and
    [w.worker.once('message', result => ...)] for the task. *)
Definition send (t : Task) (e : PoolEntry) : PoolEntry :=
  {| worker := {| inbox := inbox (worker e) ++ [{| message_type := "task"; task := t |}];
                  listeners := listeners (worker e) ++ [t] |};
     busy := busy e; worker_id := worker_id e |}.

(** [resolve(results)]: settles the promise unless it is settled. *)
Definition resolve (s : Scheduler) : Scheduler :=
  {| workerPool := workerPool s; results := results s;
     pendingTasks := pendingTasks s; timers := timers s;
     promise := match promise s with Pending => Resolved | p => p end |}.

(** [processNextTask()]. *)
Definition processNextTask (s : Scheduler) : Scheduler :=
  match pendingTasks s with
  | [] => resolve s
  | t :: rest =>
      match find_idle (workerPool s) with
      | None =>
          {| workerPool := workerPool s; results := results s;
             pendingTasks := pendingTasks s; timers := S (timers s);
             promise := promise s |}
      | Some k =>
          {| workerPool := update_nth k (fun e => send t (set_busy true e)) (workerPool s);
             results := results s;
             pendingTasks := rest;
             timers := timers s;
             promise := promise s |}
      end
  end.

(** The one-shot listener installed for [t] on the worker at position [k],
    called with the worker's message. *)
Definition listener (k : nat) (t : Task) (result : Message number) (s : Scheduler)
  : Scheduler :=
  processNextTask
    {| workerPool := update_nth k (set_busy false) (workerPool s);
       results := array_set (id t) result (results s);
       pendingTasks := pendingTasks s;
       timers := timers s;
       promise := promise s |}.

(** [processTasksWithPool(tasks)] up to the point where it returns its
    promise. *)
Definition processTasksWithPool (tasks : list Task) (pool : list PoolEntry)
  : Scheduler :=
  processNextTask
    {| workerPool := pool;
       results := repeat None (length tasks);
       pendingTasks := tasks;
       timers := 0;
       promise := Pending |}.

(** What happens next: the worker at position [k] answers its oldest
    message, having drawn its random numbers from [random]; or a poll
    timer runs. *)
Inductive Event :=
| Answer (k : nat) (random : nat -> number)
| PollTimer.

Definition take_message (e : PoolEntry) : PoolEntry :=
  {| worker := {| inbox := tl (inbox (worker e)); listeners := listeners (worker e) |};
     busy := busy e; worker_id := worker_id e |}.

Definition clear_listeners (e : PoolEntry) : PoolEntry :=
  {| worker := {| inbox := inbox (worker e); listeners := [] |};
     busy := busy e; worker_id := worker_id e |}.

Definition with_pool (pool : list PoolEntry) (s : Scheduler) : Scheduler :=
  {| workerPool := pool; results := results s; pendingTasks := pendingTasks s;
     timers := timers s; promise := promise s |}.

(** One turn of the parent's event loop, with what the worker posted for
    which task. A ['message'] event runs the one-shot listeners installed
    on that worker at that moment, in order, and removes them. An exception
    escaping a worker finds no ['error'] listener; the model stops there. *)
Definition step (s : Scheduler) (e : Event)
  : option (Scheduler * list (Task * Message number)) :=
  match e with
  | Answer k random =>
      match nth_error (workerPool s) k with
      | Some entry =>
          match inbox (worker entry) with
          | message :: _ =>
              let s1 := with_pool (update_nth k take_message (workerPool s)) s in
              match onMessage random message with
              | Some (PostMessage m) =>
                  let s2 := with_pool (update_nth k clear_listeners (workerPool s1)) s1 in
                  Some (fold_left (fun s t => listener k t m s)
                                  (listeners (worker entry)) s2,
                        [(task message, m)])
              | Some (ErrorEvent _) => None
              | None => Some (s1, [])
              end
          | [] => None
          end
      | None => None
      end
  | PollTimer =>
      match timers s with
      | O => None
      | S n =>
          Some (processNextTask
                  {| workerPool := workerPool s; results := results s;
                     pendingTasks := pendingTasks s; timers := n;
                     promise := promise s |},
                [])
      end
  end.

Fixpoint run (s : Scheduler) (es : list Event)
  : option (Scheduler * list (Task * Message number)) :=
  match es with
  | [] => Some (s, [])
  | e :: es' =>
      match step s e with
      | Some (s', posted) =>
          match run s' es' with
          | Some (s'', posted') => Some (s'', posted ++ posted')
          | None => None
          end
      | None => None
      end
  end.

(** The states a call of [processTasksWithPool tasks] on a fresh pool of
    [size] workers goes through, [answered] being the tasks answered so
    far: one task is out at the first worker; or all are answered and the
    promise is resolved; or the pool is empty and the call polls. *)
Inductive Phase (tasks : list Task) (size : nat) (answered : list Task)
    (s : Scheduler) : Prop :=
| Phase_working t p :
    size = S p ->
    tasks = answered ++ t :: pendingTasks s ->
    workerPool s = engaged t :: map idle (seq 1 p) ->
    timers s = 0%nat ->
    promise s = Pending ->
    Phase tasks size answered s
| Phase_resolved :
    tasks = answered ->
    pendingTasks s = [] ->
    workerPool s = initializeWorkerPool size ->
    timers s = 0%nat ->
    promise s = Resolved ->
    Phase tasks size answered s
| Phase_polling :
    size = 0%nat ->
    answered = [] ->
    tasks <> [] ->
    pendingTasks s = tasks ->
    workerPool s = [] ->
    timers s = 1%nat ->
    promise s = Pending ->
    Phase tasks size answered s.

(** [posted] is what the workers have posted so far, for which task. *)
Definition Scheduled (tasks : list Task) (size : nat) (s : Scheduler)
    (posted : list (Task * Message number)) : Prop :=
  Phase tasks size (map fst posted) s /\
  length (results s) = length tasks /\
  forall t m, In (t, m) posted ->
    nth_error (results s) (id t) = Some (Some m) /\
    exists random,
      onMessage random {| message_type := "task"; task := t |} = Some (PostMessage m).

(** *** workerPoolTask *)

(** [const taskCount = 20]. *)
Definition taskCount : nat := 20.

(** [Math.min(4, cpus().length)]. *)
Definition poolSize (cpus : nat) : nat := Nat.min 4 cpus.

(** The tasks the loop [for (let i = 0; i < taskCount; i++)] pushes. *)
Definition workerPoolTask_tasks : list Task :=
  map (fun i => {| id := i;
                   complexity := 1000000 + N.of_nat i * 500000;
                   type := "cpu-intensive" |})
      (seq 0 taskCount).

(** [results.forEach((result, i) => { const task = tasks[i]; ... })] from
    index [i] on: the line shown for each result is kept as the task id and
    the number [toFixed] is called on. [forEach] skips the holes of the
    array; an error object has no [toFixed], and an index without a task
    has no [id]: both throw a TypeError. *)
Fixpoint show_results (tasks : list Task) (i : nat)
    (results : list (option (Message number))) : Completion (list (nat * number)) :=
  match results with
  | [] => Return []
  | None :: rest => show_results tasks (S i) rest
  | Some result :: rest =>
      match nth_error tasks i with
      | None => Throw "Cannot read properties of undefined (reading 'id')"
      | Some task =>
          match result with
          | ErrorObject _ => Throw "result.toFixed is not a function"
          | Value x =>
              match show_results tasks (S i) rest with
              | Return lines => Return ((id task, x) :: lines)
              | Throw message => Throw message
              end
          end
      end
  end.

(** *** multipleWorkersTask *)

(** [const totalIterations = 100000000]. *)
Definition totalIterations : N := 100000000.

(** [Math.floor(totalIterations / workerCount)], with [workerCount = 4]. *)
Definition iterationsPerWorker : N := totalIterations / N.of_nat workerCount.

(** The [workerData] the loop [for (let i = 0; i < workerCount; i++)] hands
    to [runInWorker]. *)
Definition multipleWorkersTask : list CpuWorker.WorkerData :=
  map (fun i =>
         {| CpuWorker.type := "cpu-intensive";
            CpuWorker.iterations := iterationsPerWorker;
            CpuWorker.workerId := i;
            CpuWorker.startIndex := 0;
            CpuWorker.endIndex := 0;
            CpuWorker.operation := EmptyString;
            CpuWorker.updateCount := 0 |})
      (seq 0 workerCount).

(** [results.reduce((sum, result) => sum + result, 0)]. *)
Definition totalResult (answers : list number) : number :=
  fold_left add answers (of_N 0).

(** The loop [multipleWorkersTask] runs on the main thread for comparison:
    [for (let i = 0; i < totalIterations; i++)
       singleResult += Math.sqrt(i) + Math.sin(i) + Math.cos(i)]. *)
Definition singleResult : number :=
  for_range (fun i result =>
               add result (add (add (sqrt (of_N i)) (sin (of_N i))) (cos (of_N i))))
            0 totalIterations (of_N 0).

End WithNumbers.

End WorkerThreadManager.

(** ** core/event-loop-monitor.js *)

Module EventLoopMonitor.

(** *** The monitor object and its timers *)

(** [this.monitoring], [this.startTime], [this.lastCheck], [this.lagHistory]. *)
Record Monitor := {
  monitoring : bool;
  startTime : Q;
  lastCheck : Q;
  lagHistory : list Q
}.

(** [constructor(rl)]. *)
Definition constructor : Monitor :=
  {| monitoring := false; startTime := 0; lastCheck := 0; lagHistory := [] |}.

(** The callbacks the monitor hands to [setTimeout], [setInterval] and
    [setImmediate]. *)
Inductive Callback :=
| MonitorTick       (* () => this.monitorEventLoop()                 *)
| AutoStop          (* the 30000 ms callback of waitForStop          *)
| NextTickInterval  (* setInterval(() => process.nextTick(..), 2000) *)
| MicrotaskInterval (* setInterval(() => Promise.resolve()..., 2000) *)
| ImmediateOuter    (* setImmediate(() => setImmediate(..))          *)
| ImmediateInner.   (* the nested setImmediate callback              *)

Definition Callback_eqb (a b : Callback) : bool :=
  match a, b with
  | MonitorTick, MonitorTick | AutoStop, AutoStop
  | NextTickInterval, NextTickInterval | MicrotaskInterval, MicrotaskInterval
  | ImmediateOuter, ImmediateOuter | ImmediateInner, ImmediateInner => true
  | _, _ => false
  end.

(** A pending timer: armed to expire at [due]; an interval re-arms itself
    every [period] ms until cleared. *)
Record Timer := {
  due : Q;
  callback : Callback;
  period : option Q
}.

(** What the monitor writes with [console.log]; number formatting
    ([toFixed]) and colours are left out. [None] in [minLag]/[maxLag]
    stands for the infinities [Math.min()]/[Math.max()] give on no
    arguments. *)
Inductive Output :=
| StartBanner
| LagLine (actualLag avgLag : Q) (minLag maxLag : option Q) (uptime : Q)
| AutoStopNotice
| StoppedNotice.

(** The monitor together with the part of the event loop it uses. *)
Record Runtime := {
  self : Monitor;
  timers : list Timer;
  stdout : list Output;
  clock : Q;          (* time of the last callback run *)
  returned : bool     (* startMonitoring's promise has settled *)
}.

Definition boot : Runtime :=
  {| self := constructor; timers := []; stdout := []; clock := 0; returned := false |}.

Definition setTimeout (cb : Callback) (delay now : Q) (ts : list Timer) : list Timer :=
  ts ++ [{| due := now + delay; callback := cb; period := None |}].

Definition setInterval (cb : Callback) (delay now : Q) (ts : list Timer) : list Timer :=
  ts ++ [{| due := now + delay; callback := cb; period := Some delay |}].

Definition setImmediate (cb : Callback) (now : Q) (ts : list Timer) : list Timer :=
  ts ++ [{| due := now; callback := cb; period := None |}].

(** [xs.reduce((a, b) => a + b, 0)]. *)
Definition sum (xs : list Q) : Q := fold_left Qplus xs 0.

(** [Math.max(...xs)] and [Math.min(...xs)]. *)
Definition Math_max (xs : list Q) : option Q :=
  match xs with
  | [] => None
  | x :: r => Some (fold_left Qmax r x)
  end.

Definition Math_min (xs : list Q) : option Q :=
  match xs with
  | [] => None
  | x :: r => Some (fold_left Qmin r x)
  end.

(** [xs.push(x); if (xs.length > 100) xs.shift();] *)
Definition push_bounded (xs : list Q) (x : Q) : list Q :=
  let pushed := xs ++ [x] in
  if (100 <? length pushed)%nat then tl pushed else pushed.

(** [monitorEventLoop()], with [now] the value [performance.now()]
    returns inside it. *)
Definition monitorEventLoop (now : Q) (rt : Runtime) : Runtime :=
  let m := self rt in
  if negb (monitoring m) then rt
  else
    let expectedTime := lastCheck m + 16 in
    let actualLag := now - expectedTime in
    let history := push_bounded (lagHistory m) actualLag in
    let avgLag := sum history / inject_Z (Z.of_nat (length history)) in
    let maxLag := Math_max history in
    let minLag := Math_min history in
    {| self := {| monitoring := monitoring m;
                  startTime := startTime m;
                  lastCheck := now;
                  lagHistory := history |};
       timers := setTimeout MonitorTick 1000 now (timers rt);
       stdout := stdout rt ++
                 [LagLine actualLag avgLag minLag maxLag ((now - startTime m) / 1000)];
       clock := clock rt;
       returned := returned rt |}.

(** [startBackgroundTasks()]. *)
Definition startBackgroundTasks (now : Q) (rt : Runtime) : Runtime :=
  {| self := self rt;
     timers := setInterval MicrotaskInterval 2000 now
                 (setImmediate ImmediateOuter now
                    (setInterval NextTickInterval 2000 now (timers rt)));
     stdout := stdout rt;
     clock := clock rt;
     returned := returned rt |}.

(** [waitForStop()] up to the point where it returns its promise: it arms
    the 30000 ms timer and registers nothing else (no input listener, no
    signal handler). *)
Definition waitForStop (now : Q) (rt : Runtime) : Runtime :=
  {| self := self rt;
     timers := setTimeout AutoStop 30000 now (timers rt);
     stdout := stdout rt;
     clock := clock rt;
     returned := returned rt |}.

(** [startMonitoring()] up to its [await]. [start] is the reading of
    [performance.now()] that becomes [startTime], [now] the later one taken
    inside the first, synchronous call of [monitorEventLoop]. The history
    of an earlier session is not reset. *)
Definition startMonitoring (start now : Q) (rt : Runtime) : Runtime :=
  let m := self rt in
  let rt1 :=
    {| self := {| monitoring := true; startTime := start; lastCheck := start;
                  lagHistory := lagHistory m |};
       timers := timers rt;
       stdout := stdout rt ++ [StartBanner];
       clock := now;
       returned := false |} in
  waitForStop now (startBackgroundTasks now (monitorEventLoop now rt1)).

(** The 30000 ms callback of [waitForStop], followed by what
    [startMonitoring] does once its [await] resumes. When [monitoring] is
    already false the promise is left pending. *)
Definition autoStop (rt : Runtime) : Runtime :=
  let m := self rt in
  if monitoring m then
    {| self := {| monitoring := false; startTime := startTime m;
                  lastCheck := lastCheck m; lagHistory := lagHistory m |};
       timers := timers rt;
       stdout := stdout rt ++ [AutoStopNotice; StoppedNotice];
       clock := clock rt;
       returned := true |}
  else rt.

Definition runCallback (cb : Callback) (now : Q) (rt : Runtime) : Runtime :=
  match cb with
  | MonitorTick => monitorEventLoop now rt
  | AutoStop => autoStop rt
  | ImmediateOuter =>
      {| self := self rt; timers := setImmediate ImmediateInner now (timers rt);
         stdout := stdout rt; clock := clock rt; returned := returned rt |}
  | NextTickInterval | MicrotaskInterval | ImmediateInner => rt
  end.

(** What reaches the process while [startMonitoring] is suspended. *)
Inductive Event :=
| Fire (index : nat) (now : Q)    (* the event loop runs a pending timer *)
| Line (text : string) (now : Q). (* the user types a line              *)

Fixpoint remove_nth {A} (i : nat) (xs : list A) : list A :=
  match i, xs with
  | _, [] => []
  | O, _ :: r => r
  | S i, x :: r => x :: remove_nth i r
  end.

Fixpoint replace_nth {A} (i : nat) (y : A) (xs : list A) : list A :=
  match i, xs with
  | _, [] => []
  | O, _ :: r => y :: r
  | S i, x :: r => x :: replace_nth i y r
  end.

Definition set_clock (now : Q) (ts : list Timer) (rt : Runtime) : Runtime :=
  {| self := self rt; timers := ts; stdout := stdout rt; clock := now;
     returned := returned rt |}.

(** The timer list once its [i]-th timer [t] has been taken to run at
    [now]: a one-shot timer is dropped, an interval is re-armed. *)
Definition taken (i : nat) (t : Timer) (now : Q) (ts : list Timer) : list Timer :=
  match period t with
  | None => remove_nth i ts
  | Some p => replace_nth i {| due := now + p; callback := callback t;
                               period := Some p |} ts
  end.

(** One turn of the event loop: it runs one of the pending timers, or a
    line arrives. Which timer runs, and when, is the event's choice: the
    event loop arms and expires timers on its own millisecond clock, not on
    the one [performance.now()] reads, so a timer can run before [now] has
    reached [due] and the two are not compared; only time never goes back.
    A typed line finds no handler of the monitor: [startMonitoring] and
    [waitForStop] install none. *)
Definition step (rt : Runtime) (e : Event) : option Runtime :=
  match e with
  | Fire i now =>
      match nth_error (timers rt) i with
      | Some t =>
          if Qle_bool (clock rt) now then
            Some (runCallback (callback t) now
                    (set_clock now (taken i t now (timers rt)) rt))
          else None
      | None => None
      end
  | Line _ now =>
      if Qle_bool (clock rt) now then Some (set_clock now (timers rt) rt) else None
  end.

Fixpoint run (rt : Runtime) (es : list Event) : option Runtime :=
  match es with
  | [] => Some rt
  | e :: es' =>
      match step rt e with
      | Some rt' => run rt' es'
      | None => None
      end
  end.

(** [ticks nows rt]: [monitorEventLoop] called once at each of [nows]. *)
Definition ticks (nows : list Q) (rt : Runtime) : Runtime :=
  fold_left (fun r now => monitorEventLoop now r) nows rt.

(** The lag each of those calls computes, in order. *)
Fixpoint lags (last : Q) (nows : list Q) : list Q :=
  match nows with
  | [] => []
  | now :: r => (now - (last + 16)) :: lags now r
  end.

(** How many pending timers run the callback [cb]. *)
Definition count (cb : Callback) (ts : list Timer) : nat :=
  length (filter (fun t => Callback_eqb (callback t) cb) ts).
Arguments count : simpl never.

Definition pending (cb : Callback) (rt : Runtime) : nat :=
  count cb (timers rt).

(** *** infiniteLoop *)

Module InfiniteLoop.





Definition lower (c : ascii) : ascii :=
  let n := nat_of_ascii c in
  if (65 <=? n)%nat && (n <=? 90)%nat then ascii_of_nat (n + 32) else c.




(** Bound of the inner [for] loop. *)
Definition chunkIterations : N := 1000000.

(** The phase of the event loop in which the body of [infiniteLoop] runs:
    the poll phase at first, inside the readline callback that delivers
    the answer to "Are you sure?"; the check phase, inside the callback of
    [setImmediate], once the first [await] has resumed. *)
Inductive LoopPhase := PollPhase | CheckPhase.

Section WithNumbers.
Context {number : Type} `{JSNumber number}.

(** The locals of [infiniteLoop] once the user has confirmed, and the part
    of the event loop they depend on. [inner] counts the executions of the
    inner loop body; the program does not hold it. *)
Record Locals := {
  startTime : Q;
  shouldStop : bool;
  iterations : number;
  autoExitTimer : option Q;  (* what the timer is armed for, while pending *)
  asking : bool;             (* a question of checkUserInput is pending *)
  clock : Q;
  inner : N;
  phase : LoopPhase
}.




(** [for (let i = 0; i < 1000000; i++) { iterations += Math.sqrt(i); }],
    which takes [elapsed] ms. *)
Definition work (elapsed : Q) (l : Locals) : Locals :=
  let r := for_range (fun i s => (add (fst s) (sqrt (of_N i)), (snd s + 1)%N))
                     0 chunkIterations (iterations l, inner l) in
  {| startTime := startTime l; shouldStop := shouldStop l; iterations := fst r;
     autoExitTimer := autoExitTimer l; asking := asking l;
     clock := clock l + elapsed; inner := snd r; phase := phase l |}.








(** From [clearTimeout(autoExitTimer)] on: the duration that is printed. *)
Definition finish (l : Locals) : Locals * Q :=
  ({| startTime := startTime l; shouldStop := shouldStop l;
      iterations := iterations l; autoExitTimer := None; asking := asking l;
      clock := clock l; inner := inner l; phase := phase l |},
   clock l - startTime l).




End WithNumbers.










End InfiniteLoop.

(** *** asyncVsSync *)

Section AsyncVsSync.
Context {number : Type} `{JSNumber number}.

(** [let syncResult = 0; for (let i = 0; i < iterations; i++) syncResult += i;]
    The source fixes [iterations = 1000000]. *)
Definition syncResult (iterations : N) : number :=
  for_range (fun i acc => add acc (of_N i)) 0 iterations (of_N 0).

Definition chunkSize : N := 10000.

(** The body handed to [setImmediate] for the chunk that starts at [i]:
    [for (let j = i; j < Math.min(i + chunkSize, iterations); j++) asyncResult += j]. *)
Definition chunk (i iterations : N) (asyncResult : number) : number :=
  for_range (fun j acc => add acc (of_N j)) i (N.min (i + chunkSize) iterations)
            asyncResult.

(** [for (let i = 0; i < iterations; i += chunkSize) await new Promise(...)]:
    every chunk is awaited before the next one is queued, and
    [asyncResult] is local to the call, so the yields between chunks do
    not show in the value. *)
Equations? chunks (i iterations : N) (asyncResult : number) : number
  by wf (N.to_nat (iterations - i)) lt :=
  chunks i iterations asyncResult with sumbool_of_bool (N.ltb i iterations) => {
    | left Hlt := chunks (i + chunkSize) iterations (chunk i iterations asyncResult);
    | right Hge := asyncResult }.
Proof. apply N.ltb_lt in Hlt. unfold chunkSize. lia. Qed.

Definition asyncResult (iterations : N) : number :=
  chunks 0 iterations (of_N 0).

End AsyncVsSync.

(** The timers whose callback is [cb] are all one-shot, or all due at [d]. *)
Definition one_shot (cb : Callback) (ts : list Timer) : Prop :=
  forall t, In t ts -> callback t = cb -> period t = None.






(** The timers whose callback is [cb] are all intervals. *)
Definition intervals_only (cb : Callback) (ts : list Timer) : Prop :=
  forall t, In t ts -> callback t = cb -> period t <> None.

(** *** createLagBar *)

Inductive Colour := Green | Yellow | Red.

(** The characters of the bar: the full block and the light shade. *)
Inductive BarCell := FullBlock | LightShade.

(** [cell.repeat(count)]: a RangeError when [count] is negative (the
    message of the engine goes on to name the count). *)
Definition String_repeat (cell : BarCell) (count : Z) : Completion (list BarCell) :=
  if (count <? 0)%Z then Throw "Invalid count value"
  else Return (repeat cell (Z.to_nat count)).

Definition Qlt_bool (a b : Q) : bool := negb (Qle_bool b a).

Definition maxBarLength : Z := 40.

(** [createLagBar(lag)]: the colour and the bar; the text that follows
    the bar ([lag.toFixed(1)] and "ms") is left out. *)
Definition createLagBar (lag : Q) : Completion (Colour * list BarCell) :=
  let normalizedLag := Qmax 0 (Qmin (lag / 100) 1) in
  let barLength := Qfloor (normalizedLag * inject_Z maxBarLength) in
  let color :=
    if Qlt_bool lag 16 then Green
    else if Qlt_bool lag 50 then Yellow
    else Red in
  match String_repeat FullBlock barLength with
  | Throw message => Throw message
  | Return full =>
      match String_repeat LightShade (maxBarLength - barLength) with
      | Throw message => Throw message
      | Return light => Return (color, full ++ light)
      end
  end.

(** The callback an event runs, if it runs one. *)
Definition fires (rt : Runtime) (e : Event) : option Callback :=
  match e with
  | Fire i _ => option_map callback (nth_error (timers rt) i)
  | Line _ _ => None
  end.

End EventLoopMonitor.

(** ** core/memory-profiler.js: monitorUsage and what it shows *)

Module MemoryProfiler.

(** [process.memoryUsage()]: counts of bytes. *)
Record MemoryUsage := {
  rss : Z;
  heapTotal : Z;
  heapUsed : Z;
  external : Z;
  arrayBuffers : Z
}.

(** An entry of [this.memoryHistory]: [{ timestamp, ...memUsage }]. *)
Record Snapshot := {
  timestamp : Q;
  memUsage : MemoryUsage
}.

(** [this.monitoring] and [this.memoryHistory]; the methods modelled here
    do not use [this.leakTests]. *)
Record Profiler := {
  monitoring : bool;
  memoryHistory : list Snapshot
}.

(** [constructor(rl)]. *)
Definition constructor : Profiler :=
  {| monitoring := false; memoryHistory := [] |}.

(** [this.memoryHistory.slice(-10).map(s => s.heapUsed / (1024 * 1024))]. *)
Definition trend_values (history : list Snapshot) : list Q :=
  map (fun s => inject_Z (heapUsed (memUsage s)) / inject_Z (1024 * 1024))
      (window 10 history).

Definition chartHeight : nat := 8.

(** The line of the chart for [i]: a cell per value, [true] for the full
    block, which is printed when [values[j] >= threshold]. *)
Definition chart_row (minValue maxValue : Q) (values : list Q) (i : nat) : list bool :=
  let threshold :=
    minValue + (maxValue - minValue) *
               (inject_Z (Z.of_nat i) / inject_Z (Z.of_nat chartHeight)) in
  map (fun value => Qle_bool threshold value) values.

(** [showMemoryTrend()]: the lines of the chart from [i = chartHeight] down
    to 0, without their labels; [None] when it returns at once. *)
Definition showMemoryTrend (p : Profiler) : option (list (list bool)) :=
  if (length (memoryHistory p) <? 2)%nat then None
  else
    let values := trend_values (memoryHistory p) in
    match EventLoopMonitor.Math_max values, EventLoopMonitor.Math_min values with
    | Some maxValue, Some minValue =>
        Some (map (chart_row minValue maxValue values) (rev (seq 0 (S chartHeight))))
    | _, _ => Some (map (fun _ => []) (rev (seq 0 (S chartHeight))))
    end.

(** The callback of the interval of [monitorUsage], run when
    [process.memoryUsage()] gives [usage] and [Date.now()] gives [now];
    with the chart it shows, if it shows one. The text it prints besides
    and [showMemoryPressureIndicators] are left out. *)
Definition tick (usage : MemoryUsage) (now : Q) (p : Profiler)
  : Profiler * option (list (list bool)) :=
  if negb (monitoring p) then (p, None)
  else
    let pushed := memoryHistory p ++ [{| timestamp := now; memUsage := usage |}] in
    let history := if (1000 <? length pushed)%nat then tl pushed else pushed in
    let p' := {| monitoring := monitoring p; memoryHistory := history |} in
    (p', if (1 <? length history)%nat then showMemoryTrend p' else None).

Inductive Verdict := PotentialLeak | GrowthObserved | MemoryStable.

(** [stats.heapUsed] of [analyzeMemoryHistory] without the average, and
    the branch its leak detection takes. *)
Record Analysis := {
  min : Z;
  max : Z;
  growth : Z;
  verdict : Verdict
}.

(** [analyzeMemoryHistory()]; [None] is "Not enough data for analysis". *)
Definition analyzeMemoryHistory (p : Profiler) : option Analysis :=
  if (length (memoryHistory p) <? 2)%nat then None
  else
    match map (fun s => heapUsed (memUsage s)) (memoryHistory p) with
    | [] => None
    | first :: rest =>
        let growth := (last rest first - first)%Z in
        Some {| min := fold_left Z.min rest first;
                max := fold_left Z.max rest first;
                growth := growth;
                verdict := if (10 * 1024 * 1024 <? growth)%Z then PotentialLeak
                           else if (0 <? growth)%Z then GrowthObserved
                           else MemoryStable |}
    end.

(** [monitorUsage()]: [monitoring] is set, the interval runs once for each
    of [ticks] until the user presses Enter; then [monitoring] is cleared,
    the interval too, and the history is analysed. The history is not
    emptied, before or after. *)
Definition monitorUsage (ticks : list (MemoryUsage * Q)) (p : Profiler)
  : Profiler * option Analysis :=
  let started := {| monitoring := true; memoryHistory := memoryHistory p |} in
  let running := fold_left (fun q t => fst (tick (fst t) (snd t) q)) ticks started in
  let stopped := {| monitoring := false; memoryHistory := memoryHistory running |} in
  (stopped, analyzeMemoryHistory stopped).

(** The snapshot a tick records. *)
Definition snapshot (t : MemoryUsage * Q) : Snapshot :=
  {| timestamp := snd t; memUsage := fst t |}.

End MemoryProfiler.

(** ** Properties *)

Section ForRange.
Context {A : Type} (body : N -> A -> A).

Lemma for_range_lt j hi acc :
  (j < hi)%N -> for_range body j hi acc = for_range body (j + 1) hi (body j acc).
Proof.
  intros Hlt. rewrite for_range_equation_1.
  destruct (sumbool_of_bool (j <? hi)%N) as [E|E]; [reflexivity|].
  pose proof (proj1 (N.ltb_ge _ _) E). lia.
Qed.

Lemma for_range_ge j hi acc :
  (hi <= j)%N -> for_range body j hi acc = acc.
Proof.
  intros Hge. rewrite for_range_equation_1.
  destruct (sumbool_of_bool (j <? hi)%N) as [E|E]; [|reflexivity].
  pose proof (proj1 (N.ltb_lt _ _) E). lia.
Qed.

(** A counting loop can be cut at any point of its range. *)
Lemma for_range_split j mid hi acc :
  (j <= mid)%N -> (mid <= hi)%N ->
  for_range body mid hi (for_range body j mid acc) = for_range body j hi acc.
Proof.
  intros Hjm Hmh.
  remember (N.to_nat (mid - j)) as d eqn:Hd.
  revert j acc Hjm Hd.
  induction d as [|d IH]; intros j acc Hjm Hd.
  - assert (j = mid) by lia. subst j.
    rewrite (for_range_ge (j:=mid) (hi:=mid)) by lia. reflexivity.
  - rewrite (for_range_lt (j:=j) (hi:=mid)) by lia.
    rewrite (for_range_lt (j:=j) (hi:=hi)) by lia.
    apply IH; lia.
Qed.

End ForRange.

(** *** asyncVsSync: the chunked sum is the plain sum *)

Section AsyncVsSyncProofs.
Import EventLoopMonitor.
Context {number : Type} `{JSNumber number}.

Lemma chunks_lt i iterations (acc : number) :
  (i < iterations)%N ->
  chunks i iterations acc = chunks (i + chunkSize) iterations (chunk i iterations acc).
Proof.
  intros Hlt. rewrite chunks_equation_1.
  destruct (sumbool_of_bool (i <? iterations)%N) as [E|E]; [reflexivity|].
  pose proof (proj1 (N.ltb_ge _ _) E). lia.
Qed.

Lemma chunks_ge i iterations (acc : number) :
  (iterations <= i)%N -> chunks i iterations acc = acc.
Proof.
  intros Hge. rewrite chunks_equation_1.
  destruct (sumbool_of_bool (i <? iterations)%N) as [E|E]; [|reflexivity].
  pose proof (proj1 (N.ltb_lt _ _) E). lia.
Qed.

(** Started at a chunk boundary [i], the remaining chunks add up what the
    plain loop adds from [i] on. *)
Lemma chunks_resume i iterations (acc : number) :
  (i <= iterations)%N ->
  chunks i iterations acc =
  for_range (fun j a => add a (of_N j)) i iterations acc.
Proof.
  intros Hle.
  remember (N.to_nat (iterations - i)) as d eqn:Hd.
  revert i acc Hle Hd.
  induction d as [d IH] using lt_wf_ind; intros i acc Hle Hd.
  destruct (N.eq_dec i iterations) as [->|Hne].
  - rewrite chunks_ge, for_range_ge by lia. reflexivity.
  - rewrite chunks_lt by lia. unfold chunk.
    destruct (N.le_gt_cases (i + chunkSize) iterations) as [Hin|Hout].
    + rewrite N.min_l by exact Hin.
      rewrite (IH (N.to_nat (iterations - (i + chunkSize))));
        [|unfold chunkSize in *; lia|exact Hin|reflexivity].
      apply for_range_split; unfold chunkSize in *; lia.
    + rewrite N.min_r by lia.
      apply chunks_ge. lia.
Qed.

(** C10. For every iteration count, the chunked accumulation of
    [asyncVsSync] (chunks of 10000, each summing
    [i .. min(i+10000, n) - 1]) yields the same number as the plain loop
    over [0 .. n-1]; the additions happen in the same order, so this
    holds whatever the arithmetic of [+] is, and the final [===] check
    succeeds. *)
Theorem asyncVsSync_results_match (iterations : N) :
  asyncResult iterations = syncResult iterations.
Proof.
  unfold asyncResult, syncResult. apply chunks_resume. lia.
Qed.

End AsyncVsSyncProofs.

(** *** The lag history is a FIFO window of 100 samples *)

Section LagWindow.
Import EventLoopMonitor.

Lemma window_short {A} n (xs : list A) :
  (length xs <= n)%nat -> window n xs = xs.
Proof.
  intros Hle. unfold window.
  replace (length xs - n)%nat with 0%nat by lia. reflexivity.
Qed.

Lemma window_length {A} n (xs : list A) :
  length (window n xs) = Nat.min n (length xs).
Proof. unfold window. rewrite length_skipn. lia. Qed.

Lemma window_app {A} n (xs ys : list A) :
  window n (window n xs ++ ys) = window n (xs ++ ys).
Proof.
  destruct (Nat.le_gt_cases (length xs) n) as [Hle|Hgt].
  - rewrite (window_short (n:=n) (xs:=xs)) by exact Hle. reflexivity.
  - unfold window at 1 3.
    rewrite !length_app, window_length, !skipn_app, window_length.
    unfold window. rewrite skipn_skipn.
    replace (Nat.min n (length xs)) with n by lia.
    destruct (Nat.le_gt_cases (length ys) n) as [Hys|Hys].
    + f_equal; [f_equal; lia|].
      replace (n + length ys - n - n)%nat with 0%nat by lia.
      replace (length xs + length ys - n - length xs)%nat with 0%nat by lia.
      reflexivity.
    + rewrite (skipn_all2 (n:=n + length ys - n + (length xs - n)) xs) by lia.
      rewrite (skipn_all2 (n:=length xs + length ys - n) xs) by lia.
      cbn [app]. f_equal. lia.
Qed.

Lemma push_bounded_window xs x :
  (length xs <= 100)%nat -> push_bounded xs x = window 100 (xs ++ [x]).
Proof.
  intros Hle. unfold push_bounded, window.
  rewrite length_app. cbn [length].
  destruct (Nat.ltb_spec 100 (length xs + 1)) as [Hfull|Hroom].
  - replace (length xs + 1 - 100)%nat with 1%nat by lia. reflexivity.
  - replace (length xs + 1 - 100)%nat with 0%nat by lia. reflexivity.
Qed.

Lemma monitorEventLoop_self now rt :
  monitoring (self rt) = true ->
  self (monitorEventLoop now rt) =
  {| monitoring := true;
     startTime := startTime (self rt);
     lastCheck := now;
     lagHistory := push_bounded (lagHistory (self rt))
                                (now - (lastCheck (self rt) + 16)) |}.
Proof.
  intros Hon. unfold monitorEventLoop. rewrite Hon. reflexivity.
Qed.

Lemma ticks_window nows : forall rt,
  monitoring (self rt) = true ->
  (length (lagHistory (self rt)) <= 100)%nat ->
  lagHistory (self (ticks nows rt)) =
  window 100 (lagHistory (self rt) ++ lags (lastCheck (self rt)) nows).
Proof.
  induction nows as [|now nows IH]; intros rt Hon Hlen.
  - cbn. rewrite app_nil_r. symmetry. apply window_short. exact Hlen.
  - cbn [ticks fold_left lags].
    pose proof (monitorEventLoop_self now Hon) as Hself.
    unfold ticks in IH. rewrite IH.
    + rewrite Hself. cbn [lagHistory lastCheck].
      rewrite push_bounded_window by exact Hlen.
      rewrite window_app, <- app_assoc. reflexivity.
    + rewrite Hself. reflexivity.
    + rewrite Hself. cbn [lagHistory].
      rewrite push_bounded_window by exact Hlen.
      rewrite window_length. lia.
Qed.

(** The bound also holds along every run of the event loop, whatever
    callbacks and typed lines it is made of. *)
Lemma run_keeps_history_bounded es : forall rt rt',
  (length (lagHistory (self rt)) <= 100)%nat ->
  run rt es = Some rt' ->
  (length (lagHistory (self rt')) <= 100)%nat.
Proof.
  induction es as [|e es IH]; intros rt rt' Hlen Hrun; cbn [run] in Hrun.
  - injection Hrun as <-. exact Hlen.
  - destruct (step rt e) as [rt1|] eqn:Hstep; [|discriminate Hrun].
    apply (IH rt1 rt'); [|exact Hrun].
    destruct e as [i now|text now]; cbn [step] in Hstep.
    + destruct (nth_error (timers rt) i) as [t|]; [|discriminate Hstep].
      destruct (Qle_bool (clock rt) now); [|discriminate Hstep].
      injection Hstep as <-.
      destruct (callback t); cbn [runCallback]; try exact Hlen.
      * unfold monitorEventLoop. cbn [self set_clock].
        destruct (monitoring (self rt)); cbn [negb self lagHistory]; [|exact Hlen].
        rewrite push_bounded_window by exact Hlen. rewrite window_length. lia.
      * unfold autoStop. cbn [self set_clock].
        destruct (monitoring (self rt)); exact Hlen.
    + destruct (Qle_bool (clock rt) now); [|discriminate Hstep].
      injection Hstep as <-. exact Hlen.
Qed.

(** C3. Whatever the sequence of ticks, the lag history never holds more
    than 100 samples: it is the last 100 of all the samples recorded so
    far, oldest first. In particular, 101 ticks on an empty history leave
    the samples of ticks 2 to 101: the one of the first tick is gone. *)
Theorem lag_history_is_fifo_window rt (nows : list Q) :
  monitoring (self rt) = true ->
  (length (lagHistory (self rt)) <= 100)%nat ->
  let recorded := lagHistory (self rt) ++ lags (lastCheck (self rt)) nows in
  let history := lagHistory (self (ticks nows rt)) in
  (length history <= 100)%nat /\
  history = skipn (length recorded - 100) recorded /\
  (lagHistory (self rt) = [] -> length nows = 101%nat ->
   history = tl (lags (lastCheck (self rt)) nows)).
Proof.
  intros Hon Hlen recorded history.
  assert (Hw : history = window 100 recorded) by (apply ticks_window; assumption).
  split; [|split].
  - rewrite Hw, window_length. lia.
  - exact Hw.
  - intros Hnil Hn. rewrite Hw. unfold recorded, window.
    rewrite Hnil. cbn [app].
    assert (Hl : forall last ns, length (lags last ns) = length ns).
    { intros last ns. revert last. induction ns; intros; cbn; [|rewrite IHns]; reflexivity. }
    rewrite Hl, Hn. reflexivity.
Qed.

(** 101 ticks, one per second, on a monitor with an empty history: 100
    samples are left, those of ticks 2 to 101. *)
Lemma lag_history_is_fifo_window_witness :
  let rt := {| self := {| monitoring := true; startTime := 0; lastCheck := 0;
                          lagHistory := [] |};
               timers := []; stdout := []; clock := 0; returned := false |} in
  let nows := map (fun k => inject_Z (Z.of_nat k * 1000)) (seq 1 101) in
  (length (lagHistory (self (ticks nows rt))) <= 100)%nat /\
  lagHistory (self (ticks nows rt)) = tl (lags 0 nows).
Proof.
  intros rt nows.
  destruct (@lag_history_is_fifo_window rt nows eq_refl) as (Hlen & _ & Hfirst);
    [cbn; lia|].
  split; [exact Hlen|]. apply Hfirst; reflexivity.
Defined.

End LagWindow.

(** *** What one tick records, and what the next one is armed for *)

Section Tick.
Import EventLoopMonitor.

(** A tick that finds [monitoring] set records [now - (lastCheck + 16)],
    whatever the delay its timer was armed with, appends it to the bounded
    history, prints the statistics of the window, moves [lastCheck] to
    [now] and arms the next tick 1000 ms after [now]. *)
Lemma monitorEventLoop_effect now rt :
  monitoring (self rt) = true ->
  let lag := now - (lastCheck (self rt) + 16) in
  let history := push_bounded (lagHistory (self rt)) lag in
  let rt' := monitorEventLoop now rt in
  lagHistory (self rt') = history /\
  lastCheck (self rt') = now /\
  timers rt' = timers rt ++ [{| due := now + 1000; callback := MonitorTick; period := None |}] /\
  stdout rt' = stdout rt ++
    [LagLine lag (sum history / inject_Z (Z.of_nat (length history)))
             (Math_min history) (Math_max history)
             ((now - startTime (self rt)) / 1000)].
Proof.
  intros Hon lag history rt'. unfold rt', monitorEventLoop. rewrite Hon.
  cbn. repeat split.
Qed.

(** C4 (the code departs from the claim). A session starts at time 0; its
    first timer is armed with a delay of 1000 ms and runs exactly when due,
    at time 1000. The expected time is still taken 16 ms after the last
    tick, so the sample recorded for this punctual tick is 984 ms instead
    of 0. The rest of the tick is as claimed: the sample is appended to the
    history (which holds -16 from the first, synchronous call), the line
    printed gives average 968/2, minimum -16 and maximum 984 over the
    window, and the next tick is due 1000 ms after [now]. *)
Theorem punctual_tick_records_984 :
  let rt := startMonitoring 0 0 boot in
  nth_error (timers rt) 0 = Some {| due := 0 + 1000; callback := MonitorTick; period := None |} /\
  exists rt',
    step rt (Fire 0 1000) = Some rt' /\
    lagHistory (self rt') = [-16 # 1; 984 # 1] /\
    last (stdout rt') StartBanner =
      LagLine (984 # 1) (968 # 2) (Some (-16 # 1)) (Some (984 # 1)) (1000 # 1000) /\
    last (timers rt') {| due := 0; callback := AutoStop; period := None |} =
      {| due := 1000 + 1000; callback := MonitorTick; period := None |}.
Proof.
  split; [reflexivity|].
  eexists. split; [reflexivity|].
  repeat split.
Qed.

End Tick.

(** *** The life cycle of a monitoring session *)


Section Session.
Import EventLoopMonitor.

Lemma Callback_eqb_eq a b : Callback_eqb a b = true <-> a = b.
Proof. destruct a, b; cbn; split; intros E; try reflexivity; discriminate E. Qed.

Lemma count_app cb (xs ys : list Timer) :
  count cb (xs ++ ys) = (count cb xs + count cb ys)%nat.
Proof. unfold count. rewrite filter_app, length_app. reflexivity. Qed.

Lemma count_single cb (t : Timer) :
  count cb [t] = if Callback_eqb (callback t) cb then 1%nat else 0%nat.
Proof. unfold count. cbn. destruct (Callback_eqb (callback t) cb); reflexivity. Qed.


Lemma count_remove_nth cb i : forall (ts : list Timer) t,
  nth_error ts i = Some t ->
  count cb ts =
  (count cb (remove_nth i ts) + if Callback_eqb (callback t) cb then 1 else 0)%nat.
Proof.
  unfold count.
  induction i as [|i IH]; intros [|x ts] t Hnth; try discriminate Hnth.
  - cbn in Hnth. injection Hnth as ->. cbn.
    destruct (Callback_eqb (callback t) cb); cbn; lia.
  - cbn in Hnth. cbn. specialize (IH ts t Hnth).
    destruct (Callback_eqb (callback x) cb); cbn; lia.
Qed.

Lemma count_replace_nth cb i : forall (ts : list Timer) t t',
  nth_error ts i = Some t -> callback t' = callback t ->
  count cb (replace_nth i t' ts) = count cb ts.
Proof.
  unfold count.
  induction i as [|i IH]; intros [|x ts] t t' Hnth Hcb; try discriminate Hnth.
  - cbn in Hnth. injection Hnth as ->. cbn. rewrite Hcb.
    destruct (Callback_eqb (callback t) cb); reflexivity.
  - cbn in Hnth. cbn. specialize (IH ts t t' Hnth Hcb).
    destruct (Callback_eqb (callback x) cb); cbn; lia.
Qed.

Lemma In_remove_nth {A} i : forall (xs : list A) x,
  In x (remove_nth i xs) -> In x xs.
Proof.
  induction i as [|i IH]; intros [|y xs] x Hin; cbn in *; auto.
  destruct Hin as [->|Hin]; auto.
Qed.

Lemma In_replace_nth {A} i : forall (xs : list A) y x,
  In x (replace_nth i y xs) -> x = y \/ In x xs.
Proof.
  induction i as [|i IH]; intros [|z xs] y x Hin; cbn in *; auto.
  - destruct Hin as [->|Hin]; auto.
  - destruct Hin as [->|Hin]; auto.
    destruct (IH _ _ _ Hin); auto.
Qed.

(** Taking a timer to run leaves the others as they were; the only new
    entry is the re-armed copy of an interval. *)
Lemma In_taken i t now ts x :
  In x (taken i t now ts) ->
  In x ts \/ (callback x = callback t /\ period t <> None).
Proof.
  unfold taken. destruct (period t) as [p|] eqn:Hp; intros Hin.
  - apply In_replace_nth in Hin. destruct Hin as [->|Hin]; [right|left; exact Hin].
    split; [reflexivity|discriminate].
  - left. exact (In_remove_nth Hin).
Qed.

Lemma count_taken cb i t now ts :
  nth_error ts i = Some t ->
  count cb ts =
  (count cb (taken i t now ts) +
   match period t with
   | None => if Callback_eqb (callback t) cb then 1 else 0
   | Some _ => 0
   end)%nat.
Proof.
  intros Hnth. unfold taken. destruct (period t) as [p|].
  - rewrite (count_replace_nth cb (t':={| due := now + p; callback := callback t;
                                           period := Some p |}) Hnth) by reflexivity.
    lia.
  - apply count_remove_nth. exact Hnth.
Qed.

Lemma one_shot_taken cb i t now ts :
  nth_error ts i = Some t -> one_shot cb ts -> one_shot cb (taken i t now ts).
Proof.
  intros Hnth Hone x Hin Hcb.
  destruct (In_taken Hin) as [Hold|[Hsame Hper]]; [exact (Hone x Hold Hcb)|].
  exfalso. apply Hper. apply (Hone t (nth_error_In _ _ Hnth)). congruence.
Qed.


Lemma one_shot_snoc cb ts t :
  one_shot cb ts -> (callback t = cb -> period t = None) -> one_shot cb (ts ++ [t]).
Proof.
  intros Hone Ht x Hin Hcb. apply in_app_or in Hin.
  destruct Hin as [Hin|[<-|[]]]; [exact (Hone x Hin Hcb)|exact (Ht Hcb)].
Qed.










(** *** The intervals of startBackgroundTasks *)

Lemma intervals_only_taken cb i t now ts :
  nth_error ts i = Some t -> intervals_only cb ts -> intervals_only cb (taken i t now ts).
Proof.
  intros Hnth Hint x Hin Hcb. unfold taken in Hin.
  destruct (period t) as [p|] eqn:Hp.
  - apply In_replace_nth in Hin. destruct Hin as [->|Hin]; [discriminate|].
    exact (Hint x Hin Hcb).
  - exact (Hint x (In_remove_nth Hin) Hcb).
Qed.

Lemma intervals_only_snoc cb ts t :
  intervals_only cb ts -> (callback t = cb -> period t <> None) ->
  intervals_only cb (ts ++ [t]).
Proof.
  intros Hint Ht x Hin Hcb. apply in_app_or in Hin.
  destruct Hin as [Hin|[<-|[]]]; [exact (Hint x Hin Hcb)|exact (Ht Hcb)].
Qed.

(** A turn of the event loop neither removes nor adds an interval of
    [startBackgroundTasks]. *)
Lemma step_keeps_intervals cb rt e rt' :
  cb = NextTickInterval \/ cb = MicrotaskInterval ->
  intervals_only cb (timers rt) ->
  step rt e = Some rt' ->
  pending cb rt' = pending cb rt /\ intervals_only cb (timers rt').
Proof.
  intros Hcb Hint Hstep. unfold pending.
  destruct e as [i now|text now]; cbn [step] in Hstep.
  - destruct (nth_error (timers rt) i) as [t|] eqn:Hnth; [|discriminate Hstep].
    destruct (Qle_bool (clock rt) now); [|discriminate Hstep].
    injection Hstep as <-.
    assert (Htaken : count cb (taken i t now (timers rt)) = count cb (timers rt)).
    { pose proof (count_taken cb now Hnth) as Hc.
      destruct (period t) as [p|] eqn:Hp; [lia|].
      destruct (Callback_eqb (callback t) cb) eqn:E; [|lia].
      apply Callback_eqb_eq in E. exfalso.
      exact (Hint t (nth_error_In _ _ Hnth) E Hp). }
    pose proof (intervals_only_taken (now:=now) Hnth Hint) as Hint'.
    destruct (callback t) eqn:Hcallback; cbn [runCallback];
      try (cbn [timers set_clock]; split; assumption).
    + unfold monitorEventLoop. cbn [self set_clock].
      destruct (monitoring (self rt)); cbn [negb timers set_clock]; [|split; assumption].
      unfold setTimeout. rewrite count_app, count_single, Htaken. cbn [callback].
      split.
      * destruct Hcb as [-> | ->]; cbn; lia.
      * apply intervals_only_snoc; [exact Hint'|].
        cbn [callback]. destruct Hcb as [-> | ->]; discriminate.
    + unfold autoStop. cbn [self set_clock].
      destruct (monitoring (self rt)); cbn [timers set_clock]; split; assumption.
    + cbn [timers set_clock]. unfold setImmediate. rewrite count_app, count_single, Htaken.
      cbn [callback]. split.
      * destruct Hcb as [-> | ->]; cbn; lia.
      * apply intervals_only_snoc; [exact Hint'|].
        cbn [callback]. destruct Hcb as [-> | ->]; discriminate.
  - destruct (Qle_bool (clock rt) now); [|discriminate Hstep].
    injection Hstep as <-. cbn [timers set_clock]. split; [reflexivity|exact Hint].
Qed.

Lemma run_keeps_intervals cb es : forall rt rt',
  cb = NextTickInterval \/ cb = MicrotaskInterval ->
  intervals_only cb (timers rt) ->
  run rt es = Some rt' ->
  pending cb rt' = pending cb rt /\ intervals_only cb (timers rt').
Proof.
  induction es as [|e es IH]; intros rt rt' Hcb Hint Hrun; cbn [run] in Hrun.
  - injection Hrun as <-. split; [reflexivity|exact Hint].
  - destruct (step rt e) as [rt1|] eqn:Hstep; [|discriminate Hrun].
    destruct (step_keeps_intervals Hcb Hint Hstep) as [Hcount Hint1].
    destruct (IH rt1 rt' Hcb Hint1 Hrun) as [Hcount' Hint'].
    split; [congruence|exact Hint'].
Qed.

Lemma startMonitoring_adds_intervals cb start now rt0 :
  cb = NextTickInterval \/ cb = MicrotaskInterval ->
  intervals_only cb (timers rt0) ->
  pending cb (startMonitoring start now rt0) = S (pending cb rt0) /\
  intervals_only cb (timers (startMonitoring start now rt0)).
Proof.
  intros Hcb Hint. unfold pending, startMonitoring, waitForStop, startBackgroundTasks.
  cbn [timers]. unfold monitorEventLoop. cbn [self monitoring negb timers].
  unfold setTimeout, setInterval, setImmediate.
  rewrite !count_app, !count_single. cbn [callback]. split.
  - destruct Hcb as [-> | ->]; cbn; lia.
  - repeat apply intervals_only_snoc; try exact Hint; cbn [callback period];
      destruct Hcb as [-> | ->]; discriminate.
Qed.





End Session.

(** *** The interruptible loop: where it stops *)

Section InfiniteLoopProofs.
Import EventLoopMonitor.InfiniteLoop.
Context {number : Type} `{JSNumber number}.



























End InfiniteLoopProofs.

Section InfiniteLoopExample.
Import EventLoopMonitor.InfiniteLoop.



End InfiniteLoopExample.

(** *** parallelProcessing partitions the buffer *)

Section Partition.
Import WorkerThreadManager.

Lemma assigned_ranges bufferSize workerCount :
  map range (assignments bufferSize workerCount) =
  map (fun i => (startIndex bufferSize workerCount i, endIndex bufferSize workerCount i))
      (seq 0 workerCount).
Proof. unfold assignments. rewrite map_map. reflexivity. Qed.

(** The first [n] ranges of equal size [c] hold exactly the indices below
    [n * c], each once. *)
Lemma equal_chunks_cover c k n :
  length (filter (covers k) (map (fun i => (i * c, (i + 1) * c)%nat) (seq 0 n))) =
  if (k <? n * c)%nat then 1%nat else 0%nat.
Proof.
  induction n as [|n IH].
  - reflexivity.
  - rewrite seq_S, map_app, filter_app, length_app, IH. cbn [map filter Nat.add].
    unfold covers. cbn [fst snd].
    destruct (Nat.ltb_spec k (n * c)), (Nat.ltb_spec k (S n * c)),
      (Nat.leb_spec (n * c) k), (Nat.ltb_spec k ((n + 1) * c));
      cbn; try reflexivity; nia.
Qed.

Lemma leading_ranges bufferSize w :
  map (fun i => (startIndex bufferSize (S w) i, endIndex bufferSize (S w) i)) (seq 0 w) =
  map (fun i => (i * chunkSize bufferSize (S w), (i + 1) * chunkSize bufferSize (S w))%nat)
      (seq 0 w).
Proof.
  apply map_ext_in. intros i Hin. apply in_seq in Hin.
  unfold startIndex, endIndex.
  destruct (Nat.eqb_spec i (S w - 1)) as [E|E]; [lia|reflexivity].
Qed.

Lemma coverage_exact L W k :
  (1 <= W)%nat -> coverage L W k = if (k <? L)%nat then 1%nat else 0%nat.
Proof.
  intros HW. unfold coverage. rewrite assigned_ranges.
  destruct W as [|w]; [lia|].
  rewrite seq_S, map_app, filter_app, length_app, leading_ranges, equal_chunks_cover.
  cbn [map filter Nat.add]. unfold covers, startIndex, endIndex. cbn [fst snd].
  replace (S w - 1)%nat with w by lia. rewrite Nat.eqb_refl.
  assert (Hc : (w * chunkSize L (S w) <= L)%nat).
  { unfold chunkSize. pose proof (Nat.Div0.mul_div_le L (S w)). nia. }
  destruct (Nat.ltb_spec k (w * chunkSize L (S w))),
    (Nat.leb_spec (w * chunkSize L (S w)) k), (Nat.ltb_spec k L);
    cbn; try reflexivity; lia.
Qed.

(** The four ranges of [parallelProcessing] as the source has it. *)
Lemma parallelProcessing_partition bufferSize k :
  length (filter (covers k) (map range (parallelProcessing bufferSize))) =
  if (k <? bufferSize)%nat then 1%nat else 0%nat.
Proof. apply (@coverage_exact bufferSize 4 k). lia. Qed.

(** The workers of a two-way split of a four-cell buffer, run one after
    the other on [0, 1, 2, 3] with the operation "square", leave
    [0, 1, 4, 9]. *)
Example square_four_cells_with_two_workers :
  let start := {| CpuWorker.memory := [0; 1; 2; 3]%Z; CpuWorker.accesses := [];
                  CpuWorker.entropy := fun _ => 0; CpuWorker.draws := 0%nat |} in
  let finish :=
    fold_left (fun th data => snd (CpuWorker.main (number:=N) data th))
              (assignments 4 2) start in
  map range (assignments 4 2) = [(0, 2); (2, 4)]%nat /\
  CpuWorker.memory finish = [0; 1; 4; 9]%Z.
Proof. split; reflexivity. Qed.

(** C6. For a buffer of [L >= 1] cells and [W] workers, [1 <= W <= L], the
    ranges that [parallelProcessing] assigns are
    [i * floor(L/W), (i+1) * floor(L/W)) for the workers before the last
    and [(W-1) * floor(L/W), L) for the last, and every index below [L]
    lies in exactly one of them, every other index in none. (The source
    fixes [W = 4].) *)
Theorem ranges_partition_buffer (L W k : nat) :
  (1 <= L)%nat -> (1 <= W)%nat -> (W <= L)%nat ->
  map range (assignments L W) =
    map (fun i => ((i * (L / W))%nat,
                   if (i =? W - 1)%nat then L else ((i + 1) * (L / W))%nat))
        (seq 0 W) /\
  coverage L W k = if (k <? L)%nat then 1%nat else 0%nat.
Proof.
  intros _ HW _. split; [apply assigned_ranges|apply coverage_exact; exact HW].
Qed.

(** Ten cells over four workers: [0,2) [2,4) [4,6) [6,10); index 9 falls
    into the last range only. *)
Lemma ranges_partition_buffer_witness :
  map range (assignments 10 4) = [(0, 2); (2, 4); (4, 6); (6, 10)]%nat /\
  coverage 10 4 9 = 1%nat.
Proof.
  destruct (@ranges_partition_buffer 10 4 9) as [Hr Hc]; [lia|lia|lia|].
  split; [exact Hr|exact Hc].
Defined.

End Partition.

(** *** concurrentUpdates writes with Atomics.store only *)

Section AtomicUpdates.
Import SharedMemory CpuWorker WorkerThreadManager.
Context {number : Type} `{JSNumber number}.

Lemma atomic_only_silent {A} (c : Run A) :
  (forall th, accesses (snd (c th)) = accesses th) -> atomic_only c.
Proof.
  intros Hsame th. exists []. rewrite app_nil_r. split; [apply Hsame|constructor].
Qed.

Lemma atomic_only_seq {A B} (c : Run A) (k : A -> Run B) :
  atomic_only c -> (forall a, atomic_only (k a)) -> atomic_only (seq_run c k).
Proof.
  intros Hc Hk th. unfold seq_run.
  destruct (Hc th) as (new1 & E1 & F1).
  destruct (c th) as [[a|m] th1]; cbn [snd] in *.
  - destruct (Hk a th1) as (new2 & E2 & F2).
    exists (new1 ++ new2). rewrite E2, E1, app_assoc. split; [reflexivity|].
    apply Forall_app. split; assumption.
  - exists new1. split; assumption.
Qed.

Lemma atomic_only_Atomics_store index value : atomic_only (Atomics_store index value).
Proof.
  intros th. unfold Atomics_store.
  destruct ((0 <=? index)%Z && (index <? Z.of_nat (length (memory th)))%Z)%bool.
  - eexists. split; [reflexivity|]. repeat constructor.
  - exists []. rewrite app_nil_r. split; [reflexivity|constructor].
Qed.

Lemma atomic_only_loop body :
  (forall i, atomic_only (body i)) ->
  forall n lo count, atomic_only (counting_loop body lo n count).
Proof.
  intros Hbody. induction n as [|n IH]; intros lo count; cbn [counting_loop].
  - apply atomic_only_silent. reflexivity.
  - apply atomic_only_seq; [apply Hbody|]. intros _. apply IH.
Qed.

Lemma updateSharedMemory_atomic_only updateCount workerId :
  atomic_only (updateSharedMemory updateCount workerId).
Proof.
  unfold updateSharedMemory. apply atomic_only_loop. intros _.
  apply atomic_only_seq; [apply atomic_only_silent; reflexivity|]. intros r1.
  apply atomic_only_seq; [apply atomic_only_silent; reflexivity|]. intros len.
  apply atomic_only_seq; [apply atomic_only_silent; reflexivity|]. intros r2.
  apply atomic_only_Atomics_store.
Qed.

(** An interleaving holds nothing but what its threads hold. *)
Lemma Interleaving_Forall (P : Access -> Prop) threads trace :
  Interleaving threads trace ->
  Forall (Forall P) threads -> Forall P trace.
Proof.
  induction 1 as [threads Hnil|before a rest after trace Hrest IH]; intros Hall.
  - constructor.
  - apply Forall_app in Hall. destruct Hall as [Hb Hrest_after].
    inversion Hrest_after as [|? ? Hthis Hafter]; subst.
    inversion Hthis as [|? ? Ha Hr]; subst.
    constructor; [exact Ha|].
    apply IH. apply Forall_app. split; [exact Hb|]. constructor; assumption.
Qed.

Lemma Interleaving_idle_thread threads trace :
  Interleaving threads trace -> Interleaving ([] :: threads) trace.
Proof.
  induction 1 as [threads Hnil|before a rest after trace Hrest IH].
  - apply Interleaving_done. constructor; [reflexivity|exact Hnil].
  - exact (Interleaving_next (before:=[] :: before) a IH).
Qed.

(** Running the threads one after the other is one of the interleavings. *)
Lemma Interleaving_sequential threads : Interleaving threads (concat threads).
Proof.
  induction threads as [|t threads IH]; cbn [concat].
  - apply Interleaving_done. constructor.
  - induction t as [|a rest IHt]; cbn [app].
    + apply Interleaving_idle_thread. exact IH.
    + exact (Interleaving_next (before:=[]) a IHt).
Qed.

Lemma alike_refl th : alike th th.
Proof. repeat split. Qed.

Lemma oblivious_seq {A B} (c : Run A) (k : A -> Run B) :
  oblivious c -> (forall a, oblivious (k a)) -> oblivious (seq_run c k).
Proof.
  intros Hc Hk th1 th2 Hal. unfold seq_run.
  destruct (Hc th1 th2 Hal) as (Hres & Hal' & new1 & E1 & E2).
  destruct (c th1) as [r1 th1'], (c th2) as [r2 th2']; cbn [fst snd] in *.
  subst r2. destruct r1 as [a|m].
  - destruct (Hk a th1' th2' Hal') as (Hres' & Hal'' & new2 & E1' & E2').
    split; [exact Hres'|]. split; [exact Hal''|].
    exists (new1 ++ new2). rewrite E1', E2', E1, E2, !app_assoc. split; reflexivity.
  - split; [reflexivity|]. split; [exact Hal'|]. exists new1. split; assumption.
Qed.

Lemma oblivious_ret {A} (a : A) : oblivious (ret a).
Proof.
  intros th1 th2 Hal. cbn. split; [reflexivity|]. split; [exact Hal|].
  exists []. rewrite !app_nil_r. split; reflexivity.
Qed.

Lemma oblivious_Math_random : oblivious Math_random.
Proof.
  intros th1 th2 (Hlen & Hent & Hdr). cbn. rewrite Hent, Hdr.
  split; [reflexivity|]. split; [repeat split; assumption|].
  exists []. rewrite !app_nil_r. split; reflexivity.
Qed.

Lemma oblivious_array_length : oblivious array_length.
Proof.
  intros th1 th2 (Hlen & Hent & Hdr). cbn. rewrite Hlen.
  split; [reflexivity|]. split; [repeat split; assumption|].
  exists []. rewrite !app_nil_r. split; reflexivity.
Qed.

Lemma length_write i v : forall cells, length (write i v cells) = length cells.
Proof.
  induction i as [|i IH]; intros [|x cells]; cbn; try reflexivity.
  rewrite IH. reflexivity.
Qed.

Lemma oblivious_Atomics_store index value : oblivious (Atomics_store index value).
Proof.
  intros th1 th2 (Hlen & Hent & Hdr). unfold Atomics_store. rewrite Hlen.
  destruct ((0 <=? index)%Z && (index <? Z.of_nat (length (memory th2)))%Z)%bool;
    cbn [fst snd log memory accesses entropy draws perform].
  - split; [reflexivity|]. split.
    + repeat split; cbn; try assumption. rewrite !length_write. exact Hlen.
    + eexists. split; reflexivity.
  - split; [reflexivity|]. split; [repeat split; assumption|].
    exists []. rewrite !app_nil_r. split; reflexivity.
Qed.

Lemma oblivious_loop body :
  (forall i, oblivious (body i)) ->
  forall n lo count, oblivious (counting_loop body lo n count).
Proof.
  intros Hbody. induction n as [|n IH]; intros lo count; cbn [counting_loop].
  - apply oblivious_ret.
  - apply oblivious_seq; [apply Hbody|]. intros _. apply IH.
Qed.

(** What [updateSharedMemory] returns and which cells it stores to depend
    on the length of the buffer and on its random source, not on what the
    buffer holds: the stores of other workers do not change them. *)
Lemma updateSharedMemory_oblivious updateCount workerId :
  oblivious (updateSharedMemory updateCount workerId).
Proof.
  unfold updateSharedMemory. apply oblivious_loop. intros _.
  apply oblivious_seq; [apply oblivious_Math_random|]. intros r1.
  apply oblivious_seq; [apply oblivious_array_length|]. intros len.
  apply oblivious_seq; [apply oblivious_Math_random|]. intros r2.
  apply oblivious_Atomics_store.
Qed.

Lemma update_worker_accesses cells entropy (data : WorkerData) :
  type data = "shared-memory-update"%string ->
  Forall (fun a => is_atomic a = true) (worker_accesses (number:=number) cells entropy data).
Proof.
  intros Htype. unfold worker_accesses, main, dispatch. rewrite Htype.
  cbn [String.eqb Ascii.eqb Bool.eqb].
  set (th := {| memory := cells; accesses := []; entropy := entropy; draws := 0 |}).
  pose proof (updateSharedMemory_atomic_only (updateCount data) (workerId data) th)
    as (new & Enew & Hnew).
  unfold seq_run.
  destruct (updateSharedMemory (updateCount data) (workerId data) th) as [[n|m] th'];
    cbn [snd ret] in *; rewrite Enew; exact Hnew.
Qed.

(** C7. [updateSharedMemory] touches the shared buffer through
    [Atomics.store] and nothing else, for every update count, worker id,
    buffer and random source. So however the accesses of the four workers
    of [concurrentUpdates] interleave, and with the sample the parent reads
    afterwards, every write to the buffer in that mode is an atomic store:
    no plain indexed assignment occurs. *)
Theorem concurrent_updates_store_atomically :
  (forall updateCount workerId,
     atomic_only (updateSharedMemory updateCount workerId)) /\
  (forall (cells : Int32Array) (entropies : nat -> nat -> Q) (trace : list Access),
     Interleaving
       (map (fun data => worker_accesses (number:=number) cells
                           (entropies (workerId data)) data)
            concurrentUpdates)
       trace ->
     Forall (fun a => is_write a = true -> is_atomic a = true)
            (trace ++ sample_loads)).
Proof.
  split; [exact updateSharedMemory_atomic_only|].
  intros cells entropies trace Hinter.
  apply Forall_app. split.
  - apply Forall_impl with (P := fun a => is_atomic a = true); [auto|].
    apply (Interleaving_Forall Hinter).
    apply Forall_map. unfold concurrentUpdates. apply Forall_map.
    apply Forall_forall. intros i _.
    apply update_worker_accesses. reflexivity.
  - unfold sample_loads. apply Forall_map. apply Forall_forall.
    intros i _ Hw. discriminate Hw.
Qed.

End AtomicUpdates.

(** *** The worker pool: results land at the index of their task *)

Section Pool.
Import PoolWorker WorkerThreadManager.
Context {number : Type} `{JSNumber number}.

Lemma array_set_length {A} i (v : A) : forall array,
  (i < length array)%nat -> length (array_set i v array) = length array.
Proof.
  induction i as [|i IH]; intros [|x array] Hlt; cbn in *; try lia.
  rewrite IH by lia. reflexivity.
Qed.

Lemma array_set_same {A} i (v : A) : forall array,
  nth_error (array_set i v array) i = Some (Some v).
Proof.
  induction i as [|i IH]; intros [|x array]; cbn; try reflexivity; apply IH.
Qed.

Lemma array_set_other {A} i (v : A) j : forall array,
  (i < length array)%nat -> i <> j ->
  nth_error (array_set i v array) j = nth_error array j.
Proof.
  revert j. induction i as [|i IH]; intros [|j] [|x array] Hlt Hne; cbn in *;
    try lia; try reflexivity.
  apply IH; lia.
Qed.

(** A pool worker answers every task message with a posted message: a
    value, or the error object of what [processTask] threw. *)
Lemma onMessage_task random (t : Task) :
  onMessage (number:=number) random {| message_type := "task"; task := t |} =
  Some (PostMessage
          (match processTask random t with
           | Return result => Value result
           | Throw error => ErrorObject error
           end)).
Proof.
  unfold onMessage. cbn [message_type task].
  replace (String.eqb "task" "task") with true by reflexivity.
  destruct (processTask random t); reflexivity.
Qed.

Lemma find_idle_fresh a p : find_idle (map idle (seq a (S p))) = Some 0%nat.
Proof. reflexivity. Qed.

(** The answer of the first worker while it works on [t]: the listener
    stores the message at the index of [t], marks the worker idle and goes
    on with the next task. *)
Lemma step_answer_engaged (s : Scheduler (number:=number)) t p random :
  workerPool s = engaged t :: map idle (seq 1 p) ->
  let m := match processTask random t with
           | Return result => Value result
           | Throw error => ErrorObject error
           end in
  step s (Answer 0 random) =
  Some (processNextTask
          {| workerPool := initializeWorkerPool (S p);
             results := array_set (id t) m (results s);
             pendingTasks := pendingTasks s;
             timers := timers s;
             promise := promise s |},
        [(t, m)]).
Proof.
  intros Hpool m. unfold step. rewrite Hpool.
  cbn [nth_error engaged inbox worker listeners].
  rewrite onMessage_task. reflexivity.
Qed.

Section Batch.
Variable tasks : list Task.
Variable size : nat.
Hypothesis distinct_ids : NoDup (map id tasks).
Hypothesis ids_in_range : forall t, In t tasks -> (id t < length tasks)%nat.

(** [processNextTask] on a pool that is all idle. *)
Lemma processNextTask_idle (s : Scheduler (number:=number)) answered :
  workerPool s = initializeWorkerPool size ->
  timers s = 0%nat ->
  promise s = Pending ->
  (0 < size)%nat ->
  tasks = answered ++ pendingTasks s ->
  Phase tasks size answered (processNextTask s).
Proof.
  intros Hpool Htimers Hpromise Hsize Htasks.
  unfold processNextTask.
  destruct (pendingTasks s) as [|t rest] eqn:Hpending.
  - apply Phase_resolved; cbn; try assumption.
    + rewrite app_nil_r in Htasks. exact Htasks.
    + rewrite Hpromise. reflexivity.
  - destruct size as [|p]; [lia|].
    rewrite Hpool. unfold initializeWorkerPool. rewrite find_idle_fresh.
    apply (@Phase_working _ tasks (S p) answered _ t p); cbn; auto.
Qed.

Lemma start_Scheduled :
  Scheduled tasks size (processTasksWithPool (number:=number) tasks (initializeWorkerPool size)) [].
Proof.
  unfold Scheduled, processTasksWithPool. split; [|split].
  - destruct size as [|p] eqn:Esize.
    + unfold processNextTask. cbn [pendingTasks workerPool].
      destruct tasks as [|t rest] eqn:Etasks.
      * apply Phase_resolved; reflexivity.
      * cbn. apply Phase_polling; cbn; try reflexivity. discriminate.
    + rewrite <- Esize. apply processNextTask_idle; cbn; try reflexivity. lia.
  - unfold processNextTask. cbn [pendingTasks workerPool].
    destruct tasks as [|t rest]; [reflexivity|].
    destruct (find_idle (initializeWorkerPool size)); cbn; rewrite repeat_length; reflexivity.
  - intros t m [].
Qed.

Lemma processNextTask_results (s : Scheduler (number:=number)) :
  results (processNextTask s) = results s.
Proof.
  unfold processNextTask. destruct (pendingTasks s); [reflexivity|].
  destruct (find_idle (workerPool s)); reflexivity.
Qed.

Lemma step_Scheduled (s s' : Scheduler (number:=number)) posted e new :
  Scheduled tasks size s posted ->
  step s e = Some (s', new) ->
  Scheduled tasks size s' (posted ++ new).
Proof.
  intros (Hphase & Hlen & Hposted) Hstep.
  destruct Hphase as [t p Hsize Htasks Hpool Htimers Hpromise
                     |Htasks Hpending Hpool Htimers Hpromise
                     |Hsize Hanswered Hsome Hpending Hpool Htimers Hpromise].
  - (* one task is out at the first worker *)
    destruct e as [[|k] random|]; [| |cbn [step] in Hstep; rewrite Htimers in Hstep; discriminate].
    + rewrite (step_answer_engaged random Hpool) in Hstep.
      set (m := match processTask random t with
                | Return result => Value result
                | Throw error => ErrorObject error
                end) in *.
      injection Hstep as <- <-.
      assert (Hin : In t tasks) by (rewrite Htasks; apply in_elt).
      assert (Hfresh : forall t' m', In (t', m') posted -> id t' <> id t).
      { intros t' m' Hin' Heq.
        rewrite Htasks, map_app in distinct_ids. cbn in distinct_ids.
        apply NoDup_remove_2 in distinct_ids. apply distinct_ids.
        apply in_or_app. left. rewrite <- Heq.
        apply in_map. apply (in_map fst) in Hin'. exact Hin'. }
      split; [|split].
      * apply processNextTask_idle; cbn; try assumption; try reflexivity.
        -- rewrite Hsize. reflexivity.
        -- lia.
        -- rewrite map_app, <- app_assoc. exact Htasks.
      * rewrite processNextTask_results. cbn [results].
        rewrite array_set_length; [exact Hlen|]. rewrite Hlen. apply ids_in_range. exact Hin.
      * intros t' m' Hin'. rewrite processNextTask_results. cbn [results].
        apply in_app_or in Hin'. destruct Hin' as [Hold|[Hnew|[]]].
        -- destruct (Hposted t' m' Hold) as [Hres Hby]. split; [|exact Hby].
           rewrite array_set_other; [exact Hres| |].
           ++ rewrite Hlen. apply ids_in_range. exact Hin.
           ++ intros Heq. exact (Hfresh t' m' Hold (eq_sym Heq)).
        -- injection Hnew as <- <-. split; [apply array_set_same|].
           exists random. apply onMessage_task.
    + exfalso. cbn [step] in Hstep. rewrite Hpool in Hstep. cbn [nth_error] in Hstep.
      destruct (nth_error (map idle (seq 1 p)) k) as [entry|] eqn:Hk; [|discriminate Hstep].
      apply nth_error_In, in_map_iff in Hk. destruct Hk as (i & <- & _).
      discriminate Hstep.
  - (* resolved: nothing is left to happen *)
    exfalso. destruct e as [k random|]; cbn [step] in Hstep;
      [|rewrite Htimers in Hstep; discriminate].
    rewrite Hpool in Hstep. unfold initializeWorkerPool in Hstep.
    destruct (nth_error (map idle (seq 0 size)) k) as [entry|] eqn:Hk; [|discriminate Hstep].
    apply nth_error_In, in_map_iff in Hk. destruct Hk as (i & <- & _).
    discriminate Hstep.
  - (* no worker: the poll timer re-arms itself *)
    destruct e as [k random|]; cbn [step] in Hstep.
    + rewrite Hpool in Hstep. destruct k; discriminate Hstep.
    + rewrite Htimers in Hstep. unfold processNextTask in Hstep.
      cbn [pendingTasks workerPool] in Hstep. rewrite Hpending, Hpool in Hstep.
      destruct tasks as [|t rest] eqn:Etasks; [congruence|].
      cbn in Hstep. injection Hstep as <- <-. rewrite app_nil_r.
      split; [|split; [exact Hlen|exact Hposted]].
      apply Phase_polling; cbn; auto; discriminate.
Qed.

Lemma run_Scheduled es : forall (s s' : Scheduler (number:=number)) posted new,
  Scheduled tasks size s posted ->
  run s es = Some (s', new) ->
  Scheduled tasks size s' (posted ++ new).
Proof.
  induction es as [|e es IH]; intros s s' posted new Hinv Hrun; cbn [run] in Hrun.
  - injection Hrun as <- <-. rewrite app_nil_r. exact Hinv.
  - destruct (step s e) as [[s1 new1]|] eqn:Hstep; [|discriminate Hrun].
    destruct (run s1 es) as [[s2 new2]|] eqn:Hrest; [|discriminate Hrun].
    injection Hrun as <- <-. rewrite app_assoc.
    apply (IH s1 s2); [|exact Hrest].
    exact (step_Scheduled Hinv Hstep).
Qed.

End Batch.

Lemma ids_of_permutation (tasks : list Task) :
  Permutation (map id tasks) (seq 0 (length tasks)) ->
  NoDup (map id tasks) /\
  forall t, In t tasks -> (id t < length tasks)%nat.
Proof.
  intros Hperm. split.
  - apply (Permutation_NoDup (Permutation_sym Hperm)). apply seq_NoDup.
  - intros t Hin.
    assert (Hid : In (id t) (seq 0 (length tasks))).
    { apply (Permutation_in _ Hperm). apply in_map. exact Hin. }
    apply in_seq in Hid. lia.
Qed.

(** Every run of [processTasksWithPool] on a fresh pool stays within the
    three phases, with every posted message stored at the index of its
    task. *)
Lemma run_of_batch size tasks es (s : Scheduler (number:=number)) posted :
  Permutation (map id tasks) (seq 0 (length tasks)) ->
  run (processTasksWithPool tasks (initializeWorkerPool size)) es = Some (s, posted) ->
  Scheduled tasks size s posted.
Proof.
  intros Hperm Hrun. destruct (ids_of_permutation Hperm) as [Hdistinct Hrange].
  change posted with ([] ++ posted).
  eapply (run_Scheduled Hdistinct Hrange); [apply start_Scheduled; assumption|exact Hrun].
Qed.

Lemma answered_all tasks size (s : Scheduler (number:=number)) answered :
  Phase tasks size answered s ->
  (promise s = Resolved <-> answered = tasks).
Proof.
  intros [t p Hsize Htasks Hpool Htimers Hpromise
         |Htasks Hpending Hpool Htimers Hpromise
         |Hsize Hanswered Hsome Hpending Hpool Htimers Hpromise].
  - split; intros E; [congruence|exfalso].
    apply (f_equal (@length Task)) in Htasks.
    rewrite E, length_app in Htasks. cbn in Htasks. lia.
  - split; intros _; [symmetry; exact Htasks|exact Hpromise].
  - split; intros E; [congruence|exfalso]. congruence.
Qed.

Lemma answered_prefix tasks size (s : Scheduler (number:=number)) answered :
  Phase tasks size answered s -> exists rest, tasks = answered ++ rest.
Proof.
  intros [t p Hsize Htasks Hpool Htimers Hpromise
         |Htasks Hpending Hpool Htimers Hpromise
         |Hsize Hanswered Hsome Hpending Hpool Htimers Hpromise].
  - eexists. exact Htasks.
  - exists []. rewrite app_nil_r. exact Htasks.
  - exists tasks. rewrite Hanswered. reflexivity.
Qed.

Lemma never_rejected tasks size (s : Scheduler (number:=number)) answered :
  Phase tasks size answered s -> promise s <> Rejected.
Proof. intros [ ]; congruence. Qed.

Lemma posted_for_answered (posted : list (Task * Message number)) t :
  In t (map fst posted) -> exists m, In (t, m) posted.
Proof.
  intros Hin. apply in_map_iff in Hin. destruct Hin as ([t' m] & Ht & Hin).
  cbn in Ht. subst t'. exists m. exact Hin.
Qed.

(** Whether [processTask] throws does not depend on the random numbers. *)
Lemma processTask_throws random random' (t : Task) error :
  processTask (number:=number) random t = Throw error ->
  processTask (number:=number) random' t = Throw error.
Proof.
  unfold processTask. destruct (String.eqb (type t) "cpu-intensive"); [discriminate|auto].
Qed.

(** With at least one worker, as many answers of the first worker as there
    are tasks left resolve the promise. *)
Lemma answers_resolve tasks size randoms :
  forall (s : Scheduler (number:=number)) answered,
  (0 < size)%nat ->
  Phase tasks size answered s ->
  (length answered + length randoms = length tasks)%nat ->
  exists s' posted,
    run s (map (Answer 0) randoms) = Some (s', posted) /\
    promise s' = Resolved.
Proof.
  induction randoms as [|random randoms IH]; intros s answered Hsize Hphase Hcount.
  - exists s, []. split; [reflexivity|].
    apply (answered_all Hphase).
    destruct (answered_prefix Hphase) as [rest Hrest].
    apply (f_equal (@length Task)) in Hrest as Hlen.
    rewrite length_app in Hlen. cbn in Hcount.
    destruct rest; [rewrite app_nil_r in Hrest; congruence|cbn in Hlen; lia].
  - destruct Hphase as [t p Hsz Htasks Hpool Htimers Hpromise
                       |Htasks Hpend Hpool Htimers Hpromise
                       |Hsz Hanswered Hsome Hpend Hpool Htimers Hpromise].
    + cbn [map run]. rewrite (step_answer_engaged random Hpool).
      destruct (IH (processNextTask
                      {| workerPool := initializeWorkerPool (S p);
                         results := array_set (id t)
                                      (match processTask random t with
                                       | Return result => Value result
                                       | Throw error => ErrorObject error
                                       end) (results s);
                         pendingTasks := pendingTasks s;
                         timers := timers s;
                         promise := promise s |})
                   (answered ++ [t]) Hsize) as (s' & posted & Hrun & Hres).
      * apply processNextTask_idle; cbn; try assumption.
        -- rewrite Hsz. reflexivity.
        -- rewrite <- app_assoc. exact Htasks.
      * rewrite length_app. cbn in *. lia.
      * rewrite Hrun. eexists. eexists. split; [reflexivity|exact Hres].
    + exfalso. rewrite Htasks in Hcount. cbn in Hcount. lia.
    + lia.
Qed.

(** C1. A batch of N tasks whose ids are 0..N-1, in any submission order,
    is handed to a fresh pool of P < N workers (the bound on P plays no
    part in the proof). Whatever the order in which worker answers and
    poll timers arrive,
    every message a worker has posted for a task is stored at the index of
    that task's id. The promise is resolved exactly when every task has
    been answered, and then the array has length N with, at each id, the
    message posted for the task of that id. With at least one worker the
    promise does get resolved: one answer per task is enough. *)
Theorem results_indexed_by_task_id
    (size : nat) (tasks : list Task) (es : list Event)
    (s : Scheduler (number:=number)) (posted : list (Task * Message number)) :
  Permutation (map id tasks) (seq 0 (length tasks)) ->
  (size < length tasks)%nat ->
  run (processTasksWithPool tasks (initializeWorkerPool size)) es = Some (s, posted) ->
  (forall t m, In (t, m) posted -> nth_error (results s) (id t) = Some (Some m)) /\
  (promise s = Resolved <-> map fst posted = tasks) /\
  (promise s = Resolved ->
   length (results s) = length tasks /\
   forall t, In t tasks ->
     exists m, In (t, m) posted /\ nth_error (results s) (id t) = Some (Some m)) /\
  ((0 < size)%nat ->
   forall randoms, length randoms = length tasks ->
   exists s' posted',
     run (processTasksWithPool tasks (initializeWorkerPool size))
         (map (Answer 0) randoms) = Some (s', posted') /\
     promise s' = Resolved).
Proof.
  intros Hperm _ Hrun.
  destruct (run_of_batch Hperm Hrun) as (Hphase & Hlen & Hposted).
  split; [|split; [|split]].
  - intros t m Hin. exact (proj1 (Hposted t m Hin)).
  - exact (answered_all Hphase).
  - intros Hres. split; [exact Hlen|]. intros t Hin.
    apply (answered_all Hphase) in Hres. rewrite <- Hres in Hin.
    destruct (posted_for_answered Hin) as [m Hm].
    exists m. split; [exact Hm|]. exact (proj1 (Hposted t m Hm)).
  - intros Hsize randoms Hcount.
    destruct (ids_of_permutation Hperm) as [Hdistinct Hrange].
    assert (Hstart : Scheduled tasks size
                       (processTasksWithPool tasks (initializeWorkerPool size)) [])
      by (apply start_Scheduled; assumption).
    apply (answers_resolve (tasks:=tasks) (answered:=[]) Hsize); [|exact Hcount].
    exact (proj1 Hstart).
Qed.

(** C2 (as amended). A task that throws does not reject the promise of
    [processTasksWithPool]: on no run is the promise rejected. The error
    object the worker posts for that task is in the results like any other
    message, no task is answered twice, and once every task has been
    answered the promise is resolved with an array that holds a message
    for every task of the batch. *)
Theorem failing_task_is_reported_in_results
    (size : nat) (tasks : list Task) (es : list Event)
    (s : Scheduler (number:=number)) (posted : list (Task * Message number)) :
  Permutation (map id tasks) (seq 0 (length tasks)) ->
  run (processTasksWithPool tasks (initializeWorkerPool size)) es = Some (s, posted) ->
  promise s <> Rejected /\
  NoDup (map fst posted) /\
  (forall t random error,
     In t (map fst posted) -> processTask (number:=number) random t = Throw error ->
     In (t, ErrorObject error) posted /\
     nth_error (results s) (id t) = Some (Some (ErrorObject error))) /\
  (map fst posted = tasks ->
   promise s = Resolved /\
   forall t, In t tasks -> exists m, nth_error (results s) (id t) = Some (Some m)).
Proof.
  intros Hperm Hrun.
  destruct (run_of_batch Hperm Hrun) as (Hphase & Hlen & Hposted).
  split; [|split; [|split]].
  - exact (never_rejected Hphase).
  - destruct (answered_prefix Hphase) as [rest Hrest].
    destruct (ids_of_permutation Hperm) as [Hdistinct _].
    apply NoDup_map_inv in Hdistinct. rewrite Hrest in Hdistinct.
    exact (NoDup_app_remove_r _ _ Hdistinct).
  - intros t random error Hin Hthrow.
    destruct (posted_for_answered Hin) as [m Hm].
    destruct (Hposted t m Hm) as [Hstored [random' Hby]].
    rewrite onMessage_task, (processTask_throws random' Hthrow) in Hby.
    injection Hby as <-. split; assumption.
  - intros Hall. split; [exact (proj2 (answered_all Hphase) Hall)|].
    intros t Hin. rewrite <- Hall in Hin.
    destruct (posted_for_answered Hin) as [m Hm].
    exists m. exact (proj1 (Hposted t m Hm)).
Qed.


End Pool.

Section PoolExamples.
Import PoolWorker WorkerThreadManager.

(** Three tasks submitted in the order of ids 2, 0, 1 to a pool of two
    workers, each answered in turn. *)
Lemma results_indexed_by_task_id_witness :
  let work i := {| id := i; complexity := 3; type := "cpu-intensive" |} in
  let tasks := [work 2%nat; work 0%nat; work 1%nat] in
  let answer := Answer 0 (fun _ : nat => 0%N) in
  exists s posted,
    run (processTasksWithPool tasks (initializeWorkerPool 2)) [answer; answer; answer]
      = Some (s, posted) /\
    promise s = Resolved /\
    length (results s) = 3%nat /\
    forall t, In t tasks ->
      exists m, In (t, m) posted /\ nth_error (results s) (id t) = Some (Some m).
Proof.
  intros work tasks answer.
  assert (Hperm : Permutation (map id tasks) (seq 0 (length tasks))).
  { exact (perm_trans (perm_swap 0%nat 2%nat [1%nat])
                      (perm_skip 0%nat (perm_swap 1%nat 2%nat []))). }
  destruct (run (processTasksWithPool tasks (initializeWorkerPool 2))
                [answer; answer; answer]) as [[s posted]|] eqn:Hrun.
  - exists s, posted.
    assert (Hsize : (2 < length tasks)%nat) by (cbn; lia).
    destruct (results_indexed_by_task_id Hperm Hsize Hrun) as (_ & _ & Hres & _).
    assert (Hp : promise s = Resolved).
    { vm_compute in Hrun. injection Hrun as <- _. reflexivity. }
    split; [reflexivity|]. split; [exact Hp|]. exact (Hres Hp).
  - vm_compute in Hrun. discriminate Hrun.
Defined.

(** C2 (as stated, refuted). Tasks 0, 1, 2 on a pool of two workers; task 1
    has an unknown type, so [processTask] throws for it. After the three
    answers the promise is resolved, not rejected, and the array holds the
    results of tasks 0 and 2 around the error object of task 1. *)
Lemma failing_task_resolves_the_promise :
  let random := fun _ : nat => 0%N in
  let t0 := {| id := 0; complexity := 3; type := "cpu-intensive" |} in
  let t1 := {| id := 1; complexity := 3; type := "io" |} in
  let t2 := {| id := 2; complexity := 3; type := "cpu-intensive" |} in
  processTask random t1 = Throw "Unknown task type: io" /\
  exists s posted,
    run (processTasksWithPool [t0; t1; t2] (initializeWorkerPool 2))
        [Answer 0 random; Answer 0 random; Answer 0 random] = Some (s, posted) /\
    promise s = Resolved /\
    promise s <> Rejected /\
    exists v0 v2,
      results s = [Some (Value v0); Some (ErrorObject "Unknown task type: io");
                   Some (Value v2)].
Proof.
  intros random t0 t1 t2. split; [reflexivity|].
  eexists. eexists. split; [vm_compute; reflexivity|].
  split; [reflexivity|]. split; [discriminate|].
  eexists. eexists. reflexivity.
Qed.

(** The same batch as an instance of the amended statement. *)
Lemma failing_task_is_reported_in_results_witness :
  let random := fun _ : nat => 0%N in
  let t0 := {| id := 0; complexity := 3; type := "cpu-intensive" |} in
  let t1 := {| id := 1; complexity := 3; type := "io" |} in
  let t2 := {| id := 2; complexity := 3; type := "cpu-intensive" |} in
  exists s posted,
    run (processTasksWithPool [t0; t1; t2] (initializeWorkerPool 2))
        [Answer 0 random; Answer 0 random; Answer 0 random] = Some (s, posted) /\
    promise s <> Rejected /\
    NoDup (map fst posted) /\
    nth_error (results s) 1 = Some (Some (ErrorObject "Unknown task type: io")).
Proof.
  intros random t0 t1 t2.
  assert (Hperm : Permutation (map id [t0; t1; t2]) (seq 0 (length [t0; t1; t2])))
    by apply Permutation_refl.
  destruct (run (processTasksWithPool [t0; t1; t2] (initializeWorkerPool 2))
                [Answer 0 random; Answer 0 random; Answer 0 random])
    as [[s posted]|] eqn:Hrun.
  - exists s, posted.
    destruct (failing_task_is_reported_in_results Hperm Hrun)
      as (Hnot & Hnodup & Herr & _).
    split; [reflexivity|]. split; [exact Hnot|]. split; [exact Hnodup|].
    apply (Herr t1 random); [|reflexivity].
    vm_compute in Hrun. injection Hrun as _ <-. cbn. auto.
  - vm_compute in Hrun. discriminate Hrun.
Defined.

End PoolExamples.

(** *** Shared memory: what [processSharedMemory] does to the buffer *)

Section SharedMemoryProcessing.
Import SharedMemory CpuWorker WorkerThreadManager.
Context {number : Type} `{JSNumber number}.

Lemma nth_error_write i v : forall cells j,
  nth_error (write i v cells) j =
  if (i =? j)%nat then option_map (fun _ => v) (nth_error cells j)
  else nth_error cells j.
Proof.
  induction i as [|i IH]; intros [|x cells] [|j]; cbn; try reflexivity.
  - destruct (i =? j)%nat; reflexivity.
  - apply IH.
Qed.

Lemma loads_effect i : forall (l : list nat) th,
  fold_left (fun t _ => log (PlainLoad i) t) l th =
  {| memory := memory th; accesses := accesses th ++ repeat (PlainLoad i) (length l);
     entropy := entropy th; draws := draws th |}.
Proof.
  induction l as [|k l IH]; intros th; cbn [fold_left length repeat].
  - rewrite app_nil_r. destruct th; reflexivity.
  - rewrite IH. unfold log. cbn [memory accesses entropy draws perform].
    rewrite <- app_assoc. reflexivity.
Qed.

Lemma update_effect reads f i th :
  update reads f i th =
  (Return tt,
   {| memory := match nth_error (memory th) i with
                | Some x => write i (f x) (memory th)
                | None => memory th
                end;
      accesses := accesses th ++ update_accesses reads f (memory th) i;
      entropy := entropy th; draws := draws th |}).
Proof.
  unfold update, update_accesses. destruct (nth_error (memory th) i) as [x|].
  - rewrite loads_effect, length_seq. unfold log.
    cbn [memory accesses entropy draws perform]. rewrite <- app_assoc. reflexivity.
  - rewrite app_nil_r. destruct th; reflexivity.
Qed.

Lemma covers_empty j lo : covers j (lo, lo) = false.
Proof.
  unfold covers. cbn [fst snd].
  destruct (lo <=? j)%nat eqn:E1, (j <? lo)%nat eqn:E2; try reflexivity.
  apply Nat.leb_le in E1. apply Nat.ltb_lt in E2. lia.
Qed.

(** The loop of [processSharedMemory] over [n] cells from [lo]. *)
Lemma counting_loop_update reads f : forall n lo count th,
  let r := counting_loop (update reads f) lo n count th in
  fst r = Return (count + n)%nat /\
  length (memory (snd r)) = length (memory th) /\
  (forall j, nth_error (memory (snd r)) j =
             if covers j (lo, (lo + n)%nat) then option_map f (nth_error (memory th) j)
             else nth_error (memory th) j) /\
  accesses (snd r) =
    accesses th ++ flat_map (update_accesses reads f (memory th)) (seq lo n) /\
  entropy (snd r) = entropy th /\
  draws (snd r) = draws th.
Proof.
  induction n as [|n IH]; intros lo count th; cbn zeta.
  - cbn [counting_loop ret fst snd seq flat_map].
    rewrite !Nat.add_0_r, app_nil_r. repeat split.
    intros j. rewrite covers_empty. reflexivity.
  - cbn [counting_loop]. unfold seq_run. rewrite update_effect.
    set (th1 := {| memory := _; accesses := _; entropy := _; draws := _ |}).
    destruct (IH (S lo) (S count) th1) as (Hret & Hlen & Hcells & Hacc & Hent & Hdr).
    assert (Hlen1 : length (memory th1) = length (memory th)).
    { unfold th1. cbn [memory]. destruct (nth_error (memory th) lo); [apply length_write|reflexivity]. }
    assert (Hcell1 : forall j, nth_error (memory th1) j =
                       if (lo =? j)%nat then option_map f (nth_error (memory th) j)
                       else nth_error (memory th) j).
    { intros j. unfold th1. cbn [memory].
      destruct (nth_error (memory th) lo) as [x|] eqn:Hlo.
      - rewrite nth_error_write. destruct (lo =? j)%nat eqn:E; [|reflexivity].
        apply Nat.eqb_eq in E. subst j. rewrite Hlo. reflexivity.
      - destruct (lo =? j)%nat eqn:E; [|reflexivity].
        apply Nat.eqb_eq in E. subst j. rewrite Hlo. reflexivity. }
    split; [rewrite Hret; f_equal; lia|].
    split; [rewrite Hlen; exact Hlen1|].
    split; [|split; [|split; [rewrite Hent; reflexivity|rewrite Hdr; reflexivity]]].
    + intros j. rewrite Hcells, Hcell1. unfold covers. cbn [fst snd].
      destruct (lo =? j)%nat eqn:E.
      * apply Nat.eqb_eq in E. subst j.
        replace (S lo <=? lo)%nat with false by (symmetry; apply Nat.leb_gt; lia).
        replace (lo <=? lo)%nat with true by (symmetry; apply Nat.leb_le; lia).
        replace (lo <? lo + S n)%nat with true by (symmetry; apply Nat.ltb_lt; lia).
        reflexivity.
      * apply Nat.eqb_neq in E.
        replace (S lo + n)%nat with (lo + S n)%nat by lia.
        replace (S lo <=? j)%nat with (lo <=? j)%nat; [reflexivity|].
        destruct (lo <=? j)%nat eqn:E1; symmetry.
        -- apply Nat.leb_le in E1. apply Nat.leb_le. lia.
        -- apply Nat.leb_gt in E1. apply Nat.leb_gt. lia.
    + rewrite Hacc. unfold th1 at 1. cbn [accesses seq flat_map].
      rewrite <- app_assoc. f_equal. f_equal.
      rewrite !flat_map_concat_map. f_equal. apply map_ext_in.
      intros k Hk. apply in_seq in Hk. unfold update_accesses.
      rewrite Hcell1. replace (lo =? k)%nat with false by (symmetry; apply Nat.eqb_neq; lia).
      reflexivity.
Qed.

(** The three operations, as the loop each of them is. *)
Lemma processSharedMemory_known startIndex endIndex :
  processSharedMemory startIndex endIndex "square" =
    counting_loop (update 2 (fun x => ToInt32 (round_double (x * x))))
                  startIndex (endIndex - startIndex) 0 /\
  processSharedMemory startIndex endIndex "sqrt" =
    counting_loop (update 1 (fun x => if (x <? 0)%Z then 0%Z else Z.sqrt x))
                  startIndex (endIndex - startIndex) 0 /\
  processSharedMemory startIndex endIndex "increment" =
    counting_loop (update 1 (fun x => ToInt32 (x + 1)))
                  startIndex (endIndex - startIndex) 0.
Proof. repeat split. Qed.

Lemma processSharedMemory_unknown startIndex endIndex operation :
  operation <> "square"%string -> operation <> "sqrt"%string ->
  operation <> "increment"%string ->
  processSharedMemory startIndex endIndex operation =
  throw ("Unknown operation: " ++ operation).
Proof.
  intros H1 H2 H3. unfold processSharedMemory.
  apply String.eqb_neq in H1, H2, H3. rewrite H1, H2, H3. reflexivity.
Qed.

Lemma covers_range j lo n :
  covers j (lo, (lo + n)%nat) = true <-> (lo <= j < lo + n)%nat.
Proof.
  unfold covers. cbn [fst snd]. rewrite andb_true_iff, Nat.leb_le, Nat.ltb_lt. tauto.
Qed.

Lemma covers_span j startIndex endIndex :
  covers j (startIndex, (startIndex + (endIndex - startIndex))%nat) =
  covers j (startIndex, endIndex).
Proof.
  unfold covers. cbn [fst snd].
  destruct (startIndex <=? j)%nat eqn:E1; [|reflexivity]. cbn [andb].
  apply Nat.leb_le in E1.
  destruct (j <? endIndex)%nat eqn:E2.
  - apply Nat.ltb_lt in E2. apply Nat.ltb_lt. lia.
  - apply Nat.ltb_ge in E2. apply Nat.ltb_ge. lia.
Qed.

(** X1. [processSharedMemory] with one of its three operations never
    throws and returns [endIndex - startIndex] (0 when the range is
    empty or reversed). It keeps the length of the buffer, replaces every
    cell of the array whose index is in [startIndex, endIndex) by the
    operation applied to it, with the 32-bit wrap of the store, and leaves
    every other cell as it was; indices of the range past the end of the
    array are counted but change nothing. Any other operation throws
    "Unknown operation: ..." before a cell is touched. *)
Theorem processSharedMemory_changes_its_range_only (startIndex endIndex : nat) (th : Thread) :
  let effect (operation : string) (f : Z -> Z) :=
    let r := processSharedMemory startIndex endIndex operation th in
    fst r = Return (endIndex - startIndex)%nat /\
    length (memory (snd r)) = length (memory th) /\
    forall i, nth_error (memory (snd r)) i =
              if covers i (startIndex, endIndex)
              then option_map f (nth_error (memory th) i)
              else nth_error (memory th) i in
  effect "square"%string (fun x => ToInt32 (round_double (x * x))) /\
  effect "sqrt"%string (fun x => if (x <? 0)%Z then 0%Z else Z.sqrt x) /\
  effect "increment"%string (fun x => ToInt32 (x + 1)) /\
  (forall operation,
     operation <> "square"%string -> operation <> "sqrt"%string ->
     operation <> "increment"%string ->
     processSharedMemory startIndex endIndex operation th =
     (Throw ("Unknown operation: " ++ operation), th)).
Proof.
  cbn zeta. destruct (processSharedMemory_known startIndex endIndex) as (E1 & E2 & E3).
  rewrite E1, E2, E3.
  repeat match goal with |- _ /\ _ => split end;
    try (intros operation H1 H2 H3;
         rewrite (processSharedMemory_unknown startIndex endIndex H1 H2 H3); reflexivity);
    match goal with
    | |- context [counting_loop (update ?reads ?f) ?lo ?n ?count th] =>
        destruct (counting_loop_update reads f n lo count th)
          as (Hret & Hlen & Hcells & _)
    end;
    try exact Hret; try exact Hlen;
    intros i; rewrite Hcells, covers_span; reflexivity.
Qed.

(** The accesses of the loop: each cell of the range that the array has
    is loaded and then stored to, in the order of the indices. *)
Lemma update_accesses_in_range reads f cells lo n :
  Forall (fun a => is_atomic a = false /\ (lo <= cell_of a < lo + n)%nat /\
                   (cell_of a < length cells)%nat)
         (flat_map (update_accesses reads f cells) (seq lo n)).
Proof.
  apply Forall_forall. intros a Hin. apply in_flat_map in Hin.
  destruct Hin as (k & Hk & Ha). apply in_seq in Hk. unfold update_accesses in Ha.
  destruct (nth_error cells k) as [x|] eqn:Hx; [|destruct Ha].
  assert (Hlt : (k < length cells)%nat) by (apply nth_error_Some; congruence).
  apply in_app_or in Ha. destruct Ha as [Ha|[<-|[]]].
  - apply repeat_spec in Ha. subst a. cbn. repeat split; lia.
  - cbn. repeat split; lia.
Qed.

Lemma update_accesses_agree reads f cells cells' lo n :
  (forall i, (lo <= i < lo + n)%nat -> nth_error cells' i = nth_error cells i) ->
  flat_map (update_accesses reads f cells') (seq lo n) =
  flat_map (update_accesses reads f cells) (seq lo n).
Proof.
  intros Hagree. rewrite !flat_map_concat_map. f_equal. apply map_ext_in.
  intros k Hk. apply in_seq in Hk. unfold update_accesses. rewrite Hagree by lia.
  reflexivity.
Qed.

Lemma filter_repeat_load i k reads :
  filter (writes_to i) (repeat (PlainLoad k) reads) = [].
Proof. induction reads as [|reads IH]; [reflexivity|exact IH]. Qed.

Lemma update_accesses_stores reads f cells i : forall n lo,
  length (filter (writes_to i) (flat_map (update_accesses reads f cells) (seq lo n))) =
  if covers i (lo, (lo + n)%nat) && (i <? length cells)%nat then 1%nat else 0%nat.
Proof.
  induction n as [|n IH]; intros lo.
  - cbn [seq flat_map filter length]. rewrite Nat.add_0_r, covers_empty. reflexivity.
  - cbn [seq flat_map]. rewrite filter_app, length_app, IH.
    replace (lo + S n)%nat with (S lo + n)%nat by lia.
    unfold update_accesses, covers. cbn [fst snd].
    destruct (nth_error cells lo) as [x|] eqn:Hlo.
    + assert (Hlt : (lo < length cells)%nat) by (apply nth_error_Some; congruence).
      rewrite filter_app, filter_repeat_load. cbn [app filter writes_to].
      destruct (lo =? i)%nat eqn:E.
      * apply Nat.eqb_eq in E. subst i. cbn [length].
        replace (S lo <=? lo)%nat with false by (symmetry; apply Nat.leb_gt; lia).
        replace (lo <=? lo)%nat with true by (symmetry; apply Nat.leb_le; lia).
        replace (lo <? S lo + n)%nat with true by (symmetry; apply Nat.ltb_lt; lia).
        replace (lo <? length cells)%nat with true by (symmetry; apply Nat.ltb_lt; lia).
        reflexivity.
      * apply Nat.eqb_neq in E. cbn [length plus].
        replace (S lo <=? i)%nat with (lo <=? i)%nat; [reflexivity|].
        destruct (lo <=? i)%nat eqn:E1; symmetry.
        -- apply Nat.leb_le in E1. apply Nat.leb_le. lia.
        -- apply Nat.leb_gt in E1. apply Nat.leb_gt. lia.
    + apply nth_error_None in Hlo. cbn [filter length plus].
      destruct (i <? length cells)%nat eqn:E2.
      * apply Nat.ltb_lt in E2.
        replace (S lo <=? i)%nat with false by (symmetry; apply Nat.leb_gt; lia).
        replace (lo <=? i)%nat with false by (symmetry; apply Nat.leb_gt; lia).
        reflexivity.
      * rewrite !andb_false_r. reflexivity.
Qed.

(** X2. Whatever the operation, [processSharedMemory] accesses the buffer
    with plain loads and stores only, and only at cells of its range
    [startIndex, endIndex) that the array has; it stores exactly once to
    each of them. What it returns and the accesses it makes, with the
    values it stores, depend on the cells of its own range alone: a thread
    whose buffer differs elsewhere goes through the same accesses. *)
Theorem processSharedMemory_stays_in_its_range
    (startIndex endIndex : nat) (operation : string) (th : Thread) :
  exists new,
    accesses (snd (processSharedMemory startIndex endIndex operation th)) =
      accesses th ++ new /\
    Forall (fun a => is_atomic a = false /\
                     (startIndex <= cell_of a < endIndex)%nat /\
                     (cell_of a < length (memory th))%nat) new /\
    (forall processedCount,
       fst (processSharedMemory startIndex endIndex operation th) = Return processedCount ->
       forall i, length (filter (writes_to i) new) =
                 if covers i (startIndex, endIndex) && (i <? length (memory th))%nat
                 then 1%nat else 0%nat) /\
    (forall th',
       (forall i, (startIndex <= i < endIndex)%nat ->
                  nth_error (memory th') i = nth_error (memory th) i) ->
       fst (processSharedMemory startIndex endIndex operation th') =
         fst (processSharedMemory startIndex endIndex operation th) /\
       accesses (snd (processSharedMemory startIndex endIndex operation th')) =
         accesses th' ++ new).
Proof.
  assert (Hloop : forall reads f,
    exists new,
      accesses (snd (counting_loop (update reads f) startIndex (endIndex - startIndex) 0 th)) =
        accesses th ++ new /\
      Forall (fun a => is_atomic a = false /\
                       (startIndex <= cell_of a < endIndex)%nat /\
                       (cell_of a < length (memory th))%nat) new /\
      (forall i, length (filter (writes_to i) new) =
                 if covers i (startIndex, endIndex) && (i <? length (memory th))%nat
                 then 1%nat else 0%nat) /\
      (forall th',
         (forall i, (startIndex <= i < endIndex)%nat ->
                    nth_error (memory th') i = nth_error (memory th) i) ->
         fst (counting_loop (update reads f) startIndex (endIndex - startIndex) 0 th') =
           fst (counting_loop (update reads f) startIndex (endIndex - startIndex) 0 th) /\
         accesses (snd (counting_loop (update reads f) startIndex (endIndex - startIndex) 0 th')) =
           accesses th' ++ new)).
  { intros reads f.
    exists (flat_map (update_accesses reads f (memory th))
                     (seq startIndex (endIndex - startIndex))).
    destruct (counting_loop_update reads f (endIndex - startIndex) startIndex 0 th)
      as (Hret & _ & _ & Hacc & _).
    split; [exact Hacc|]. split; [|split].
    - eapply Forall_impl; [|apply update_accesses_in_range].
      cbn beta. intros a (Ha & Hr & Hl). repeat split; try assumption; lia.
    - intros i. rewrite update_accesses_stores, covers_span. reflexivity.
    - intros th' Hagree.
      destruct (counting_loop_update reads f (endIndex - startIndex) startIndex 0 th')
        as (Hret' & _ & _ & Hacc' & _).
      split; [rewrite Hret', Hret; reflexivity|].
      rewrite Hacc'. f_equal. apply update_accesses_agree.
      intros i Hi. apply Hagree. lia. }
  assert (Hknown : forall reads f,
    exists new,
      accesses (snd (counting_loop (update reads f) startIndex (endIndex - startIndex) 0 th)) =
        accesses th ++ new /\
      Forall (fun a => is_atomic a = false /\
                       (startIndex <= cell_of a < endIndex)%nat /\
                       (cell_of a < length (memory th))%nat) new /\
      (forall processedCount,
         fst (counting_loop (update reads f) startIndex (endIndex - startIndex) 0 th) =
           Return processedCount ->
         forall i, length (filter (writes_to i) new) =
                   if covers i (startIndex, endIndex) && (i <? length (memory th))%nat
                   then 1%nat else 0%nat) /\
      (forall th',
         (forall i, (startIndex <= i < endIndex)%nat ->
                    nth_error (memory th') i = nth_error (memory th) i) ->
         fst (counting_loop (update reads f) startIndex (endIndex - startIndex) 0 th') =
           fst (counting_loop (update reads f) startIndex (endIndex - startIndex) 0 th) /\
         accesses (snd (counting_loop (update reads f) startIndex (endIndex - startIndex) 0 th')) =
           accesses th' ++ new)).
  { intros reads f. destruct (Hloop reads f) as (new & H1 & H2 & H3 & H4).
    exists new. repeat split; try assumption; try (apply H4; assumption).
    intros _ _. exact H3. }
  unfold processSharedMemory.
  destruct (String.eqb operation "square"); [apply Hknown|].
  destruct (String.eqb operation "sqrt"); [apply Hknown|].
  destruct (String.eqb operation "increment"); [apply Hknown|].
  exists []. cbn [throw fst snd]. rewrite app_nil_r.
  split; [reflexivity|]. split; [constructor|]. split.
  - intros processedCount Hret. discriminate Hret.
  - intros th' _. rewrite app_nil_r. split; reflexivity.
Qed.

End SharedMemoryProcessing.

(** *** parallelProcessing: the four workers on one buffer *)

Section ParallelSquaring.
Import SharedMemory CpuWorker WorkerThreadManager.
Context {number : Type} `{JSNumber number}.

(** The accesses of a worker that [parallelProcessing] starts. *)
Lemma squaring_worker_accesses cells entropy (data : WorkerData) :
  type data = "shared-memory-process"%string ->
  operation data = "square"%string ->
  worker_accesses (number:=number) cells entropy data =
  flat_map (update_accesses 2 (fun x => ToInt32 (round_double (x * x))) cells)
           (seq (CpuWorker.startIndex data)
                (CpuWorker.endIndex data - CpuWorker.startIndex data)).
Proof.
  intros Htype Hop. unfold worker_accesses, main, dispatch. rewrite Htype.
  cbn [String.eqb Ascii.eqb Bool.eqb]. unfold seq_run. rewrite Hop.
  destruct (processSharedMemory_known (CpuWorker.startIndex data) (CpuWorker.endIndex data))
    as (-> & _ & _).
  set (th := {| memory := cells; accesses := []; entropy := entropy; draws := 0 |}).
  destruct (counting_loop_update 2 (fun x => ToInt32 (round_double (x * x)))
              (CpuWorker.endIndex data - CpuWorker.startIndex data)
              (CpuWorker.startIndex data) 0 th) as (Hret & _ & _ & Hacc & _).
  destruct (counting_loop _ _ _ _ th) as [[n|m] th']; cbn [fst snd] in *;
    [|discriminate Hret].
  cbn [ret snd]. exact Hacc.
Qed.

Lemma assignments_square bufferSize workerCount :
  Forall (fun data => type data = "shared-memory-process"%string /\
                      operation data = "square"%string)
         (assignments bufferSize workerCount).
Proof.
  unfold assignments. apply Forall_map. apply Forall_forall. intros i _.
  split; reflexivity.
Qed.

(** An interleaving holds each access of its threads once. *)
Lemma Interleaving_Permutation threads trace :
  Interleaving threads trace -> Permutation (concat threads) trace.
Proof.
  induction 1 as [threads Hnil|before a rest after trace Hrest IH].
  - apply concat_nil_Forall in Hnil. rewrite Hnil. constructor.
  - rewrite concat_app in *. cbn [concat app] in *.
    apply Permutation_sym, Permutation_cons_app, Permutation_sym. exact IH.
Qed.

Lemma Permutation_filter_length {A} (p : A -> bool) (l l' : list A) :
  Permutation l l' -> length (filter p l) = length (filter p l').
Proof.
  induction 1 as [|x l l' _ IH|x y l|l l' l'' _ IH1 _ IH2]; cbn [filter].
  - reflexivity.
  - destruct (p x); cbn [length]; rewrite IH; reflexivity.
  - destruct (p x), (p y); reflexivity.
  - rewrite IH1. exact IH2.
Qed.

Lemma filter_existsb {A} (p : A -> bool) (l : list A) :
  (1 <= length (filter p l))%nat -> existsb p l = true.
Proof.
  induction l as [|x l IH]; cbn [filter existsb length]; [lia|].
  destruct (p x); [reflexivity|exact IH].
Qed.

(** A cell after a trace whose stores to a cell [k] all store [g k]. *)
Lemma after_cell (g : nat -> Z) : forall trace cells i,
  Forall (fun a => match a with
                   | PlainLoad _ => True
                   | PlainStore k v | AtomicStore k v => v = g k
                   end) trace ->
  nth_error (after trace cells) i =
  if existsb (writes_to i) trace then option_map (fun _ => g i) (nth_error cells i)
  else nth_error cells i.
Proof.
  induction trace as [|a trace IH]; intros cells i Hall; [reflexivity|].
  inversion Hall as [|? ? Ha Hrest]; subst.
  unfold after in *. cbn [fold_left existsb]. rewrite (IH _ _ Hrest).
  destruct a as [k|k v|k v]; cbn [perform writes_to orb]; try reflexivity;
    rewrite nth_error_write; destruct (k =? i)%nat eqn:E; cbn [orb]; try reflexivity;
    apply Nat.eqb_eq in E; subst k v;
    destruct (nth_error cells i), (existsb (writes_to i) trace); reflexivity.
Qed.

(** How often the workers of [ds] store to a cell of the array. *)
Lemma squaring_workers_stores cells entropy i : forall ds : list WorkerData,
  Forall (fun data => type data = "shared-memory-process"%string /\
                      operation data = "square"%string) ds ->
  (i < length cells)%nat ->
  length (filter (writes_to i)
            (concat (map (worker_accesses (number:=number) cells entropy) ds))) =
  length (filter (covers i) (map range ds)).
Proof.
  induction ds as [|d ds IH]; intros Hall Hi; [reflexivity|].
  inversion Hall as [|? ? [Htype Hop] Hrest]; subst.
  cbn [map concat filter]. rewrite filter_app, length_app, (IH Hrest Hi).
  rewrite (squaring_worker_accesses cells entropy Htype Hop), update_accesses_stores.
  rewrite covers_span. unfold range.
  replace (i <? length cells)%nat with true by (symmetry; apply Nat.ltb_lt; exact Hi).
  rewrite andb_true_r.
  destruct (covers i (CpuWorker.startIndex d, CpuWorker.endIndex d)); reflexivity.
Qed.

Lemma squaring_workers_values cells entropy (ds : list WorkerData) :
  Forall (fun data => type data = "shared-memory-process"%string /\
                      operation data = "square"%string) ds ->
  Forall (Forall (fun a =>
            match a with
            | PlainLoad _ => True
            | PlainStore k v | AtomicStore k v =>
                v = ToInt32 (round_double (nth k cells 0%Z * nth k cells 0%Z))
            end))
         (map (worker_accesses (number:=number) cells entropy) ds).
Proof.
  intros Hall. apply Forall_map. eapply Forall_impl; [|exact Hall].
  cbn beta. intros d [Htype Hop].
  rewrite (squaring_worker_accesses cells entropy Htype Hop).
  apply Forall_flat_map. apply Forall_forall. intros k _.
  unfold update_accesses. destruct (nth_error cells k) as [x|] eqn:Hx; [|constructor].
  cbn [repeat app]. repeat constructor.
  rewrite (nth_error_nth _ _ 0%Z Hx). reflexivity.
Qed.

(** The buffer after any interleaving of squaring workers whose ranges
    hold every cell of the array at least once, and the number of stores
    to each cell. *)
Lemma squaring_interleaved cells entropy (ds : list WorkerData) trace :
  Forall (fun data => type data = "shared-memory-process"%string /\
                      operation data = "square"%string) ds ->
  (forall i, (i < length cells)%nat ->
             (1 <= length (filter (covers i) (map range ds)))%nat) ->
  Interleaving (map (worker_accesses (number:=number) cells entropy) ds) trace ->
  (forall i, (i < length cells)%nat ->
             length (filter (writes_to i) trace) =
             length (filter (covers i) (map range ds))) /\
  after trace cells = map (fun x => ToInt32 (round_double (x * x))) cells.
Proof.
  intros Hall Hcover Hinter.
  assert (Hcount : forall i, (i < length cells)%nat ->
                     length (filter (writes_to i) trace) =
                     length (filter (covers i) (map range ds))).
  { intros i Hi.
    rewrite <- (@Permutation_filter_length _ (writes_to i) _ _
                  (Interleaving_Permutation Hinter)).
    apply squaring_workers_stores; assumption. }
  split; [exact Hcount|].
  apply nth_error_ext. intros i.
  rewrite (@after_cell (fun k => ToInt32 (round_double (nth k cells 0%Z * nth k cells 0%Z)))).
  - rewrite nth_error_map.
    destruct (nth_error cells i) as [x|] eqn:Hx.
    + assert (Hi : (i < length cells)%nat) by (apply nth_error_Some; congruence).
      rewrite filter_existsb by (rewrite Hcount by exact Hi; apply Hcover; exact Hi).
      cbn [option_map]. rewrite (nth_error_nth _ _ 0%Z Hx). reflexivity.
    + destruct (existsb (writes_to i) trace); reflexivity.
  - apply (Interleaving_Forall Hinter). apply squaring_workers_values. exact Hall.
Qed.

(** X3. The four workers that [parallelProcessing] starts on a buffer,
    each taken with the accesses it makes to the cells of its own range:
    however these accesses interleave, no access is atomic, every cell of
    the buffer is stored to exactly once, and at the end every cell holds
    the square of what it held, with the 32-bit wrap of the store. *)
Theorem parallelProcessing_squares_every_cell_once
    (cells : Int32Array) (entropy : nat -> Q) (trace : list Access) :
  Interleaving (map (worker_accesses (number:=number) cells entropy)
                    (parallelProcessing (length cells)))
               trace ->
  Forall (fun a => is_atomic a = false) trace /\
  (forall i, (i < length cells)%nat -> length (filter (writes_to i) trace) = 1%nat) /\
  after trace cells = map (fun x => ToInt32 (round_double (x * x))) cells.
Proof.
  intros Hinter.
  assert (Hall := assignments_square (length cells) workerCount).
  assert (Hone : forall i, (i < length cells)%nat ->
                   length (filter (covers i) (map range (parallelProcessing (length cells)))) =
                   1%nat).
  { intros i Hi. rewrite parallelProcessing_partition.
    replace (i <? length cells)%nat with true by (symmetry; apply Nat.ltb_lt; exact Hi).
    reflexivity. }
  destruct (@squaring_interleaved cells entropy (parallelProcessing (length cells)) trace Hall)
    as [Hcount Hafter]; [intros i Hi; rewrite (Hone i Hi); lia|exact Hinter|].
  split; [|split; [|exact Hafter]].
  - apply (Interleaving_Forall Hinter). apply Forall_map.
    eapply Forall_impl; [|exact Hall]. cbn beta. intros d [Htype Hop].
    rewrite (squaring_worker_accesses cells entropy Htype Hop).
    eapply Forall_impl; [|apply update_accesses_in_range].
    cbn beta. intros a (Ha & _). exact Ha.
  - intros i Hi. rewrite (Hcount i Hi). exact (Hone i Hi).
Qed.

End ParallelSquaring.

Section ParallelSquaringExample.
Import SharedMemory CpuWorker WorkerThreadManager.

(** Five cells, the four workers run one after the other. *)
Lemma parallelProcessing_squares_every_cell_once_witness :
  let cells := [3; -1; 2; 46341; 4]%Z in
  let traces := map (worker_accesses (number:=N) cells (fun _ => 0))
                    (parallelProcessing (length cells)) in
  Interleaving traces (concat traces) /\
  after (concat traces) cells = [9; 1; 4; -2147479015; 16]%Z.
Proof.
  intros cells traces.
  assert (Hinter : Interleaving traces (concat traces)) by apply Interleaving_sequential.
  split; [exact Hinter|].
  destruct (parallelProcessing_squares_every_cell_once (number:=N) Hinter) as (_ & _ & ->).
  reflexivity.
Defined.

End ParallelSquaringExample.

Section Verification.
Import SharedMemory CpuWorker WorkerThreadManager.
Context {number : Type} `{JSNumber number}.

Lemma ToInt32_small z : (- 2 ^ 31 <= z < 2 ^ 31)%Z -> ToInt32 z = z.
Proof.
  intros Hz. unfold ToInt32. rewrite Z.mod_small; lia.
Qed.

Lemma round_double_small n : (Z.abs n < 2 ^ 53)%Z -> round_double n = n.
Proof.
  intros Hn. unfold round_double. apply Z.ltb_lt in Hn. cbn zeta. rewrite Hn. reflexivity.
Qed.

Lemma square_small x :
  (Z.abs x <= 46340)%Z -> ToInt32 (round_double (x * x)) = (x * x)%Z.
Proof.
  intros Hx. rewrite round_double_small by nia. apply ToInt32_small. nia.
Qed.

Lemma nth_error_seq i : forall n s,
  (i < n)%nat -> nth_error (seq s n) i = Some (s + i)%nat.
Proof.
  induction i as [|i IH]; intros [|n] s Hlt; try lia; cbn [seq nth_error].
  - rewrite Nat.add_0_r. reflexivity.
  - rewrite IH by lia. f_equal. lia.
Qed.

Lemma sharedMemoryDemo_cell bufferSize i :
  (i < bufferSize)%nat ->
  nth_error (sharedMemoryDemo bufferSize) i = Some (ToInt32 (Z.of_nat i)).
Proof.
  intros Hi. unfold sharedMemoryDemo. rewrite nth_error_map, nth_error_seq by exact Hi.
  reflexivity.
Qed.

Lemma sharedMemoryDemo_length bufferSize : length (sharedMemoryDemo bufferSize) = bufferSize.
Proof. unfold sharedMemoryDemo. rewrite length_map, length_seq. reflexivity. Qed.

Lemma squared_cell bufferSize i :
  (i < bufferSize)%nat -> (Z.of_nat i <= 46340)%Z ->
  nth_error (map (fun x => ToInt32 (round_double (x * x))) (sharedMemoryDemo bufferSize)) i =
  Some (Z.of_nat i * Z.of_nat i)%Z.
Proof.
  intros Hi Hsmall. rewrite nth_error_map, sharedMemoryDemo_cell by exact Hi.
  cbn [option_map]. rewrite (ToInt32_small (z:=Z.of_nat i)) by lia.
  rewrite square_small by lia. reflexivity.
Qed.

Lemma verification_sum_ext cells cells' bufferSize :
  (forall i, (i < Nat.min 100 bufferSize)%nat -> nth_error cells i = nth_error cells' i) ->
  verification_sum bufferSize cells = verification_sum bufferSize cells'.
Proof.
  intros Hagree. unfold verification_sum.
  assert (Hin : forall i, In i (seq 0 (Nat.min 100 bufferSize)) ->
                  nth_error cells i = nth_error cells' i).
  { intros i Hi. apply in_seq in Hi. apply Hagree. lia. }
  generalize (Some 0%Z). revert Hin.
  induction (seq 0 (Nat.min 100 bufferSize)) as [|k l IH]; intros Hin acc; [reflexivity|].
  cbn [fold_left]. rewrite (Hin k) by (left; reflexivity).
  apply IH. intros i Hi. apply Hin. right. exact Hi.
Qed.

Lemma short_buffers_fail :
  forallb (fun bufferSize =>
             negb (verified bufferSize
                     (map (fun x => ToInt32 (round_double (x * x)))
                          (sharedMemoryDemo bufferSize))))
          (seq 0 100) = true.
Proof. vm_compute. reflexivity. Qed.

(** X4. [parallelProcessing] on the buffer [sharedMemoryDemo] hands it,
    cell [i] holding [i]: however the accesses of the four workers
    interleave, every cell [i <= 46340] ends up holding [i * i]; cell
    46341, when the buffer has it, holds the wrapped value -2147479015.
    The check of the first [min(100, bufferSize)] cells against
    0^2 + ... + 99^2 succeeds exactly when the buffer has at least 100
    cells: on a shorter buffer "Processing failed" is printed although
    every cell was squared. *)
Theorem parallelProcessing_verification
    (bufferSize : nat) (entropy : nat -> Q) (trace : list Access) :
  Interleaving (map (worker_accesses (number:=number) (sharedMemoryDemo bufferSize) entropy)
                    (parallelProcessing bufferSize))
               trace ->
  let cells := after trace (sharedMemoryDemo bufferSize) in
  (forall i, (i < bufferSize)%nat -> (Z.of_nat i <= 46340)%Z ->
             nth_error cells i = Some (Z.of_nat i * Z.of_nat i)%Z) /\
  ((46341 < Z.of_nat bufferSize)%Z ->
   nth_error cells (Z.to_nat 46341) = Some (-2147479015)%Z) /\
  verified bufferSize cells = (100 <=? bufferSize)%nat.
Proof.
  intros Hinter cells.
  assert (Hcells : cells = map (fun x => ToInt32 (round_double (x * x)))
                               (sharedMemoryDemo bufferSize)).
  { unfold cells. rewrite <- (sharedMemoryDemo_length bufferSize) in Hinter at 2.
    assert (Hall := assignments_square (length (sharedMemoryDemo bufferSize)) workerCount).
    destruct (@squaring_interleaved _ _ (sharedMemoryDemo bufferSize) entropy
                (parallelProcessing (length (sharedMemoryDemo bufferSize))) trace Hall)
      as [_ Hafter]; [|exact Hinter|exact Hafter].
    intros i Hi. rewrite parallelProcessing_partition.
    replace (i <? length (sharedMemoryDemo bufferSize))%nat with true
      by (symmetry; apply Nat.ltb_lt; exact Hi).
    lia. }
  rewrite Hcells. split; [|split].
  - intros i Hi Hsmall. apply squared_cell; assumption.
  - intros Hlong. rewrite nth_error_map, sharedMemoryDemo_cell by lia.
    rewrite Z2Nat.id by lia. reflexivity.
  - destruct (Nat.leb_spec 100 bufferSize) as [Hlong|Hshort].
    + unfold verified.
      rewrite (@verification_sum_ext _ (map (fun i => (Z.of_nat i * Z.of_nat i)%Z) (seq 0 100))).
      * replace (verification_sum bufferSize
                   (map (fun i => (Z.of_nat i * Z.of_nat i)%Z) (seq 0 100)))
          with (Some expectedSum); [apply Z.eqb_refl|].
        unfold verification_sum. rewrite Nat.min_l by exact Hlong.
        vm_compute. reflexivity.
      * intros i Hi. rewrite squared_cell by lia.
        rewrite nth_error_map, nth_error_seq by lia. reflexivity.
    + pose proof (proj1 (forallb_forall _ _) short_buffers_fail bufferSize) as Hfail.
      apply negb_true_iff. apply Hfail. apply in_seq. lia.
Qed.

(** X5. [processSharedMemory] with "square" and then with "sqrt" over the
    same range: a cell of the range that held [x] holds [|x|] afterwards
    when [|x| <= 46340], so a small non-negative value is restored; a value
    with [46341 <= |x| <= 65535] is lost, the cell ends at 0, because its
    square wraps to a negative number whose root is NaN. *)
Theorem square_then_sqrt
    (startIndex endIndex : nat) (th : Thread) (i : nat) (x : Z) :
  covers i (startIndex, endIndex) = true ->
  nth_error (memory th) i = Some x ->
  let squared := snd (processSharedMemory startIndex endIndex "square" th) in
  let restored := snd (processSharedMemory startIndex endIndex "sqrt" squared) in
  ((Z.abs x <= 46340)%Z -> nth_error (memory restored) i = Some (Z.abs x)) /\
  ((46341 <= Z.abs x <= 65535)%Z -> nth_error (memory restored) i = Some 0%Z).
Proof.
  intros Hcov Hx squared restored.
  destruct (processSharedMemory_known startIndex endIndex) as (E1 & E2 & _).
  assert (Hcell : nth_error (memory restored) i =
            Some ((fun y => if (y <? 0)%Z then 0%Z else Z.sqrt y)
                    (ToInt32 (round_double (x * x))))).
  { unfold restored, squared. rewrite E1, E2.
    destruct (counting_loop_update 2 (fun x => ToInt32 (round_double (x * x)))
                (endIndex - startIndex) startIndex 0 th) as (_ & _ & Hsq & _).
    destruct (counting_loop_update 1 (fun x => if (x <? 0)%Z then 0%Z else Z.sqrt x)
                (endIndex - startIndex) startIndex 0
                (snd (counting_loop (update 2 (fun x => ToInt32 (round_double (x * x))))
                        startIndex (endIndex - startIndex) 0 th))) as (_ & _ & Hrt & _).
    rewrite Hrt, Hsq, covers_span, Hcov, Hx. reflexivity. }
  rewrite Hcell. cbn beta. split; intros Hsize.
  - rewrite square_small by exact Hsize.
    replace (x * x <? 0)%Z with false by (symmetry; apply Z.ltb_ge; nia).
    f_equal. rewrite <- Z.abs_square. apply Z.sqrt_square. lia.
  - rewrite round_double_small by nia.
    assert (Hneg : (ToInt32 (x * x) < 0)%Z).
    { unfold ToInt32.
      replace ((x * x + 2 ^ 31) mod 2 ^ 32)%Z with (x * x + 2 ^ 31 - 2 ^ 32)%Z; [nia|].
      apply Z.mod_unique with (q := 1%Z); [left|]; nia. }
    apply Z.ltb_lt in Hneg. rewrite Hneg. reflexivity.
Qed.

End Verification.

Section VerificationExamples.
Import SharedMemory CpuWorker WorkerThreadManager.

(** A buffer of five cells: the check fails though the cells are squared. *)
Lemma parallelProcessing_verification_witness :
  let traces := map (worker_accesses (number:=N) (sharedMemoryDemo 5) (fun _ => 0))
                    (parallelProcessing 5) in
  Interleaving traces (concat traces) /\
  after (concat traces) (sharedMemoryDemo 5) = [0; 1; 4; 9; 16]%Z /\
  verified 5 (after (concat traces) (sharedMemoryDemo 5)) = false.
Proof.
  intros traces.
  assert (Hinter : Interleaving traces (concat traces)) by apply Interleaving_sequential.
  split; [exact Hinter|]. split; [reflexivity|].
  destruct (parallelProcessing_verification (number:=N) Hinter) as (_ & _ & ->).
  reflexivity.
Defined.

(** Cells 3, -7 and 50000 in the range [0, 3). *)
Lemma square_then_sqrt_witness :
  let th := {| memory := [3; -7; 50000]%Z; accesses := []; entropy := fun _ => 0;
               draws := 0 |} in
  let squared := snd (processSharedMemory 0 3 "square" th) in
  let restored := snd (processSharedMemory 0 3 "sqrt" squared) in
  nth_error (memory restored) 1 = Some 7%Z /\ memory restored = [3; 7; 0]%Z.
Proof.
  intros th squared restored. split; [|reflexivity].
  assert (Hcov : covers 1 (0, 3)%nat = true) by reflexivity.
  assert (Hx : nth_error (memory th) 1 = Some (-7)%Z) by reflexivity.
  destruct (square_then_sqrt Hcov Hx) as [Hsmall _].
  apply Hsmall. cbn. lia.
Defined.

End VerificationExamples.

(** *** updateSharedMemory: where the random stores go *)

Section RandomUpdates.
Import SharedMemory CpuWorker WorkerThreadManager.
Context {number : Type} `{JSNumber number}.

(** [Math.floor(Math.random() * n)] for a positive integer [n]. *)
Lemma random_below (r : Q) (n : Z) :
  0 <= r -> r < 1 -> (0 < n)%Z -> (0 <= Qfloor (r * inject_Z n) < n)%Z.
Proof.
  intros Hlo Hhi Hn.
  assert (Hq : inject_Z 0 < inject_Z n) by (rewrite <- Zlt_Qlt; exact Hn).
  split.
  - rewrite <- (Qfloor_Z 0). apply Qfloor_resp_le.
    apply Qmult_le_0_compat; [exact Hlo|apply Qlt_le_weak; exact Hq].
  - rewrite Zlt_Qlt. apply Qle_lt_trans with (y := r * inject_Z n); [apply Qfloor_le|].
    apply Qlt_le_trans with (y := 1 * inject_Z n).
    + apply Qmult_lt_compat_r; assumption.
    + rewrite Qmult_1_l. apply Qle_refl.
Qed.

(** One turn of the loop of [updateSharedMemory] on a buffer that has
    cells, with random numbers in [0, 1). *)
Lemma random_store th :
  memory th <> [] ->
  (forall k, 0 <= entropy th k /\ entropy th k < 1) ->
  exists i v,
    (i < length (memory th))%nat /\ (0 <= v <= 999)%Z /\
    seq_run Math_random (fun r1 =>
      seq_run array_length (fun len =>
        seq_run Math_random (fun r2 =>
          Atomics_store (Qfloor (r1 * inject_Z (Z.of_nat len))) (Qfloor (r2 * 1000))))) th =
    (Return tt,
     {| memory := write i v (memory th);
        accesses := accesses th ++ [AtomicStore i v];
        entropy := entropy th;
        draws := S (S (draws th)) |}).
Proof.
  intros Hcells Hrandom.
  assert (Hlen : (0 < Z.of_nat (length (memory th)))%Z).
  { destruct (memory th); [congruence|cbn [length]; lia]. }
  destruct (Hrandom (draws th)) as [Hlo1 Hhi1].
  destruct (Hrandom (S (draws th))) as [Hlo2 Hhi2].
  pose proof (random_below Hlo1 Hhi1 Hlen) as Hindex.
  assert (Hvalue : (0 <= Qfloor (entropy th (S (draws th)) * 1000) < 1000)%Z).
  { change 1000 with (inject_Z 1000). apply random_below; [assumption|assumption|lia]. }
  exists (Z.to_nat (Qfloor (entropy th (draws th) * inject_Z (Z.of_nat (length (memory th)))))),
         (Qfloor (entropy th (S (draws th)) * 1000)).
  split; [lia|]. split; [lia|].
  unfold seq_run, Math_random, array_length, Atomics_store.
  cbn [memory accesses entropy draws].
  replace (0 <=? _)%Z with true by (symmetry; apply Z.leb_le; lia).
  replace (_ <? _)%Z with true by (symmetry; apply Z.ltb_lt; lia).
  cbn [andb]. unfold log. cbn [memory accesses entropy draws perform].
  rewrite ToInt32_small by lia. reflexivity.
Qed.

Lemma random_stores : forall n lo count th,
  memory th <> [] ->
  (forall k, 0 <= entropy th k /\ entropy th k < 1) ->
  let r := counting_loop
             (fun _ : nat =>
                seq_run Math_random (fun r1 =>
                  seq_run array_length (fun len =>
                    seq_run Math_random (fun r2 =>
                      Atomics_store (Qfloor (r1 * inject_Z (Z.of_nat len)))
                                    (Qfloor (r2 * 1000))))))
             lo n count th in
  fst r = Return (count + n)%nat /\
  length (memory (snd r)) = length (memory th) /\
  entropy (snd r) = entropy th /\
  draws (snd r) = (draws th + 2 * n)%nat /\
  (forall i y, nth_error (memory (snd r)) i = Some y ->
               nth_error (memory th) i = Some y \/ (0 <= y <= 999)%Z) /\
  exists new,
    accesses (snd r) = accesses th ++ new /\
    length new = n /\
    Forall (fun a => exists i v, a = AtomicStore i v /\
                                 (i < length (memory th))%nat /\ (0 <= v <= 999)%Z) new.
Proof.
  induction n as [|n IH]; intros lo count th Hcells Hrandom; cbn zeta.
  - cbn [counting_loop ret fst snd]. rewrite !Nat.add_0_r.
    repeat match goal with |- _ /\ _ => split end; try reflexivity.
    + intros i y Hy. left. exact Hy.
    + exists []. rewrite app_nil_r. repeat split. constructor.
  - destruct (random_store Hcells Hrandom) as (i & v & Hi & Hv & Hstep).
    match type of Hstep with _ = (_, ?t) => set (th1 := t) in * end.
    match goal with
    | |- context [counting_loop ?body lo (S n) count th] =>
        assert (Hnext : counting_loop body lo (S n) count th =
                        counting_loop body (S lo) n (S count) th1)
          by (cbn [counting_loop]; unfold seq_run at 1; rewrite Hstep; reflexivity)
    end.
    rewrite Hnext.
    assert (Hlen1 : length (memory th1) = length (memory th)) by apply length_write.
    destruct (IH (S lo) (S count) th1) as (Hret & Hlen & Hent & Hdr & Hold & new & Hacc & Hnew & Hall).
    { intros Hnil. apply (f_equal (@length Z)) in Hnil. rewrite Hlen1 in Hnil.
      destruct (memory th); [congruence|discriminate Hnil]. }
    { exact Hrandom. }
    repeat match goal with |- _ /\ _ => split end.
    + rewrite Hret. f_equal. lia.
    + rewrite Hlen. exact Hlen1.
    + exact Hent.
    + rewrite Hdr. unfold th1. cbn [draws]. lia.
    + intros j y Hy. destruct (Hold j y Hy) as [Hprev|Hrange]; [|right; exact Hrange].
      unfold th1 in Hprev. cbn [memory] in Hprev. rewrite nth_error_write in Hprev.
      destruct (i =? j)%nat; [|left; exact Hprev].
      destruct (nth_error (memory th) j); [|discriminate Hprev].
      injection Hprev as <-. right. exact Hv.
    + exists (AtomicStore i v :: new). rewrite Hacc. unfold th1. cbn [accesses].
      rewrite <- app_assoc. split; [reflexivity|]. split; [cbn [length]; lia|].
      constructor.
      * exists i, v. repeat split; try assumption; lia.
      * rewrite Hlen1 in Hall. exact Hall.
Qed.

(** X6. On a buffer that has at least one cell and with random numbers in
    [0, 1), [updateSharedMemory] never throws and returns [updateCount].
    It draws two random numbers per update and performs exactly
    [updateCount] accesses, each an atomic store to a cell of the array of
    a value between 0 and 999; the buffer keeps its length, and each cell
    ends with the value it had or with a value between 0 and 999. *)
Theorem updateSharedMemory_stores_within_the_buffer
    (updateCount workerId : nat) (th : Thread) :
  memory th <> [] ->
  (forall k, 0 <= entropy th k /\ entropy th k < 1) ->
  let r := updateSharedMemory updateCount workerId th in
  fst r = Return updateCount /\
  length (memory (snd r)) = length (memory th) /\
  draws (snd r) = (draws th + 2 * updateCount)%nat /\
  (forall i y, nth_error (memory (snd r)) i = Some y ->
               nth_error (memory th) i = Some y \/ (0 <= y <= 999)%Z) /\
  exists new,
    accesses (snd r) = accesses th ++ new /\
    length new = updateCount /\
    Forall (fun a => exists i v, a = AtomicStore i v /\
                                 (i < length (memory th))%nat /\ (0 <= v <= 999)%Z) new.
Proof.
  intros Hcells Hrandom. unfold updateSharedMemory.
  destruct (random_stores updateCount 0 0 Hcells Hrandom)
    as (Hret & Hlen & _ & Hdr & Hold & Hnew).
  repeat match goal with |- _ /\ _ => split end; assumption.
Qed.

(** X7. On a buffer without cells the first update fails: the index
    [Math.floor(Math.random() * 0)] is 0, no cell of the array, so
    [Atomics.store] throws its RangeError. For every positive
    [updateCount] the worker posts the error object, having stored
    nothing. *)
Theorem updateSharedMemory_on_empty_buffer
    (data : WorkerData) (th : Thread) :
  type data = "shared-memory-update"%string ->
  memory th = [] ->
  (0 < updateCount data)%nat ->
  fst (updateSharedMemory (updateCount data) (workerId data) th) =
    Throw "Invalid atomic access index" /\
  fst (main (number:=number) data th) =
    PostMessage (ErrorObject "Invalid atomic access index") /\
  accesses (snd (main (number:=number) data th)) = accesses th /\
  memory (snd (main (number:=number) data th)) = [].
Proof.
  intros Htype Hcells Hcount.
  assert (Hthrow : exists th',
            updateSharedMemory (updateCount data) (workerId data) th =
              (Throw "Invalid atomic access index", th') /\
            accesses th' = accesses th /\ memory th' = []).
  { unfold updateSharedMemory. destruct (updateCount data) as [|n]; [lia|].
    cbn [counting_loop]. unfold seq_run, Math_random, array_length, Atomics_store.
    cbn [memory accesses entropy draws]. rewrite Hcells. cbn [length Z.of_nat].
    replace (Qfloor (entropy th (draws th) * inject_Z 0)) with 0%Z.
    - cbn. eexists. split; [reflexivity|]. split; reflexivity.
    - unfold Qfloor, Qmult, inject_Z. cbn [Qnum Qden].
      rewrite Z.mul_0_r. reflexivity. }
  destruct Hthrow as (th' & Hrun & Hacc & Hmem).
  split; [rewrite Hrun; reflexivity|].
  unfold main, dispatch. rewrite Htype. cbn [String.eqb Ascii.eqb Bool.eqb].
  unfold seq_run. rewrite Hrun. cbn [fst snd]. repeat split; assumption.
Qed.

End RandomUpdates.

Section RandomUpdatesExamples.
Import SharedMemory CpuWorker WorkerThreadManager.

(** Three updates of a buffer of four cells, every random number 1/2. *)
Lemma updateSharedMemory_stores_within_the_buffer_witness :
  let th := {| memory := [7; 7; 7; 7]%Z; accesses := []; entropy := fun _ => 1 # 2;
               draws := 0 |} in
  fst (updateSharedMemory 3 0 th) = Return 3%nat /\
  memory (snd (updateSharedMemory 3 0 th)) = [7; 7; 500; 7]%Z.
Proof.
  intros th.
  assert (Hcells : memory th <> []) by discriminate.
  assert (Hrandom : forall k, 0 <= entropy th k /\ entropy th k < 1).
  { intros k. unfold Qle, Qlt. cbn. lia. }
  destruct (updateSharedMemory_stores_within_the_buffer 3 0 Hcells Hrandom) as (Hret & _).
  split; [exact Hret|reflexivity].
Defined.

(** A worker of [concurrentUpdates] started on an empty buffer. *)
Lemma updateSharedMemory_on_empty_buffer_witness :
  let data := {| CpuWorker.type := "shared-memory-update"; CpuWorker.iterations := 0;
                 CpuWorker.workerId := 1; CpuWorker.startIndex := 0;
                 CpuWorker.endIndex := 0; CpuWorker.operation := EmptyString;
                 CpuWorker.updateCount := 5 |} in
  let th := {| memory := []; accesses := []; entropy := fun _ => 1 # 2; draws := 0 |} in
  fst (main (number:=N) data th) = PostMessage (ErrorObject "Invalid atomic access index").
Proof.
  intros data th.
  assert (Htype : type data = "shared-memory-update"%string) by reflexivity.
  assert (Hcells : memory th = []) by reflexivity.
  assert (Hcount : (0 < updateCount data)%nat) by (cbn; lia).
  exact (proj1 (proj2 (updateSharedMemory_on_empty_buffer (number:=N) Htype Hcells Hcount))).
Defined.

End RandomUpdatesExamples.

(** *** The worker pool: how a batch is scheduled *)

Section PoolSchedule.
Import PoolWorker WorkerThreadManager.
Context {number : Type} `{JSNumber number}.

(** One turn of the event loop keeps the call within its three phases;
    what it posts is stored at the id of its task. *)
Lemma step_Phase tasks size (s s' : Scheduler (number:=number)) answered e new :
  Phase tasks size answered s ->
  step s e = Some (s', new) ->
  Phase tasks size (answered ++ map fst new) s' /\
  results s' = fold_left (fun r p => array_set (id (fst p)) (snd p) r) new (results s) /\
  Forall (fun p => exists random,
            onMessage random {| message_type := "task"; task := fst p |} =
            Some (PostMessage (snd p))) new.
Proof.
  intros Hphase Hstep.
  destruct Hphase as [t p Hsize Htasks Hpool Htimers Hpromise
                     |Htasks Hpending Hpool Htimers Hpromise
                     |Hsize Hanswered Hsome Hpending Hpool Htimers Hpromise].
  - destruct e as [[|k] random|]; [| |cbn [step] in Hstep; rewrite Htimers in Hstep; discriminate].
    + rewrite (step_answer_engaged random Hpool) in Hstep.
      injection Hstep as <- <-. cbn [map fst snd fold_left].
      rewrite processNextTask_results. cbn [results].
      split; [|split; [reflexivity|]].
      * apply processNextTask_idle; cbn; try assumption; try reflexivity.
        -- rewrite Hsize. reflexivity.
        -- lia.
        -- rewrite <- app_assoc. exact Htasks.
      * constructor; [|constructor]. exists random. apply onMessage_task.
    + exfalso. cbn [step] in Hstep. rewrite Hpool in Hstep. cbn [nth_error] in Hstep.
      destruct (nth_error (map idle (seq 1 p)) k) as [entry|] eqn:Hk; [|discriminate Hstep].
      apply nth_error_In, in_map_iff in Hk. destruct Hk as (i & <- & _).
      discriminate Hstep.
  - exfalso. destruct e as [k random|]; cbn [step] in Hstep;
      [|rewrite Htimers in Hstep; discriminate].
    rewrite Hpool in Hstep. unfold initializeWorkerPool in Hstep.
    destruct (nth_error (map idle (seq 0 size)) k) as [entry|] eqn:Hk; [|discriminate Hstep].
    apply nth_error_In, in_map_iff in Hk. destruct Hk as (i & <- & _).
    discriminate Hstep.
  - destruct e as [k random|]; cbn [step] in Hstep.
    + rewrite Hpool in Hstep. destruct k; discriminate Hstep.
    + rewrite Htimers in Hstep. unfold processNextTask in Hstep.
      cbn [pendingTasks workerPool] in Hstep. rewrite Hpending, Hpool in Hstep.
      destruct tasks as [|t rest] eqn:Etasks; [congruence|].
      cbn in Hstep. injection Hstep as <- <-. cbn [map fold_left]. rewrite app_nil_r.
      split; [|split; [reflexivity|constructor]].
      apply Phase_polling; cbn; auto; discriminate.
Qed.

Lemma run_Phase tasks size es : forall (s s' : Scheduler (number:=number)) answered new,
  Phase tasks size answered s ->
  run s es = Some (s', new) ->
  Phase tasks size (answered ++ map fst new) s' /\
  results s' = fold_left (fun r p => array_set (id (fst p)) (snd p) r) new (results s) /\
  Forall (fun p => exists random,
            onMessage random {| message_type := "task"; task := fst p |} =
            Some (PostMessage (snd p))) new.
Proof.
  induction es as [|e es IH]; intros s s' answered new Hphase Hrun; cbn [run] in Hrun.
  - injection Hrun as <- <-. cbn [map fold_left]. rewrite app_nil_r.
    split; [exact Hphase|]. split; [reflexivity|constructor].
  - destruct (step s e) as [[s1 new1]|] eqn:Hstep; [|discriminate Hrun].
    destruct (run s1 es) as [[s2 new2]|] eqn:Hrest; [|discriminate Hrun].
    injection Hrun as <- <-.
    destruct (step_Phase Hphase Hstep) as (Hphase1 & Hres1 & Hby1).
    destruct (IH s1 s2 _ new2 Hphase1 Hrest) as (Hphase2 & Hres2 & Hby2).
    rewrite map_app, app_assoc, fold_left_app, <- Hres1.
    split; [exact Hphase2|]. split; [exact Hres2|].
    apply Forall_app. split; assumption.
Qed.

Lemma start_Phase tasks size :
  Phase tasks size [] (processTasksWithPool (number:=number) tasks (initializeWorkerPool size)).
Proof.
  unfold processTasksWithPool. destruct size as [|p].
  - unfold processNextTask. cbn [pendingTasks workerPool].
    destruct tasks as [|t rest] eqn:Etasks.
    + apply Phase_resolved; reflexivity.
    + cbn. apply Phase_polling; cbn; try reflexivity. discriminate.
  - apply processNextTask_idle; cbn; try reflexivity. lia.
Qed.

(** Every run of [processTasksWithPool] on a fresh pool, whatever the ids
    of its tasks. *)
Lemma run_of_any_batch tasks size es (s : Scheduler (number:=number)) posted :
  run (processTasksWithPool tasks (initializeWorkerPool size)) es = Some (s, posted) ->
  Phase tasks size (map fst posted) s /\
  results s = fold_left (fun r p => array_set (id (fst p)) (snd p) r) posted
                        (repeat None (length tasks)) /\
  Forall (fun p => exists random,
            onMessage random {| message_type := "task"; task := fst p |} =
            Some (PostMessage (snd p))) posted.
Proof.
  intros Hrun.
  destruct (run_Phase (start_Phase tasks size) Hrun) as (Hphase & Hres & Hby).
  split; [exact Hphase|]. split; [|exact Hby].
  rewrite Hres. unfold processTasksWithPool. rewrite processNextTask_results. reflexivity.
Qed.

Lemma idle_pool_entry a n k e :
  nth_error (map idle (seq a n)) k = Some e -> e = idle (a + k).
Proof.
  intros Hk. rewrite nth_error_map in Hk.
  destruct (nth_error (seq a n) k) as [i|] eqn:Hi; [|discriminate Hk].
  injection Hk as <-.
  assert (Hlt : (k < n)%nat).
  { rewrite <- (length_seq n a). apply nth_error_Some. congruence. }
  rewrite nth_error_seq in Hi by exact Hlt. injection Hi as <-. reflexivity.
Qed.

Lemma idle_pool_quiet a n :
  filter busy (map idle (seq a n)) = [] /\
  flat_map (fun e => inbox (worker e)) (map idle (seq a n)) = [] /\
  flat_map (fun e => listeners (worker e)) (map idle (seq a n)) = [].
Proof.
  revert a. induction n as [|n IH]; intros a; [repeat split|].
  destruct (IH (S a)) as (H1 & H2 & H3). cbn [seq map filter flat_map idle busy worker inbox listeners app].
  repeat split; assumption.
Qed.

(** X8. [processTasksWithPool] keeps one task in flight. In every state a
    run on a fresh pool reaches, whatever the tasks and the size of the
    pool: at most one worker is busy, at most one task message is
    unanswered and one listener installed, and the workers after the first
    are as [initializeWorkerPool] made them, never handed a task. With at
    least one worker the [setTimeout(processNextTask, 10)] retry is never
    armed. *)
Theorem pool_keeps_one_task_in_flight
    (size : nat) (tasks : list Task) (es : list Event)
    (s : Scheduler (number:=number)) (posted : list (Task * Message number)) :
  run (processTasksWithPool tasks (initializeWorkerPool size)) es = Some (s, posted) ->
  length (workerPool s) = size /\
  (length (filter busy (workerPool s)) <= 1)%nat /\
  (length (flat_map (fun e => inbox (worker e)) (workerPool s)) <= 1)%nat /\
  (length (flat_map (fun e => listeners (worker e)) (workerPool s)) <= 1)%nat /\
  (forall k e, (1 <= k)%nat -> nth_error (workerPool s) k = Some e -> e = idle k) /\
  ((0 < size)%nat -> timers s = 0%nat).
Proof.
  intros Hrun. destruct (run_of_any_batch Hrun) as (Hphase & _).
  destruct Hphase as [t p Hsize Htasks Hpool Htimers Hpromise
                     |Htasks Hpending Hpool Htimers Hpromise
                     |Hsize Hanswered Hsome Hpending Hpool Htimers Hpromise];
    rewrite Hpool.
  - destruct (idle_pool_quiet 1 p) as (Hb & Hi & Hl).
    cbn [filter flat_map engaged busy worker inbox listeners app length].
    rewrite Hb, Hi, Hl, length_map, length_seq. cbn [length].
    repeat match goal with |- _ /\ _ => split end; try lia.
    intros [|k] e Hk Hnth; [lia|]. cbn [nth_error] in Hnth.
    apply idle_pool_entry in Hnth. exact Hnth.
  - unfold initializeWorkerPool. destruct (idle_pool_quiet 0 size) as (Hb & Hi & Hl).
    rewrite Hb, Hi, Hl, length_map, length_seq. cbn [length].
    repeat match goal with |- _ /\ _ => split end; try lia.
    intros k e _ Hnth. apply idle_pool_entry in Hnth. exact Hnth.
  - cbn [filter flat_map length].
    repeat match goal with |- _ /\ _ => split end; try lia.
    intros k e _ Hnth. destruct k; discriminate Hnth.
Qed.

(** X9. [processTasksWithPool] answers the tasks in the order of the array
    it is given: on every run the tasks answered so far are a prefix of
    the batch, in order, followed by the task that is in flight, if any,
    and the tasks still pending. *)
Theorem pool_answers_in_submission_order
    (size : nat) (tasks : list Task) (es : list Event)
    (s : Scheduler (number:=number)) (posted : list (Task * Message number)) :
  run (processTasksWithPool tasks (initializeWorkerPool size)) es = Some (s, posted) ->
  tasks = map fst posted ++ pendingTasks s \/
  exists t, tasks = map fst posted ++ t :: pendingTasks s /\
            nth_error (workerPool s) 0 = Some (engaged t).
Proof.
  intros Hrun. destruct (run_of_any_batch Hrun) as (Hphase & _).
  destruct Hphase as [t p Hsize Htasks Hpool Htimers Hpromise
                     |Htasks Hpending Hpool Htimers Hpromise
                     |Hsize Hanswered Hsome Hpending Hpool Htimers Hpromise].
  - right. exists t. rewrite Hpool. split; [exact Htasks|reflexivity].
  - left. rewrite Hpending, app_nil_r. exact Htasks.
  - left. rewrite Hanswered, Hpending. reflexivity.
Qed.

Lemma array_get_set {A} i (v : A) j : forall array,
  array_get j (array_set i v array) = if (i =? j)%nat then Some v else array_get j array.
Proof.
  unfold array_get. revert j.
  induction i as [|i IH]; intros [|j] [|x array]; cbn; try reflexivity.
  - destruct j; reflexivity.
  - specialize (IH j []). destruct (i =? j)%nat; rewrite IH; [reflexivity|].
    destruct j; reflexivity.
  - apply IH.
Qed.

Lemma array_set_grows {A} i (v : A) : forall array,
  length (array_set i v array) = Nat.max (length array) (S i).
Proof.
  induction i as [|i IH]; intros [|x array]; cbn [array_set length].
  - reflexivity.
  - lia.
  - rewrite IH. cbn [length]. lia.
  - rewrite IH. lia.
Qed.

Lemma stored_get_other (posted : list (Task * Message number)) k : forall array,
  (forall p, In p posted -> id (fst p) <> k) ->
  array_get k (fold_left (fun r p => array_set (id (fst p)) (snd p) r) posted array) =
  array_get k array.
Proof.
  induction posted as [|p posted IH]; intros array Hother; [reflexivity|].
  cbn [fold_left]. rewrite IH by (intros q Hq; apply Hother; right; exact Hq).
  rewrite array_get_set.
  destruct (Nat.eqb_spec (id (fst p)) k) as [E|E]; [|reflexivity].
  exfalso. apply (Hother p); [left; reflexivity|exact E].
Qed.

Lemma stored_length (posted : list (Task * Message number)) : forall array,
  length (fold_left (fun r p => array_set (id (fst p)) (snd p) r) posted array) =
  Nat.max (length array) (list_max (map (fun p => S (id (fst p))) posted)).
Proof.
  induction posted as [|p posted IH]; intros array; cbn [fold_left map list_max fold_right].
  - lia.
  - rewrite IH, array_set_grows. fold (list_max (map (fun p => S (id (fst p))) posted)). lia.
Qed.

Lemma repeat_None_get {A} k n : array_get k (repeat (@None A) n) = None.
Proof.
  unfold array_get. destruct (nth_error (repeat None n) k) as [[v|]|] eqn:Hk; try reflexivity.
  apply nth_error_In, repeat_spec in Hk. discriminate Hk.
Qed.

(** X10. What [results] holds when the ids of the tasks are array
    indices (integers from 0 to 2^32 - 2), in any order and with
    repetitions. On every run: the entry at an id is the message of the task
    answered last with that id, so of two tasks with the same id the
    earlier answer is overwritten; an index that is the id of no answered
    task reads [undefined]; and the array has the length
    [new Array(tasks.length)] gave it unless an answered task has an id at
    or beyond it, which extends the array to that id plus one. *)
Theorem results_follow_the_last_answer_per_id
    (size : nat) (tasks : list Task) (es : list Event)
    (s : Scheduler (number:=number)) (posted : list (Task * Message number)) :
  (forall t, In t tasks -> array_index (id t)) ->
  run (processTasksWithPool tasks (initializeWorkerPool size)) es = Some (s, posted) ->
  (forall earlier t m later,
     posted = earlier ++ (t, m) :: later ->
     (forall p, In p later -> id (fst p) <> id t) ->
     array_get (id t) (results s) = Some m) /\
  (forall k, (forall p, In p posted -> id (fst p) <> k) ->
             array_get k (results s) = None) /\
  length (results s) =
    Nat.max (length tasks) (list_max (map (fun p => S (id (fst p))) posted)).
Proof.
  intros _ Hrun. destruct (run_of_any_batch Hrun) as (_ & Hres & _). rewrite Hres.
  split; [|split].
  - intros earlier t m later -> Hlater.
    rewrite fold_left_app. cbn [fold_left fst snd].
    rewrite stored_get_other by exact Hlater.
    rewrite array_get_set, Nat.eqb_refl. reflexivity.
  - intros k Hnone. rewrite stored_get_other by exact Hnone. apply repeat_None_get.
  - rewrite stored_length, repeat_length. reflexivity.
Qed.

(** The state of a call on a pool without workers. *)
Lemma empty_pool_polls (tasks : list Task) :
  tasks <> [] ->
  processTasksWithPool (number:=number) tasks [] =
  {| workerPool := []; results := repeat None (length tasks); pendingTasks := tasks;
     timers := 1; promise := Pending |} /\
  (forall k random, step (processTasksWithPool (number:=number) tasks []) (Answer k random) = None) /\
  step (processTasksWithPool (number:=number) tasks []) PollTimer =
    Some (processTasksWithPool tasks [], []).
Proof.
  intros Hsome. destruct tasks as [|t rest]; [congruence|].
  split; [reflexivity|]. split; [|reflexivity].
  intros [|k] random; reflexivity.
Qed.

(** X11. [processTasksWithPool] on a pool without workers (before
    [initializeWorkerPool], or after [cleanupWorkerPool]) with at least one
    task never settles its promise: each run of the 10 ms timer finds no
    worker and arms the timer again, leaving the state as it was, and
    nothing else can happen, so no task is ever sent and nothing is
    posted. *)
Theorem empty_pool_polls_forever (tasks : list Task) :
  tasks <> [] ->
  promise (processTasksWithPool (number:=number) tasks []) = Pending /\
  timers (processTasksWithPool (number:=number) tasks []) = 1%nat /\
  (forall n, run (processTasksWithPool (number:=number) tasks []) (repeat PollTimer n) =
             Some (processTasksWithPool tasks [], [])) /\
  (forall es s posted,
     run (processTasksWithPool (number:=number) tasks []) es = Some (s, posted) ->
     s = processTasksWithPool tasks [] /\ posted = [] /\ es = repeat PollTimer (length es)).
Proof.
  intros Hsome. destruct (empty_pool_polls Hsome) as (Hstate & Hanswer & Hpoll).
  split; [rewrite Hstate; reflexivity|]. split; [rewrite Hstate; reflexivity|]. split.
  - induction n as [|n IH]; [reflexivity|].
    cbn [repeat run]. rewrite Hpoll, IH. reflexivity.
  - induction es as [|e es IH]; intros s posted Hrun; cbn [run] in Hrun.
    + injection Hrun as <- <-. repeat split.
    + destruct e as [k random|].
      * rewrite Hanswer in Hrun. discriminate Hrun.
      * rewrite Hpoll in Hrun.
        destruct (run (processTasksWithPool tasks []) es) as [[s1 posted1]|] eqn:Hrest;
          [|discriminate Hrun].
        injection Hrun as <- <-. destruct (IH s1 posted1 eq_refl) as (Hs & Hp & Hes).
        cbn [length repeat]. rewrite <- Hes, Hp. repeat split. exact Hs.
Qed.

(** X12. When the promise of [processTasksWithPool] is resolved, the pool
    is as [initializeWorkerPool] made it: every worker idle, no task
    message unanswered, no listener left installed, no task pending and no
    timer armed. From then on no worker answer and no timer of the call
    can occur. *)
Theorem resolved_pool_is_fresh_again
    (size : nat) (tasks : list Task) (es : list Event)
    (s : Scheduler (number:=number)) (posted : list (Task * Message number)) :
  run (processTasksWithPool tasks (initializeWorkerPool size)) es = Some (s, posted) ->
  promise s = Resolved ->
  workerPool s = initializeWorkerPool size /\
  pendingTasks s = [] /\
  timers s = 0%nat /\
  map fst posted = tasks /\
  (forall e, step s e = None).
Proof.
  intros Hrun Hres. destruct (run_of_any_batch Hrun) as (Hphase & _).
  destruct Hphase as [t p Hsize Htasks Hpool Htimers Hpromise
                     |Htasks Hpending Hpool Htimers Hpromise
                     |Hsize Hanswered Hsome Hpending Hpool Htimers Hpromise];
    try congruence.
  repeat match goal with |- _ /\ _ => split end; try assumption; try (symmetry; assumption).
  intros [k random|]; cbn [step]; [|rewrite Htimers; reflexivity].
  rewrite Hpool. unfold initializeWorkerPool.
  destruct (nth_error (map idle (seq 0 size)) k) as [entry|] eqn:Hk; [|reflexivity].
  apply idle_pool_entry in Hk. subst entry. reflexivity.
Qed.

End PoolSchedule.

Section WorkerPoolTask.
Import PoolWorker WorkerThreadManager.
Context {number : Type} `{JSNumber number}.

Lemma workerPoolTask_ids :
  Permutation (map id workerPoolTask_tasks) (seq 0 (length workerPoolTask_tasks)).
Proof.
  unfold workerPoolTask_tasks. rewrite map_map, length_map, length_seq. cbn [id].
  rewrite map_id. apply Permutation_refl.
Qed.

Lemma workerPoolTask_task i t :
  nth_error workerPoolTask_tasks i = Some t ->
  id t = i /\ type t = "cpu-intensive"%string /\
  complexity t = (1000000 + N.of_nat i * 500000)%N.
Proof.
  unfold workerPoolTask_tasks. intros Hi. rewrite nth_error_map in Hi.
  destruct (nth_error (seq 0 taskCount) i) as [k|] eqn:Hk; [|discriminate Hi].
  assert (Hlt : (i < taskCount)%nat).
  { rewrite <- (length_seq taskCount 0). apply nth_error_Some. congruence. }
  rewrite nth_error_seq in Hk by exact Hlt. injection Hk as <-.
  cbn [option_map] in Hi.
  apply (f_equal (fun o => match o with Some x => x | None => t end)) in Hi.
  subst t. repeat split.
Qed.

(** The lines [forEach] prints for an array that holds a number at every
    index, one for each task. *)
Lemma show_results_values (tasks : list Task) :
  forall (array : list (option (Message number))) i,
  (forall k r, nth_error array k = Some r ->
     exists t x, nth_error tasks (i + k) = Some t /\ r = Some (Value x)) ->
  exists lines,
    show_results tasks i array = Return lines /\ length lines = length array.
Proof.
  induction array as [|r array IH]; intros i Hall.
  - exists []. split; reflexivity.
  - destruct (Hall 0%nat r eq_refl) as (t & x & Ht & ->).
    rewrite Nat.add_0_r in Ht. cbn [show_results]. rewrite Ht.
    destruct (IH (S i)) as (lines & -> & Hlen).
    { intros k r Hk. destruct (Hall (S k) r Hk) as (t' & x' & Ht' & Hr).
      exists t', x'. split; [|exact Hr]. rewrite <- Ht'. f_equal. lia. }
    eexists. split; [reflexivity|]. cbn [length]. rewrite Hlen. reflexivity.
Qed.

(** X13. The batch that [workerPoolTask] builds: 20 tasks with the ids
    0..19, all of type 'cpu-intensive', for a pool of [min(4, cpus)]
    workers. With at least one CPU, one answer of the first worker per
    task resolves the promise of [processTasksWithPool]. On whatever run
    the promise resolves, the array has 20 entries and entry [i] is the
    number [performCPUIntensiveWork(1000000 + i * 500000)] of the pool
    worker, never an error object and never a hole; so the [forEach] that
    calls [result.toFixed] prints 20 lines and does not throw. *)
Theorem workerPoolTask_shows_twenty_numbers
    (cpus : nat) (randoms : list (nat -> number)) :
  (1 <= cpus)%nat ->
  length randoms = 20%nat ->
  (exists s posted,
     run (processTasksWithPool workerPoolTask_tasks (initializeWorkerPool (poolSize cpus)))
         (map (Answer 0) randoms) = Some (s, posted) /\
     promise s = Resolved) /\
  (forall es (s : Scheduler (number:=number)) posted,
     run (processTasksWithPool workerPoolTask_tasks (initializeWorkerPool (poolSize cpus))) es =
       Some (s, posted) ->
     promise s = Resolved ->
     length (results s) = 20%nat /\
     (forall i, (i < 20)%nat ->
        exists random,
          nth_error (results s) i =
          Some (Some (Value (performCPUIntensiveWork random
                               (1000000 + N.of_nat i * 500000))))) /\
     (exists lines,
        show_results workerPoolTask_tasks 0 (results s) = Return lines /\
        length lines = 20%nat)).
Proof.
  intros Hcpus Hcount. split.
  { apply (answers_resolve (tasks:=workerPoolTask_tasks) (size:=poolSize cpus)
                           (answered:=[])).
    - unfold poolSize. lia.
    - apply start_Phase.
    - cbn [length]. rewrite Hcount. unfold workerPoolTask_tasks.
      rewrite length_map, length_seq. reflexivity. }
  intros es s posted Hrun Hres.
  destruct (run_of_batch workerPoolTask_ids Hrun) as (Hphase & Hlen & Hposted).
  assert (Hall : map fst posted = workerPoolTask_tasks)
    by exact (proj1 (answered_all Hphase) Hres).
  assert (Hcells : forall i, (i < 20)%nat ->
            exists t random,
              nth_error workerPoolTask_tasks i = Some t /\
              nth_error (results s) i =
              Some (Some (Value (performCPUIntensiveWork random
                                   (1000000 + N.of_nat i * 500000))))).
  { intros i Hi.
    destruct (nth_error workerPoolTask_tasks i) as [t|] eqn:Ht.
    2:{ apply nth_error_None in Ht. unfold workerPoolTask_tasks in Ht.
        rewrite length_map, length_seq in Ht. unfold taskCount in Ht. lia. }
    destruct (workerPoolTask_task Ht) as (Hid & Htype & Hcomplexity).
    assert (Hin : In t (map fst posted)) by (rewrite Hall; exact (nth_error_In _ _ Ht)).
    destruct (posted_for_answered Hin) as [m Hm].
    destruct (Hposted t m Hm) as [Hstored [random Hby]].
    rewrite onMessage_task in Hby. unfold processTask in Hby.
    rewrite Htype in Hby. cbn [String.eqb Ascii.eqb Bool.eqb] in Hby.
    assert (Hvalue : m = Value (performCPUIntensiveWork random (complexity t)))
      by congruence.
    exists t, random. split; [reflexivity|].
    rewrite <- Hid at 1. rewrite Hstored, Hvalue, Hcomplexity. reflexivity. }
  assert (Hlen20 : length (results s) = 20%nat).
  { rewrite Hlen. unfold workerPoolTask_tasks. rewrite length_map, length_seq. reflexivity. }
  split; [exact Hlen20|]. split.
  - intros i Hi. destruct (Hcells i Hi) as (t & random & _ & Hr). exists random. exact Hr.
  - destruct (@show_results_values workerPoolTask_tasks (results s) 0) as (lines & Hshow & Hlines).
    + intros k r Hk.
      assert (Hlt : (k < 20)%nat) by (rewrite <- Hlen20; apply nth_error_Some; congruence).
      destruct (Hcells k Hlt) as (t & random & Ht & Hr).
      exists t. eexists. split; [exact Ht|]. rewrite Hr in Hk. symmetry.
      exact (f_equal (fun o => match o with Some x => x | None => r end) Hk).
    + exists lines. split; [exact Hshow|]. rewrite Hlines. exact Hlen20.
Qed.

End WorkerPoolTask.

Section PoolScheduleExamples.
Import PoolWorker WorkerThreadManager.

(** Three tasks on a pool of two workers, after the first answer: the
    first worker holds the second task, the second worker is untouched. *)
Lemma pool_keeps_one_task_in_flight_witness :
  let work i := {| id := i; complexity := 3; type := "cpu-intensive" |} in
  let tasks := [work 0%nat; work 1%nat; work 2%nat] in
  exists s posted,
    run (processTasksWithPool tasks (initializeWorkerPool 2)) [Answer 0 (fun _ : nat => 0%N)]
      = Some (s, posted) /\
    workerPool s = [engaged (work 1%nat); idle 1] /\
    (length (filter busy (workerPool s)) <= 1)%nat.
Proof.
  intros work tasks.
  destruct (run (processTasksWithPool tasks (initializeWorkerPool 2))
                [Answer 0 (fun _ : nat => 0%N)]) as [[s posted]|] eqn:Hrun.
  - exists s, posted.
    destruct (pool_keeps_one_task_in_flight Hrun) as (_ & Hbusy & _).
    split; [reflexivity|]. split; [|exact Hbusy].
    vm_compute in Hrun. injection Hrun as <- _. reflexivity.
  - vm_compute in Hrun. discriminate Hrun.
Defined.

(** The same batch after two answers: tasks 0 and 1 are answered, in that
    order, and task 2 is at the first worker. *)
Lemma pool_answers_in_submission_order_witness :
  let work i := {| id := i; complexity := 3; type := "cpu-intensive" |} in
  let tasks := [work 0%nat; work 1%nat; work 2%nat] in
  let answer := Answer 0 (fun _ : nat => 0%N) in
  exists s posted,
    run (processTasksWithPool tasks (initializeWorkerPool 2)) [answer; answer]
      = Some (s, posted) /\
    map fst posted = [work 0%nat; work 1%nat] /\
    (tasks = map fst posted ++ pendingTasks s \/
     exists t, tasks = map fst posted ++ t :: pendingTasks s /\
               nth_error (workerPool s) 0 = Some (engaged t)).
Proof.
  intros work tasks answer.
  destruct (run (processTasksWithPool tasks (initializeWorkerPool 2)) [answer; answer])
    as [[s posted]|] eqn:Hrun.
  - exists s, posted. split; [reflexivity|].
    split; [|exact (pool_answers_in_submission_order Hrun)].
    vm_compute in Hrun. injection Hrun as _ <-. reflexivity.
  - vm_compute in Hrun. discriminate Hrun.
Defined.

(** Two tasks with the id 0 and one with the id 5 in a batch of three: the
    second answer replaces the first, and the array grows to six entries. *)
Lemma results_follow_the_last_answer_per_id_witness :
  let first := {| id := 0; complexity := 1; type := "cpu-intensive" |} in
  let second := {| id := 0; complexity := 3; type := "io" |} in
  let third := {| id := 5; complexity := 2; type := "cpu-intensive" |} in
  let answer := Answer 0 (fun _ : nat => 0%N) in
  exists s posted,
    run (processTasksWithPool [first; second; third] (initializeWorkerPool 1))
        [answer; answer; answer] = Some (s, posted) /\
    array_get 0 (results s) = Some (ErrorObject "Unknown task type: io") /\
    array_get 1 (results s) = None /\
    length (results s) = 6%nat.
Proof.
  intros first second third answer.
  destruct (run (processTasksWithPool [first; second; third] (initializeWorkerPool 1))
                [answer; answer; answer]) as [[s posted]|] eqn:Hrun.
  - exists s, posted.
    assert (Hids : forall t, In t [first; second; third] -> array_index (id t)).
    { intros t [<-|[<-|[<-|[]]]]; unfold array_index; cbn; lia. }
    destruct (results_follow_the_last_answer_per_id Hids Hrun) as (Hlast & Hnone & Hlen).
    assert (Hposted : posted = [(first, Value 1%N); (second, ErrorObject "Unknown task type: io");
                                (third, Value 3%N)]).
    { vm_compute in Hrun. injection Hrun as _ <-. reflexivity. }
    split; [reflexivity|]. split; [|split].
    + apply (Hlast [(first, Value 1%N)] second _ [(third, Value 3%N)] Hposted).
      intros p [<-|[]]. discriminate.
    + apply Hnone. rewrite Hposted. intros p [<-|[<-|[<-|[]]]]; discriminate.
    + rewrite Hlen, Hposted. reflexivity.
  - vm_compute in Hrun. discriminate Hrun.
Defined.

(** One task, no worker, three runs of the timer. *)
Lemma empty_pool_polls_forever_witness :
  let tasks := [{| id := 0; complexity := 3; type := "cpu-intensive" |}] in
  run (processTasksWithPool (number:=N) tasks []) [PollTimer; PollTimer; PollTimer] =
    Some (processTasksWithPool tasks [], []) /\
  promise (processTasksWithPool (number:=N) tasks []) = Pending.
Proof.
  intros tasks.
  assert (Hsome : tasks <> []) by discriminate.
  destruct (empty_pool_polls_forever (number:=N) Hsome) as (Hpending & _ & Hpolls & _).
  split; [exact (Hpolls 3%nat)|exact Hpending].
Defined.

(** Two tasks on a pool of three workers, both answered. *)
Lemma resolved_pool_is_fresh_again_witness :
  let work i := {| id := i; complexity := 3; type := "cpu-intensive" |} in
  let answer := Answer 0 (fun _ : nat => 0%N) in
  exists s posted,
    run (processTasksWithPool [work 0%nat; work 1%nat] (initializeWorkerPool 3))
        [answer; answer] = Some (s, posted) /\
    promise s = Resolved /\
    workerPool s = initializeWorkerPool 3 /\
    step s answer = None.
Proof.
  intros work answer.
  destruct (run (processTasksWithPool [work 0%nat; work 1%nat] (initializeWorkerPool 3))
                [answer; answer]) as [[s posted]|] eqn:Hrun.
  - exists s, posted.
    assert (Hres : promise s = Resolved).
    { vm_compute in Hrun. injection Hrun as <- _. reflexivity. }
    destruct (resolved_pool_is_fresh_again Hrun Hres) as (Hpool & _ & _ & _ & Hquiet).
    split; [reflexivity|]. split; [exact Hres|]. split; [exact Hpool|apply Hquiet].
  - vm_compute in Hrun. discriminate Hrun.
Defined.

(** Eight CPUs, every random number 0. *)
Lemma workerPoolTask_shows_twenty_numbers_witness :
  let randoms := repeat (fun _ : nat => 0%N) 20 in
  exists s posted,
    run (processTasksWithPool workerPoolTask_tasks (initializeWorkerPool (poolSize 8)))
        (map (Answer 0) randoms) = Some (s, posted) /\
    promise s = Resolved /\
    length (results s) = 20%nat.
Proof.
  intros randoms.
  assert (Hcpus : (1 <= 8)%nat) by lia.
  assert (Hcount : length randoms = 20%nat) by reflexivity.
  destruct (workerPoolTask_shows_twenty_numbers (number:=N) Hcpus Hcount)
    as [(s & posted & Hrun & Hres) Hshown].
  exists s, posted. split; [exact Hrun|]. split; [exact Hres|].
  exact (proj1 (Hshown _ s posted Hrun Hres)).
Defined.

End PoolScheduleExamples.

(** *** The lag monitor: the bar, the extremes, the background timers *)

Section LagDisplay.
Import EventLoopMonitor.

Lemma normalized_lag_bounds lag :
  0 <= Qmax 0 (Qmin (lag / 100) 1) /\ Qmax 0 (Qmin (lag / 100) 1) <= 1.
Proof.
  split.
  - apply Q.le_max_l.
  - apply Q.max_lub; [discriminate|apply Q.le_min_r].
Qed.

Lemma bar_length_bounds lag :
  (0 <= Qfloor (Qmax 0 (Qmin (lag / 100) 1) * inject_Z maxBarLength) <= maxBarLength)%Z.
Proof.
  destruct (normalized_lag_bounds lag) as [Hlo Hhi].
  set (n := Qmax 0 (Qmin (lag / 100) 1)) in *. split.
  - rewrite <- (Qfloor_Z 0). apply Qfloor_resp_le.
    apply Qmult_le_0_compat; [exact Hlo|discriminate].
  - rewrite <- (Qfloor_Z maxBarLength) at 2. apply Qfloor_resp_le.
    rewrite <- (Qmult_1_l (inject_Z maxBarLength)) at 2.
    apply Qmult_le_compat_r; [exact Hhi|discriminate].
Qed.

Lemma bar_length_monotone lag lag' :
  lag <= lag' ->
  (Qfloor (Qmax 0 (Qmin (lag / 100) 1) * inject_Z maxBarLength) <=
   Qfloor (Qmax 0 (Qmin (lag' / 100) 1) * inject_Z maxBarLength))%Z.
Proof.
  intros Hle. apply Qfloor_resp_le. apply Qmult_le_compat_r; [|discriminate].
  apply Q.max_le_compat_l. apply Q.min_le_compat_r.
  apply Qmult_le_compat_r; [exact Hle|discriminate].
Qed.

(** X14. [createLagBar] never throws: the count it hands to [repeat] is
    between 0 and 40 for every lag, negative lags included, so the bar
    always has exactly 40 cells, the full blocks first. The bar is empty
    for a lag of 0 or less and full from 100 ms on, and a larger lag never
    gives a shorter bar. The colour is green below 16 ms, yellow below
    50 ms and red from there on. *)
Theorem createLagBar_has_forty_cells (lag : Q) :
  exists color full,
    createLagBar lag =
      Return (color, repeat FullBlock full ++ repeat LightShade (40 - full)) /\
    (full <= 40)%nat /\
    (lag <= 0 -> full = 0%nat) /\
    (100 <= lag -> full = 40%nat) /\
    (color = Green <-> lag < 16) /\
    (color = Red <-> 50 <= lag) /\
    (forall lag', lag <= lag' ->
       exists color' full',
         createLagBar lag' =
           Return (color', repeat FullBlock full' ++ repeat LightShade (40 - full')) /\
         (full <= full')%nat).
Proof.
  assert (Hbar : forall l,
    createLagBar l =
    Return (if Qlt_bool l 16 then Green else if Qlt_bool l 50 then Yellow else Red,
            repeat FullBlock
              (Z.to_nat (Qfloor (Qmax 0 (Qmin (l / 100) 1) * inject_Z maxBarLength))) ++
            repeat LightShade
              (40 - Z.to_nat (Qfloor (Qmax 0 (Qmin (l / 100) 1) * inject_Z maxBarLength))))).
  { intros l. unfold createLagBar, String_repeat. cbn zeta.
    pose proof (bar_length_bounds l) as Hb.
    set (b := Qfloor (Qmax 0 (Qmin (l / 100) 1) * inject_Z maxBarLength)) in *.
    unfold maxBarLength in *.
    replace (b <? 0)%Z with false by (symmetry; apply Z.ltb_ge; lia).
    replace (40 - b <? 0)%Z with false by (symmetry; apply Z.ltb_ge; lia).
    replace (Z.to_nat (40 - b)) with (40 - Z.to_nat b)%nat by lia. reflexivity. }
  pose proof (bar_length_bounds lag) as Hb.
  eexists. eexists. split; [apply Hbar|].
  split; [unfold maxBarLength in *; lia|]. split; [|split; [|split; [|split]]].
  - intros Hneg.
    assert (Hzero : Qmax 0 (Qmin (lag / 100) 1) == 0).
    { apply Qle_antisym; [|apply Q.le_max_l].
      apply Q.max_lub; [discriminate|].
      apply Qle_trans with (y := lag / 100); [apply Q.le_min_l|].
      apply Qle_shift_div_r; [reflexivity|]. rewrite Qmult_0_l. exact Hneg. }
    rewrite (Qfloor_comp _ 0); [reflexivity|]. rewrite Hzero. apply Qmult_0_l.
  - intros Hbig.
    assert (Hone : Qmax 0 (Qmin (lag / 100) 1) == 1).
    { apply Qle_antisym; [apply (proj2 (normalized_lag_bounds lag))|].
      apply Qle_trans with (y := Qmin (lag / 100) 1); [|apply Q.le_max_r].
      apply Q.min_glb; [|discriminate].
      apply Qle_shift_div_l; [reflexivity|]. rewrite Qmult_1_l. exact Hbig. }
    rewrite (Qfloor_comp _ (inject_Z 40)); [rewrite Qfloor_Z; reflexivity|].
    rewrite Hone. apply Qmult_1_l.
  - unfold Qlt_bool. destruct (Qle_bool 16 lag) eqn:E16; cbn [negb].
    + apply Qle_bool_iff in E16. split; [|intros Hlt; exfalso; apply (Qlt_not_le _ _ Hlt E16)].
      destruct (Qle_bool 50 lag); discriminate.
    + split; [intros _|reflexivity]. apply Qnot_le_lt. intros Hle.
      apply Qle_bool_iff in Hle. congruence.
  - unfold Qlt_bool. destruct (Qle_bool 16 lag) eqn:E16; cbn [negb].
    + destruct (Qle_bool 50 lag) eqn:E50; cbn [negb].
      * split; [intros _; apply Qle_bool_iff; exact E50|reflexivity].
      * split; [discriminate|]. intros Hle. apply Qle_bool_iff in Hle. congruence.
    + split; [discriminate|]. intros Hle. exfalso.
      assert (H16 : 16 <= lag) by (apply Qle_trans with (y := 50); [discriminate|exact Hle]).
      apply Qle_bool_iff in H16. congruence.
  - intros lag' Hle. eexists. eexists. split; [apply Hbar|].
    pose proof (bar_length_monotone Hle). pose proof (bar_length_bounds lag').
    unfold maxBarLength in *. lia.
Qed.

Lemma Qmin_cases a b : Qmin a b = a \/ Qmin a b = b.
Proof.
  unfold Qmin, GenericMinMax.gmin. destruct (a ?= b); auto.
Qed.

Lemma Qmax_cases a b : Qmax a b = a \/ Qmax a b = b.
Proof.
  unfold Qmax, GenericMinMax.gmax. destruct (a ?= b); auto.
Qed.

Lemma fold_Qmin xs : forall x,
  In (fold_left Qmin xs x) (x :: xs) /\
  forall y, In y (x :: xs) -> fold_left Qmin xs x <= y.
Proof.
  induction xs as [|z xs IH]; intros x; cbn [fold_left].
  - split; [left; reflexivity|]. intros y [<-|[]]. apply Qle_refl.
  - destruct (IH (Qmin x z)) as [Hin Hle]. split.
    + destruct Hin as [Hin|Hin]; [|right; right; exact Hin].
      rewrite <- Hin. destruct (Qmin_cases x z) as [->| ->]; [left|right; left]; reflexivity.
    + intros y [<-|[<-|Hy]].
      * apply Qle_trans with (y := Qmin x z); [apply Hle; left; reflexivity|apply Q.le_min_l].
      * apply Qle_trans with (y := Qmin x z); [apply Hle; left; reflexivity|apply Q.le_min_r].
      * apply Hle. right. exact Hy.
Qed.

Lemma fold_Qmax xs : forall x,
  In (fold_left Qmax xs x) (x :: xs) /\
  forall y, In y (x :: xs) -> y <= fold_left Qmax xs x.
Proof.
  induction xs as [|z xs IH]; intros x; cbn [fold_left].
  - split; [left; reflexivity|]. intros y [<-|[]]. apply Qle_refl.
  - destruct (IH (Qmax x z)) as [Hin Hle]. split.
    + destruct Hin as [Hin|Hin]; [|right; right; exact Hin].
      rewrite <- Hin. destruct (Qmax_cases x z) as [->| ->]; [left|right; left]; reflexivity.
    + intros y [<-|[<-|Hy]].
      * apply Qle_trans with (y := Qmax x z); [apply Q.le_max_l|apply Hle; left; reflexivity].
      * apply Qle_trans with (y := Qmax x z); [apply Q.le_max_r|apply Hle; left; reflexivity].
      * apply Hle. right. exact Hy.
Qed.

Lemma push_bounded_last xs x : In x (push_bounded xs x) .
Proof.
  unfold push_bounded. destruct (100 <? length (xs ++ [x]))%nat eqn:E.
  - destruct xs as [|y xs]; [discriminate E|]. cbn [app tl].
    apply in_or_app. right. left. reflexivity.
  - apply in_or_app. right. left. reflexivity.
Qed.

(** X15. A tick of the monitor that finds [monitoring] set prints a
    minimum and a maximum that are samples of the window, the sample just
    recorded being one of its samples: the minimum is at most, the maximum
    at least, every sample of the window, this tick's lag included.
    Neither is ever the infinity that [Math.min] and [Math.max] give for
    an empty list. *)
Theorem printed_extremes_are_samples_of_the_window (now : Q) (rt : Runtime) :
  monitoring (self rt) = true ->
  let rt' := monitorEventLoop now rt in
  let history := lagHistory (self rt') in
  exists lag avgLag minLag maxLag uptime,
    stdout rt' = stdout rt ++ [LagLine lag avgLag (Some minLag) (Some maxLag) uptime] /\
    lag = now - (lastCheck (self rt) + 16) /\
    In lag history /\ In minLag history /\ In maxLag history /\
    (forall x, In x history -> minLag <= x /\ x <= maxLag).
Proof.
  intros Hon rt' history.
  destruct (monitorEventLoop_effect now Hon) as (Hhist & _ & _ & Hout).
  fold rt' in Hhist, Hout. unfold history. rewrite Hhist, Hout.
  pose proof (push_bounded_last (lagHistory (self rt)) (now - (lastCheck (self rt) + 16)))
    as Hlast.
  destruct (push_bounded (lagHistory (self rt)) (now - (lastCheck (self rt) + 16)))
    as [|x xs] eqn:Hpush; [destruct Hlast|].
  cbn [Math_min Math_max].
  destruct (fold_Qmin xs x) as [Hmin_in Hmin_le].
  destruct (fold_Qmax xs x) as [Hmax_in Hmax_le].
  eexists. eexists. eexists. eexists. eexists. split; [reflexivity|].
  split; [reflexivity|]. split; [exact Hlast|]. split; [exact Hmin_in|].
  split; [exact Hmax_in|]. intros y Hy. split; [apply Hmin_le|apply Hmax_le]; exact Hy.
Qed.

(** X16. The two [setInterval] timers that [startBackgroundTasks] arms are
    never cleared. Whatever happens after [startMonitoring] was called,
    the end of the session included, both intervals are still pending:
    each session leaves the event loop with one more of each than it
    found. *)
Theorem background_intervals_outlive_the_session
    (start now : Q) (rt0 : Runtime) (es : list Event) (rt : Runtime) :
  intervals_only NextTickInterval (timers rt0) ->
  intervals_only MicrotaskInterval (timers rt0) ->
  run (startMonitoring start now rt0) es = Some rt ->
  pending NextTickInterval rt = S (pending NextTickInterval rt0) /\
  pending MicrotaskInterval rt = S (pending MicrotaskInterval rt0) /\
  intervals_only NextTickInterval (timers rt) /\
  intervals_only MicrotaskInterval (timers rt).
Proof.
  intros Hnext Hmicro Hrun.
  destruct (@startMonitoring_adds_intervals NextTickInterval start now rt0)
    as [Hn1 Hn2]; [left; reflexivity|exact Hnext|].
  destruct (@startMonitoring_adds_intervals MicrotaskInterval start now rt0)
    as [Hm1 Hm2]; [right; reflexivity|exact Hmicro|].
  destruct (@run_keeps_intervals NextTickInterval es (startMonitoring start now rt0) rt)
    as [Hn3 Hn4]; [left; reflexivity|exact Hn2|exact Hrun|].
  destruct (@run_keeps_intervals MicrotaskInterval es (startMonitoring start now rt0) rt)
    as [Hm3 Hm4]; [right; reflexivity|exact Hm2|exact Hrun|].
  repeat split; try assumption; congruence.
Qed.

End LagDisplay.

Section LagDisplayExamples.
Import EventLoopMonitor.

(** The tick that runs at 1000 in a session started at 0. *)
Lemma printed_extremes_are_samples_of_the_window_witness :
  let rt := set_clock 1000 [] (startMonitoring 0 0 boot) in
  exists lag avgLag uptime,
    stdout (monitorEventLoop 1000 rt) =
      stdout rt ++ [LagLine lag avgLag (Some (-16 # 1)) (Some (984 # 1)) uptime].
Proof.
  intros rt.
  assert (Hon : monitoring (self rt) = true) by reflexivity.
  destruct (printed_extremes_are_samples_of_the_window 1000 Hon)
    as (lag & avgLag & minLag & maxLag & uptime & Hout & _).
  exists lag, avgLag, uptime. rewrite Hout.
  assert (Hsame : stdout (monitorEventLoop 1000 rt) =
                  stdout rt ++ [LagLine (984 # 1) (968 # 2) (Some (-16 # 1))
                                        (Some (984 # 1)) (1000 # 1000)])
    by reflexivity.
  rewrite Hout in Hsame. apply app_inv_head in Hsame.
  injection Hsame as -> -> -> -> ->. reflexivity.
Defined.

(** A session on a fresh monitor: the first tick, then the end of the
    session at 30000. *)
Lemma background_intervals_outlive_the_session_witness :
  exists rt,
    run (startMonitoring 0 0 boot) [Fire 0 1000; Fire 3 30000] = Some rt /\
    returned rt = true /\
    pending NextTickInterval rt = 1%nat /\
    pending MicrotaskInterval rt = 1%nat.
Proof.
  destruct (run (startMonitoring 0 0 boot) [Fire 0 1000; Fire 3 30000]) as [rt|] eqn:Hrun.
  - exists rt.
    assert (Hnext : intervals_only NextTickInterval (timers boot)) by (intros t []).
    assert (Hmicro : intervals_only MicrotaskInterval (timers boot)) by (intros t []).
    destruct (background_intervals_outlive_the_session Hnext Hmicro Hrun)
      as (Hn & Hm & _).
    split; [reflexivity|]. split; [|split; [exact Hn|exact Hm]].
    vm_compute in Hrun. injection Hrun as <-. reflexivity.
  - vm_compute in Hrun. discriminate Hrun.
Defined.

End LagDisplayExamples.

(** *** multipleWorkersTask: what each of the four workers computes *)

Section MultipleWorkers.
Import CpuWorker WorkerThreadManager.
Context {number : Type} `{JSNumber number}.

Lemma iterationsPerWorker_value : iterationsPerWorker = 25000000%N.
Proof. vm_compute. reflexivity. Qed.

(** X17. The four workers of [multipleWorkersTask] are all handed the same
    count, a quarter of [totalIterations], and no start: whatever its
    [workerId], each posts the sum over [0 .. 24999999] and touches no
    buffer. The total printed is that one number added four times to 0,
    while the loop the main thread runs for comparison goes on from that
    number over [25000000 .. 99999999], a range no worker visits. *)
Theorem multipleWorkersTask_workers_repeat_the_first_quarter :
  iterationsPerWorker = 25000000%N /\
  length (multipleWorkersTask) = 4%nat /\
  (forall data th,
     In data multipleWorkersTask ->
     main (number:=number) data th =
     (PostMessage (Value (performCPUIntensiveWork iterationsPerWorker)), th)) /\
  totalResult (map (fun data => performCPUIntensiveWork (iterations data))
                   multipleWorkersTask) =
    (let r := performCPUIntensiveWork (number:=number) iterationsPerWorker in
     add (add (add (add (of_N 0) r) r) r) r) /\
  singleResult (number:=number) =
    for_range (fun i result =>
                 add result (add (add (sqrt (of_N i)) (sin (of_N i))) (cos (of_N i))))
              iterationsPerWorker totalIterations
              (performCPUIntensiveWork iterationsPerWorker).
Proof.
  split; [exact iterationsPerWorker_value|]. split; [reflexivity|]. split; [|split].
  - intros data th Hin. unfold multipleWorkersTask in Hin.
    apply in_map_iff in Hin. destruct Hin as (i & <- & _).
    unfold main, dispatch. cbn [type iterations String.eqb Ascii.eqb Bool.eqb ret].
    reflexivity.
  - unfold multipleWorkersTask, totalResult, workerCount.
    cbn [seq map fold_left iterations]. reflexivity.
  - unfold singleResult, performCPUIntensiveWork. symmetry.
    apply for_range_split.
    + apply N.le_0_l.
    + rewrite iterationsPerWorker_value. unfold totalIterations. lia.
Qed.

End MultipleWorkers.

(** *** The memory profiler: its history and its chart *)

Section MemoryHistory.
Import MemoryProfiler.

Lemma push_shift_window {A} cap (xs : list A) x :
  (length xs <= cap)%nat ->
  (if (cap <? length (xs ++ [x]))%nat then tl (xs ++ [x]) else xs ++ [x]) =
  window cap (xs ++ [x]).
Proof.
  intros Hle. unfold window. rewrite length_app. cbn [length].
  destruct (Nat.ltb_spec cap (length xs + 1)) as [Hfull|Hroom].
  - replace (length xs + 1 - cap)%nat with 1%nat by lia. reflexivity.
  - replace (length xs + 1 - cap)%nat with 0%nat by lia. reflexivity.
Qed.

Lemma tick_history usage now p :
  monitoring p = true ->
  (length (memoryHistory p) <= 1000)%nat ->
  monitoring (fst (tick usage now p)) = true /\
  memoryHistory (fst (tick usage now p)) =
    window 1000 (memoryHistory p ++ [snapshot (usage, now)]).
Proof.
  intros Hon Hlen. unfold tick. rewrite Hon. cbn [negb fst monitoring memoryHistory].
  split; [reflexivity|]. apply push_shift_window. exact Hlen.
Qed.

Lemma ticks_history ticks : forall p,
  monitoring p = true ->
  (length (memoryHistory p) <= 1000)%nat ->
  monitoring (fold_left (fun q t => fst (tick (fst t) (snd t) q)) ticks p) = true /\
  memoryHistory (fold_left (fun q t => fst (tick (fst t) (snd t) q)) ticks p) =
    window 1000 (memoryHistory p ++ map snapshot ticks).
Proof.
  induction ticks as [|[usage now] ticks IH]; intros p Hon Hlen.
  - cbn [fold_left map]. rewrite app_nil_r. split; [exact Hon|].
    symmetry. apply window_short. exact Hlen.
  - cbn [fold_left map fst snd].
    destruct (tick_history usage now Hon Hlen) as [Hon1 Hhist1].
    destruct (IH (fst (tick usage now p)) Hon1) as [Hon2 Hhist2].
    { rewrite Hhist1, window_length. lia. }
    split; [exact Hon2|]. rewrite Hhist2, Hhist1, window_app, <- app_assoc. reflexivity.
Qed.

Lemma last_map {A B} (f : A -> B) (xs : list A) d :
  last (map f xs) (f d) = f (last xs d).
Proof.
  induction xs as [|x xs IH]; [reflexivity|].
  cbn [map]. destruct xs as [|y xs]; [reflexivity|]. exact IH.
Qed.

(** X18. [monitorUsage] keeps in [memoryHistory] the last 1000 snapshots
    of all those recorded so far, the ones left by earlier calls included:
    the history is never emptied. So when a call starts on a history that
    is not empty and records at least one snapshot (1000 at most in all),
    the analysis at its end is run over both sessions: the growth it
    reports as growth "during monitoring" is the newest heapUsed minus the
    heapUsed of the first snapshot of the earlier session, and "Potential
    Memory Leak" is reported exactly when that difference exceeds
    10 * 1024 * 1024. *)
Theorem monitorUsage_analysis_spans_sessions
    (ticks : list (MemoryUsage * Q)) (p : Profiler) :
  (length (memoryHistory p) <= 1000)%nat ->
  monitoring (fst (monitorUsage ticks p)) = false /\
  memoryHistory (fst (monitorUsage ticks p)) =
    window 1000 (memoryHistory p ++ map snapshot ticks) /\
  (forall first earlier recorded usage now,
     memoryHistory p = first :: earlier ->
     ticks = recorded ++ [(usage, now)] ->
     (length (memoryHistory p) + length ticks <= 1000)%nat ->
     exists analysis,
       snd (monitorUsage ticks p) = Some analysis /\
       growth analysis = (heapUsed usage - heapUsed (memUsage first))%Z /\
       (verdict analysis = PotentialLeak <->
        (10485760 < heapUsed usage - heapUsed (memUsage first))%Z) /\
       (verdict analysis = MemoryStable <->
        (heapUsed usage <= heapUsed (memUsage first))%Z)).
Proof.
  intros Hlen. unfold monitorUsage. cbn [fst snd monitoring memoryHistory].
  destruct (@ticks_history ticks {| monitoring := true; memoryHistory := memoryHistory p |}
              eq_refl Hlen) as [_ Hhist].
  cbn [memoryHistory] in Hhist.
  split; [reflexivity|]. split; [exact Hhist|].
  intros first earlier recorded usage now Hold Hticks Hroom.
  unfold analyzeMemoryHistory. cbn [memoryHistory]. rewrite Hhist.
  rewrite window_short by (rewrite length_app, length_map; exact Hroom).
  rewrite Hold, Hticks. rewrite length_app, map_app, !length_app, length_map.
  cbn [length map app].
  match goal with
  | |- context [(?n <? 2)%nat] =>
      replace (n <? 2)%nat with false by (symmetry; apply Nat.ltb_ge; cbn [length]; lia)
  end.
  eexists. split; [reflexivity|]. cbn [growth verdict].
  assert (Hlast : last (map (fun s => heapUsed (memUsage s))
                            (earlier ++ map snapshot recorded ++ [snapshot (usage, now)]))
                       (heapUsed (memUsage first)) = heapUsed usage).
  { rewrite !map_app. cbn [map]. rewrite app_assoc. apply last_last. }
  rewrite Hlast. split; [reflexivity|].
  change (10 * 1024 * 1024)%Z with 10485760%Z.
  destruct (Z.ltb_spec 10485760 (heapUsed usage - heapUsed (memUsage first))) as [Hbig|Hsmall].
  - split; [split; [intros _; exact Hbig|reflexivity]|].
    split; [discriminate|]. intros Hle. lia.
  - destruct (Z.ltb_spec 0 (heapUsed usage - heapUsed (memUsage first))) as [Hpos|Hnon].
    + split; [split; [discriminate|intros Hbig; lia]|].
      split; [discriminate|]. intros Hle. lia.
    + split; [split; [discriminate|intros Hbig; lia]|].
      split; [intros _; lia|reflexivity].
Qed.

Lemma chart_row_length minValue maxValue values i :
  length (chart_row minValue maxValue values i) = length values.
Proof. unfold chart_row. apply length_map. Qed.

Lemma chart_row_cell minValue maxValue values i j :
  nth j (chart_row minValue maxValue values i) false = true ->
  exists value,
    nth_error values j = Some value /\
    minValue + (maxValue - minValue) *
               (inject_Z (Z.of_nat i) / inject_Z (Z.of_nat chartHeight)) <= value.
Proof.
  unfold chart_row. intros Hcell.
  destruct (nth_error values j) as [value|] eqn:Hj.
  - exists value. split; [reflexivity|]. apply Qle_bool_iff.
    rewrite <- Hcell. symmetry.
    apply nth_error_nth. rewrite nth_error_map, Hj. reflexivity.
  - apply nth_error_None in Hj. rewrite nth_overflow in Hcell; [discriminate Hcell|].
    rewrite length_map. exact Hj.
Qed.

Lemma chart_row_full minValue maxValue values i j value :
  nth_error values j = Some value ->
  minValue + (maxValue - minValue) *
             (inject_Z (Z.of_nat i) / inject_Z (Z.of_nat chartHeight)) <= value ->
  nth j (chart_row minValue maxValue values i) false = true.
Proof.
  intros Hj Hle. unfold chart_row.
  apply nth_error_nth. rewrite nth_error_map, Hj. cbn [option_map]. f_equal.
  apply Qle_bool_iff. exact Hle.
Qed.

Lemma threshold_monotone minValue maxValue a b :
  minValue <= maxValue -> (a <= b)%nat ->
  minValue + (maxValue - minValue) *
             (inject_Z (Z.of_nat a) / inject_Z (Z.of_nat chartHeight)) <=
  minValue + (maxValue - minValue) *
             (inject_Z (Z.of_nat b) / inject_Z (Z.of_nat chartHeight)).
Proof.
  intros Hspan Hab.
  assert (Hq : inject_Z (Z.of_nat a) <= inject_Z (Z.of_nat b)).
  { rewrite <- Zle_Qle. lia. }
  apply Qplus_le_r. 
  setoid_replace ((maxValue - minValue) * (inject_Z (Z.of_nat a) / inject_Z (Z.of_nat chartHeight)))
    with ((inject_Z (Z.of_nat a) / inject_Z (Z.of_nat chartHeight)) * (maxValue - minValue))
    by apply Qmult_comm.
  setoid_replace ((maxValue - minValue) * (inject_Z (Z.of_nat b) / inject_Z (Z.of_nat chartHeight)))
    with ((inject_Z (Z.of_nat b) / inject_Z (Z.of_nat chartHeight)) * (maxValue - minValue))
    by apply Qmult_comm.
  apply Qmult_le_compat_r.
  - apply Qmult_le_compat_r; [exact Hq|]. unfold chartHeight. cbn. discriminate.
  - lra.
Qed.

(** X19. The chart of [showMemoryTrend], drawn as soon as the history
    holds two snapshots: nine lines, each with one cell for each of the
    last ten snapshots (fewer while the history is shorter). Every column
    is a solid bar standing on the bottom line: a cell that is full has
    every cell below it full, and the bottom line is full throughout. *)
Theorem showMemoryTrend_draws_solid_bars (p : Profiler) :
  (2 <= length (memoryHistory p))%nat ->
  exists rows,
    showMemoryTrend p = Some rows /\
    length rows = 9%nat /\
    (forall k, (k < 9)%nat ->
       length (nth k rows []) = Nat.min 10 (length (memoryHistory p))) /\
    (forall j, (j < Nat.min 10 (length (memoryHistory p)))%nat ->
       nth j (nth 8 rows []) false = true) /\
    (forall upper lower j,
       (upper <= lower)%nat -> (lower < 9)%nat ->
       nth j (nth upper rows []) false = true ->
       nth j (nth lower rows []) false = true).
Proof.
  intros Hlen. unfold showMemoryTrend.
  replace (length (memoryHistory p) <? 2)%nat with false
    by (symmetry; apply Nat.ltb_ge; exact Hlen).
  assert (Hvalues : length (trend_values (memoryHistory p)) =
                    Nat.min 10 (length (memoryHistory p))).
  { unfold trend_values. rewrite length_map, window_length. reflexivity. }
  destruct (trend_values (memoryHistory p)) as [|value values] eqn:Hv.
  { cbn [length] in Hvalues. lia. }
  cbn [EventLoopMonitor.Math_max EventLoopMonitor.Math_min].
  destruct (fold_Qmin values value) as [_ Hmin].
  destruct (fold_Qmax values value) as [Hmax_in Hmax].
  set (minValue := fold_left Qmin values value) in *.
  set (maxValue := fold_left Qmax values value) in *.
  assert (Hspan : minValue <= maxValue) by (apply Hmin; exact Hmax_in).
  assert (Hrow : forall k, (k < 9)%nat ->
            nth k (map (chart_row minValue maxValue (value :: values))
                       (rev (seq 0 (S chartHeight)))) [] =
            chart_row minValue maxValue (value :: values) (8 - k)).
  { intros k Hk. unfold chartHeight.
    do 9 (destruct k as [|k]; [reflexivity|]). lia. }
  eexists. split; [reflexivity|]. split; [reflexivity|]. split; [|split].
  - intros k Hk. rewrite (Hrow k Hk), chart_row_length. exact Hvalues.
  - intros j Hj. rewrite (Hrow 8%nat) by lia. cbn [Nat.sub].
    destruct (nth_error (value :: values) j) as [x|] eqn:Hx.
    2:{ apply nth_error_None in Hx. lia. }
    apply (chart_row_full (value:=x)); [exact Hx|].
    apply Qle_trans with (y := minValue); [|apply Hmin; exact (nth_error_In _ _ Hx)].
    cbn [Z.of_nat]. unfold Qdiv. rewrite Qmult_0_l, Qmult_0_r, Qplus_0_r. apply Qle_refl.
  - intros upper lower j Hul Hl Hfull.
    rewrite (Hrow upper) in Hfull by lia. rewrite (Hrow lower) by lia.
    destruct (chart_row_cell Hfull) as (x & Hx & Hle).
    apply (chart_row_full (value:=x)); [exact Hx|].
    apply Qle_trans with (2 := Hle). apply threshold_monotone; [exact Hspan|lia].
Qed.

End MemoryHistory.

Section MemoryHistoryExamples.
Import MemoryProfiler.

(** A first session records 100 MB and 101 MB, a second one 120 MB: the
    analysis after the second reports a growth of 20 MB and a leak. *)
Lemma monitorUsage_analysis_spans_sessions_witness :
  let usage mb := {| rss := 0; heapTotal := 0; heapUsed := mb * 1048576;
                     external := 0; arrayBuffers := 0 |} in
  let first := fst (monitorUsage [(usage 100%Z, 1000); (usage 101%Z, 2000)] constructor) in
  let second := monitorUsage [(usage 120%Z, 9000)] first in
  length (memoryHistory (fst second)) = 3%nat /\
  exists analysis,
    snd second = Some analysis /\
    growth analysis = (20 * 1048576)%Z /\
    verdict analysis = PotentialLeak.
Proof.
  intros usage first second.
  assert (Hlen : (length (memoryHistory first) <= 1000)%nat) by (cbn; lia).
  destruct (monitorUsage_analysis_spans_sessions [(usage 120%Z, 9000)] Hlen)
    as (_ & _ & Hspan).
  destruct (Hspan (snapshot (usage 100%Z, 1000)) [snapshot (usage 101%Z, 2000)] []
                  (usage 120%Z) 9000 eq_refl eq_refl)
    as (analysis & Hsome & Hgrowth & Hleak & _); [cbn; lia|].
  split; [reflexivity|]. exists analysis. split; [exact Hsome|].
  split; [rewrite Hgrowth; reflexivity|]. apply Hleak. cbn. lia.
Defined.

(** Three snapshots: 5 MB, 7 MB, 6 MB. *)
Lemma showMemoryTrend_draws_solid_bars_witness :
  let at_mb mb := {| timestamp := 0;
                     memUsage := {| rss := 0; heapTotal := 0; heapUsed := mb * 1048576;
                                    external := 0; arrayBuffers := 0 |} |} in
  let p := {| monitoring := true; memoryHistory := [at_mb 5%Z; at_mb 7%Z; at_mb 6%Z] |} in
  exists rows,
    showMemoryTrend p = Some rows /\
    nth 0 rows [] = [false; true; false] /\
    nth 4 rows [] = [false; true; true] /\
    nth 8 rows [] = [true; true; true].
Proof.
  intros at_mb p.
  assert (Hlen : (2 <= length (memoryHistory p))%nat) by (cbn; lia).
  destruct (showMemoryTrend_draws_solid_bars Hlen) as (rows & Hshow & _).
  exists rows. split; [exact Hshow|].
  assert (Hrows : showMemoryTrend p =
                  Some [[false; true; false]; [false; true; false]; [false; true; false];
                        [false; true; false]; [false; true; true]; [false; true; true];
                        [false; true; true]; [false; true; true]; [true; true; true]])
    by (vm_compute; reflexivity).
  rewrite Hshow in Hrows. injection Hrows as ->. repeat split.
Defined.

End MemoryHistoryExamples.

(** *** The lag monitor: a tick left over from an earlier session *)

Section LeftoverTick.
Import EventLoopMonitor.

Lemma monitoring_set_clock now ts rt :
  monitoring (self (set_clock now ts rt)) = monitoring (self rt).
Proof. reflexivity. Qed.

(** While [monitoring] is set, a turn of the event loop keeps the number
    of pending ticks: a tick that runs arms its successor. [monitoring] is
    not set again once it is cleared. *)
Lemma step_keeps_ticks k rt e rt' :
  one_shot MonitorTick (timers rt) ->
  (monitoring (self rt) = true -> pending MonitorTick rt = k) ->
  step rt e = Some rt' ->
  one_shot MonitorTick (timers rt') /\
  (monitoring (self rt') = true ->
   monitoring (self rt) = true /\ pending MonitorTick rt' = k).
Proof.
  intros Hone Hcount Hstep. unfold pending in *.
  destruct e as [i now|text now]; cbn [step] in Hstep.
  - destruct (nth_error (timers rt) i) as [t|] eqn:Hnth; [|discriminate Hstep].
    destruct (Qle_bool (clock rt) now); [|discriminate Hstep].
    injection Hstep as <-.
    pose proof (count_taken MonitorTick now Hnth) as Hc.
    pose proof (one_shot_taken (now:=now) Hnth Hone) as Hone'.
    destruct (callback t) eqn:Hcallback; cbn [runCallback].
    + (* a tick *)
      rewrite (Hone t (nth_error_In _ _ Hnth) Hcallback) in Hc.
      cbn [Callback_eqb] in Hc.
      unfold monitorEventLoop. cbn [self set_clock].
      destruct (monitoring (self rt)) eqn:Hon; cbn [negb self timers monitoring set_clock].
      * split.
        -- unfold setTimeout. apply one_shot_snoc; [exact Hone'|reflexivity].
        -- intros _. split; [reflexivity|].
           unfold setTimeout. rewrite count_app, count_single. cbn [callback Callback_eqb].
           specialize (Hcount eq_refl). lia.
      * split; [exact Hone'|]. intros Hon'. rewrite Hon in Hon'. discriminate Hon'.
    + (* the end of the session *)
      unfold autoStop. cbn [self set_clock].
      destruct (monitoring (self rt)) eqn:Hon; cbn [self timers monitoring set_clock].
      * split; [exact Hone'|]. intros Hoff. discriminate Hoff.
      * split; [exact Hone'|]. intros Hon'. rewrite Hon in Hon'. discriminate Hon'.
    + cbn [self timers set_clock]. split; [exact Hone'|]. intros Hon.
      split; [exact Hon|]. specialize (Hcount Hon).
      destruct (period t); cbn [Callback_eqb] in Hc; lia.
    + cbn [self timers set_clock]. split; [exact Hone'|]. intros Hon.
      split; [exact Hon|]. specialize (Hcount Hon).
      destruct (period t); cbn [Callback_eqb] in Hc; lia.
    + cbn [self timers set_clock]. split.
      * unfold setImmediate. apply one_shot_snoc; [exact Hone'|discriminate].
      * intros Hon. split; [exact Hon|]. specialize (Hcount Hon).
        unfold setImmediate. rewrite count_app, count_single. cbn [callback Callback_eqb].
        destruct (period t); cbn [Callback_eqb] in Hc; lia.
    + cbn [self timers set_clock]. split; [exact Hone'|]. intros Hon.
      split; [exact Hon|]. specialize (Hcount Hon).
      destruct (period t); cbn [Callback_eqb] in Hc; lia.
  - destruct (Qle_bool (clock rt) now); [|discriminate Hstep].
    injection Hstep as <-. cbn [self timers set_clock].
    split; [exact Hone|]. intros Hon. split; [exact Hon|exact (Hcount Hon)].
Qed.

Lemma run_keeps_ticks k es : forall rt rt',
  one_shot MonitorTick (timers rt) ->
  (monitoring (self rt) = true -> pending MonitorTick rt = k) ->
  run rt es = Some rt' ->
  one_shot MonitorTick (timers rt') /\
  (monitoring (self rt') = true -> pending MonitorTick rt' = k).
Proof.
  induction es as [|e es IH]; intros rt rt' Hone Hcount Hrun; cbn [run] in Hrun.
  - injection Hrun as <-. split; assumption.
  - destruct (step rt e) as [rt1|] eqn:Hstep; [|discriminate Hrun].
    destruct (step_keeps_ticks Hone Hcount Hstep) as [Hone1 Hcount1].
    apply (IH rt1 rt' Hone1); [|exact Hrun].
    intros Hon. exact (proj2 (Hcount1 Hon)).
Qed.

(** X20. [startMonitoring] does not cancel a tick that an earlier session
    left pending, and setting [monitoring] again revives it: as long as
    the new session has not ended, the number of pending ticks is one more
    than the number the session found, since every tick that runs records
    a sample, prints its line and arms a successor. A session started
    while one old tick is pending therefore runs two chains of ticks and
    samples twice per second. *)
Theorem leftover_tick_joins_the_next_session
    (start now : Q) (rt0 : Runtime) (es : list Event) (rt : Runtime) :
  one_shot MonitorTick (timers rt0) ->
  run (startMonitoring start now rt0) es = Some rt ->
  monitoring (self rt) = true ->
  pending MonitorTick rt = S (pending MonitorTick rt0) /\
  (forall i t rt',
     fires rt (Fire i t) = Some MonitorTick ->
     step rt (Fire i t) = Some rt' ->
     pending MonitorTick rt' = S (pending MonitorTick rt0) /\
     lastCheck (self rt') = t /\
     length (stdout rt') = S (length (stdout rt)) /\
     In (t - (lastCheck (self rt) + 16)) (lagHistory (self rt'))).
Proof.
  intros Hone Hrun Hon.
  assert (Hstart : one_shot MonitorTick (timers (startMonitoring start now rt0)) /\
                   pending MonitorTick (startMonitoring start now rt0) =
                   S (pending MonitorTick rt0)).
  { unfold pending, startMonitoring, waitForStop, startBackgroundTasks.
    cbn [timers]. unfold monitorEventLoop. cbn [self monitoring negb timers].
    unfold setTimeout, setInterval, setImmediate. split.
    - repeat apply one_shot_snoc; try exact Hone; cbn [callback period];
        try discriminate; reflexivity.
    - rewrite !count_app, !count_single. cbn [callback Callback_eqb]. lia. }
  destruct Hstart as [Hone1 Hcount1].
  destruct (@run_keeps_ticks (S (pending MonitorTick rt0)) es
              (startMonitoring start now rt0) rt Hone1 (fun _ => Hcount1) Hrun)
    as [Hone2 Hcount2].
  split; [exact (Hcount2 Hon)|].
  intros i t rt' Hfires Hstep.
  destruct (step_keeps_ticks Hone2 Hcount2 Hstep) as [_ Hcount3].
  cbn [fires] in Hfires. cbn [step] in Hstep.
  destruct (nth_error (timers rt) i) as [timer|] eqn:Hnth; [|discriminate Hfires].
  cbn [option_map] in Hfires. injection Hfires as Hcallback.
  destruct (Qle_bool (clock rt) t); [|discriminate Hstep].
  injection Hstep as <-. rewrite Hcallback in *. cbn [runCallback] in *.
  assert (Hon' : monitoring (self (set_clock t (taken i timer t (timers rt)) rt)) = true)
    by exact Hon.
  destruct (monitorEventLoop_effect t Hon') as (Hhist & Hlast & _ & Hout).
  cbn zeta in Hhist, Hout.
  assert (Hstill : monitoring (self (monitorEventLoop t
                      (set_clock t (taken i timer t (timers rt)) rt))) = true).
  { rewrite (monitorEventLoop_self t Hon'). reflexivity. }
  split; [exact (proj2 (Hcount3 Hstill))|]. split; [exact Hlast|]. split.
  - rewrite Hout, length_app. cbn [length stdout set_clock]. lia.
  - rewrite Hhist. cbn [self set_clock]. apply push_bounded_last.
Qed.

End LeftoverTick.

Section LeftoverTickExample.
Import EventLoopMonitor.

(** A first session whose tick of 1000 is still pending when it ends at
    30000; the next session, started at 30500, has two ticks pending. *)
Lemma leftover_tick_joins_the_next_session_witness :
  exists ended,
    run (startMonitoring 0 0 boot) [Fire 0 1000; Fire 3 30000] = Some ended /\
    pending MonitorTick ended = 1%nat /\
    pending MonitorTick (startMonitoring 30500 30500 ended) = 2%nat.
Proof.
  destruct (run (startMonitoring 0 0 boot) [Fire 0 1000; Fire 3 30000])
    as [ended|] eqn:Hrun.
  - exists ended. split; [reflexivity|].
    assert (Hended : pending MonitorTick ended = 1%nat /\
                     one_shot MonitorTick (timers ended)).
    { vm_compute in Hrun. injection Hrun as <-. split; [reflexivity|].
      intros t Hin Hcb.
      repeat (destruct Hin as [<-|Hin]; [try reflexivity; try discriminate Hcb|]).
      destruct Hin. }
    destruct Hended as [Hleft Hone]. split; [exact Hleft|].
    assert (Hon : monitoring (self (startMonitoring 30500 30500 ended)) = true)
      by reflexivity.
    destruct (@leftover_tick_joins_the_next_session 30500 30500 ended []
                (startMonitoring 30500 30500 ended) Hone eq_refl Hon) as [Hcount _].
    rewrite Hcount, Hleft. reflexivity.
  - vm_compute in Hrun. discriminate Hrun.
Defined.

End LeftoverTickExample.

(** *** The lag monitor: what a sample measures *)

Section TickSample.
Import EventLoopMonitor.




End TickSample.

Section TickSampleExample.
Import EventLoopMonitor.


End TickSampleExample.

(** *** concurrentUpdates: the four workers on one buffer *)

Section ConcurrentUpdates.
Import SharedMemory CpuWorker WorkerThreadManager.
Context {number : Type} `{JSNumber number}.

(** The accesses of a worker of [concurrentUpdates] on a buffer that has
    cells, with random numbers in [0, 1). *)
Lemma updating_worker_accesses cells entropy (data : WorkerData) :
  type data = "shared-memory-update"%string ->
  cells <> [] ->
  (forall k, 0 <= entropy k /\ entropy k < 1) ->
  length (worker_accesses (number:=number) cells entropy data) = updateCount data /\
  Forall (fun a => exists i v, a = AtomicStore i v /\
                               (i < length cells)%nat /\ (0 <= v <= 999)%Z)
         (worker_accesses (number:=number) cells entropy data).
Proof.
  intros Htype Hcells Hrandom. unfold worker_accesses, main, dispatch. rewrite Htype.
  cbn [String.eqb Ascii.eqb Bool.eqb]. unfold seq_run, updateSharedMemory.
  set (th := {| memory := cells; accesses := []; entropy := entropy; draws := 0 |}).
  destruct (@random_stores (updateCount data) 0 0 th Hcells Hrandom)
    as (Hret & _ & _ & _ & _ & new & Hacc & Hlen & Hall).
  cbn zeta in *.
  destruct (counting_loop _ 0 (updateCount data) 0 th) as [[n|m] th'];
    cbn [fst snd] in *; [|discriminate Hret].
  cbn [ret snd]. rewrite Hacc. cbn [accesses th app]. split; assumption.
Qed.

Lemma after_atomic_stores trace : forall cells,
  Forall (fun a => exists i v, a = AtomicStore i v /\
                               (i < length cells)%nat /\ (0 <= v <= 999)%Z) trace ->
  length (after trace cells) = length cells /\
  forall i y, nth_error (after trace cells) i = Some y ->
              nth_error cells i = Some y \/ (0 <= y <= 999)%Z.
Proof.
  induction trace as [|a trace IH]; intros cells Hall.
  - split; [reflexivity|]. intros i y Hy. left. exact Hy.
  - inversion Hall as [|? ? (k & v & -> & Hk & Hv) Hrest]; subst.
    unfold after in *. cbn [fold_left perform].
    destruct (IH (write k v cells)) as [Hlen Hcell].
    { rewrite length_write. exact Hrest. }
    split; [rewrite Hlen; apply length_write|].
    intros i y Hy. destruct (Hcell i y Hy) as [Hprev|Hrange]; [|right; exact Hrange].
    rewrite nth_error_write in Hprev.
    destruct (k =? i)%nat; [|left; exact Hprev].
    destruct (nth_error cells i); [|discriminate Hprev].
    cbn [option_map] in Hprev. right. congruence.
Qed.

(** X22. [concurrentUpdates] on a buffer that has cells, with random
    numbers in [0, 1): however the accesses of its four workers
    interleave, the buffer is accessed exactly 100000 times, each time by
    an atomic store to a cell of the array of a value between 0 and 999;
    the buffer keeps its length and each cell ends with the value it had
    or with a value between 0 and 999. *)
Theorem concurrentUpdates_stores_stay_in_bounds
    (cells : Int32Array) (entropies : nat -> nat -> Q) (trace : list Access) :
  cells <> [] ->
  (forall w k, 0 <= entropies w k /\ entropies w k < 1) ->
  Interleaving
    (map (fun data => worker_accesses (number:=number) cells
                        (entropies (workerId data)) data)
         concurrentUpdates)
    trace ->
  N.of_nat (length trace) = 100000%N /\
  Forall (fun a => exists i v, a = AtomicStore i v /\
                               (i < length cells)%nat /\ (0 <= v <= 999)%Z) trace /\
  length (after trace cells) = length cells /\
  (forall i y, nth_error (after trace cells) i = Some y ->
               nth_error cells i = Some y \/ (0 <= y <= 999)%Z).
Proof.
  intros Hcells Hrandom Hinter.
  assert (Hworkers : Forall (fun data => type data = "shared-memory-update"%string /\
                                         updateCount data = N.to_nat (100000 / 4))
                            concurrentUpdates).
  { unfold concurrentUpdates. apply Forall_map. apply Forall_forall. intros i _.
    split; reflexivity. }
  assert (Hstores : Forall (fun a => exists i v, a = AtomicStore i v /\
                              (i < length cells)%nat /\ (0 <= v <= 999)%Z) trace).
  { apply (Interleaving_Forall Hinter). apply Forall_map.
    eapply Forall_impl; [|exact Hworkers]. cbn beta. intros data [Htype _].
    exact (proj2 (updating_worker_accesses Htype Hcells (Hrandom (workerId data)))). }
  split; [|split; [exact Hstores|exact (after_atomic_stores Hstores)]].
  rewrite <- (Permutation_length (Interleaving_Permutation Hinter)).
  assert (Hsum : forall ds : list WorkerData,
            Forall (fun data => type data = "shared-memory-update"%string /\
                                updateCount data = N.to_nat (100000 / 4)) ds ->
            N.of_nat (length (concat (map (fun data =>
                        worker_accesses (number:=number) cells
                          (entropies (workerId data)) data) ds))) =
            (N.of_nat (length ds) * (100000 / 4))%N).
  { induction ds as [|d ds IH]; intros Hall; [reflexivity|].
    inversion Hall as [|? ? [Htype Hcount] Hrest]; subst.
    cbn [map concat length]. rewrite length_app, Nat2N.inj_add, (IH Hrest).
    rewrite (proj1 (updating_worker_accesses Htype Hcells (Hrandom (workerId d)))).
    rewrite Hcount, N2Nat.id. lia. }
  rewrite (Hsum concurrentUpdates Hworkers).
  unfold concurrentUpdates. rewrite length_map, length_seq. vm_compute. reflexivity.
Qed.

End ConcurrentUpdates.

Section ConcurrentUpdatesExample.
Import SharedMemory CpuWorker WorkerThreadManager.

(** A buffer of four cells, every random number 1/2, the workers run one
    after the other. *)
Lemma concurrentUpdates_stores_stay_in_bounds_witness :
  let cells := [1; 2; 3; 4]%Z in
  let traces := map (fun data => worker_accesses (number:=N) cells (fun _ => 1 # 2) data)
                    concurrentUpdates in
  N.of_nat (length (concat traces)) = 100000%N /\
  length (after (concat traces) cells) = 4%nat.
Proof.
  intros cells traces.
  assert (Hcells : cells <> []) by discriminate.
  assert (Hrandom : forall (w k : nat), 0 <= (fun _ _ : nat => 1 # 2) w k /\
                                        (fun _ _ : nat => 1 # 2) w k < 1).
  { intros w k. unfold Qle, Qlt. cbn. lia. }
  destruct (@concurrentUpdates_stores_stay_in_bounds N _ cells (fun _ _ => 1 # 2)
              (concat traces) Hcells Hrandom) as (Hcount & _ & Hlen & _).
  { apply Interleaving_sequential. }
  split; [exact Hcount|exact Hlen].
Defined.

End ConcurrentUpdatesExample.
